(** * Tram monitor frontend: a shallow embedding of the browser client

    The development follows the TypeScript sources of the frontend:
    - [map/vehicle-layer.ts]  route colours, route geometry, marker
      bookkeeping ([routeColor], [buildRouteGeometry], [pointAtProgress],
      [bearingAtProgress], [inferTravelDir], [VehicleLayer.update]);
    - [services/state.ts]     the reactive store ([Store]);
    - [services/ws-client.ts] the WebSocket client ([WsClient]);
    - [main.ts]               the frame handler that feeds the store.

    Conventions of the embedding.
    - A JavaScript [number] that carries a coordinate, a distance, an angle
      or a progress value is a real number ([R]), with [Math.sqrt],
      [Math.cos] and [Math.atan2] the real functions: rounding, NaN and the
      infinities are left out.  Array indices, route ids, character codes
      and millisecond clocks are integers ([Z]).
    - Where a property depends on the rounding of doubles, the route
      geometry is embedded twice more: in [Rounded] every arithmetic
      result passes through a rounding function [rnd : R -> R], and in
      [Doubles] the numbers are the binary64 floats of the kernel
      ([PrimFloat]), on which the code runs as it does in the browser.
    - An array read [a[i]] is [js_get a i : option _]; [None] is the
      JavaScript [undefined].  A function whose JavaScript body would throw
      a [TypeError] on [undefined] (or would compute with it) returns [None].
    - A JavaScript [Map<string, V>] is an insertion-ordered association list
      ([jsmap V]), a [Set<string>] is a [gset string]. *)

From Stdlib Require Import Reals Lra Lia ZArith.
From Stdlib Require Floats.
From stdpp Require Import base list strings gmap.
From Equations Require Import Equations.

Local Open Scope Z_scope.

(** ** JavaScript arrays *)

Definition js_get {A : Type} (a : list A) (i : Z) : option A :=
  if decide (0 <= i) then a !! Z.to_nat i else None.

Definition js_length {A : Type} (a : list A) : Z := Z.of_nat (length a).

(** ** JavaScript numbers as reals *)

Module JsNum.
Local Open Scope R_scope.

#[global] Instance Rlt_decision (x y : R) : Decision (x < y) := Rlt_dec x y.
#[global] Instance Rle_decision (x y : R) : Decision (x <= y) := Rle_dec x y.

(** Truncation towards zero, the rounding of the [%] operator. *)
Definition trunc (x : R) : R :=
  if Rle_dec 0 x then IZR (Int_part x) else - IZR (Int_part (- x)).

(** [x % y]: the remainder has the sign of the dividend. *)
Definition rem (x y : R) : R := x - y * trunc (x / y).

(** [Math.atan2(y, x)] on finite arguments. *)
Definition atan2 (y x : R) : R :=
  if Rlt_dec 0 x then atan (y / x)
  else if Rlt_dec x 0 then
    (if Rle_dec 0 y then atan (y / x) + PI else atan (y / x) - PI)
  else if Rlt_dec 0 y then PI / 2
  else if Rlt_dec y 0 then - (PI / 2)
  else 0.

(** [Math.max(0, Math.min(1, p))]. *)
Definition clamp01 (p : R) : R := Rmax 0 (Rmin 1 p).

(** [undefined <= x] is false: [undefined] converts to NaN. *)
Definition le_undef (a : option R) (x : R) : bool :=
  match a with
  | Some v => if Rle_dec v x then true else false
  | None => false
  end.

End JsNum.

(** ** Route geometry ([vehicle-layer.ts]) *)

Module Geometry.
Local Open Scope R_scope.

Definition DEG2RAD : R := PI / 180.
Definition M_PER_DEG_LAT : R := 111320.

Record RouteGeometry := mkRouteGeometry {
  points : list (R * R);   (* [lat, lon] *)
  cumDist : list R;        (* cumulative distance (meters) at each vertex *)
  totalDist : R;
}.

(** Length of the segment from [a] to [b] in the equirectangular frame. *)
Definition segDist (cosLat : R) (a b : R * R) : R :=
  let dlat := (b.1 - a.1) * M_PER_DEG_LAT in
  let dlon := (b.2 - a.2) * M_PER_DEG_LAT * cosLat in
  sqrt (dlat * dlat + dlon * dlon).

(** The body of [for (let i = 1; i < points.length; i++)]: [prev] is
    [points[i - 1]], [rest] the vertices from index [i] on, [total] the
    running sum, [acc] the table pushed so far. *)
Fixpoint cumLoop (cosLat : R) (prev : R * R) (rest : list (R * R))
    (total : R) (acc : list R) : list R * R :=
  match rest with
  | [] => (acc, total)
  | p :: rest' =>
      let total' := total + segDist cosLat prev p in
      cumLoop cosLat p rest' total' (acc ++ [total'])
  end.

(** A row [c] of [coords] is read through [c[0]] and [c[1]] only and is
    the pair of the two.  [points[0][0]] throws on an empty array. *)
Definition buildRouteGeometry (coords : list (R * R)) : option RouteGeometry :=
  let pts := map (fun c => (c.1, c.2)) coords in
  match pts with
  | [] => None
  | p0 :: rest =>
      let cosLat := cos (p0.1 * DEG2RAD) in
      let '(cum, total) := cumLoop cosLat p0 rest 0 [0] in
      Some {| points := pts; cumDist := cum; totalDist := total |}
  end.

(** The binary search of [pointAtProgress]:
    [while (lo < hi - 1) { mid = (lo + hi) >> 1; ... }]. *)
Equations? bsearch (cum : list R) (target : R) (lo hi : Z) : Z * Z
    by wf (Z.to_nat (hi - lo)) lt :=
  bsearch cum target lo hi with Z_lt_dec lo (hi - 1) => {
    | left _ =>
        if JsNum.le_undef (js_get cum (Z.shiftr (lo + hi) 1)) target
        then bsearch cum target (Z.shiftr (lo + hi) 1) hi
        else bsearch cum target lo (Z.shiftr (lo + hi) 1);
    | right _ => (lo, hi) }.
Proof.
  all: rewrite Z.shiftr_div_pow2 by lia; change (2 ^ 1)%Z with 2%Z.
  all: pose proof (Z.div_mod (lo + hi) 2 ltac:(lia));
       pose proof (Z.mod_pos_bound (lo + hi) 2 ltac:(lia)); lia.
Qed.

(** Given a progress 0-1, return [lat, lon] on the route polyline. *)
Definition pointAtProgress (geom : RouteGeometry) (progress : R)
    : option (R * R) :=
  let p := JsNum.clamp01 progress in
  let targetDist := p * totalDist geom in
  let '(lo, hi) :=
    bsearch (cumDist geom) targetDist 0 (js_length (cumDist geom) - 1) in
  match js_get (cumDist geom) lo, js_get (cumDist geom) hi,
        js_get (points geom) lo, js_get (points geom) hi with
  | Some segStart, Some segEnd, Some plo, Some phi =>
      let segLen := segEnd - segStart in
      let t := if Rlt_dec 0 segLen then (targetDist - segStart) / segLen
               else 0 in
      Some (plo.1 + (phi.1 - plo.1) * t, plo.2 + (phi.2 - plo.2) * t)
  | _, _, _, _ => None
  end.

(** Compute bearing (degrees) at a progress point on the route. *)
Definition bearingAtProgress (geom : RouteGeometry) (progress : R)
    : option R :=
  let eps := 0.001 in
  match pointAtProgress geom (Rmax 0 (progress - eps)),
        pointAtProgress geom (Rmin 1 (progress + eps)) with
  | Some p1, Some p2 =>
      let cosLat := cos (p1.1 * DEG2RAD) in
      let dx := (p2.2 - p1.2) * cosLat in
      let dy := p2.1 - p1.1 in
      Some (JsNum.rem (JsNum.atan2 dx dy * 180 / PI + 360) 360)
  | _, _ => None
  end.

Definition absAngleDiffDeg (a b : R) : R :=
  let diff := JsNum.rem (Rabs (a - b)) 360 in
  if Rlt_dec 180 diff then 360 - diff else diff.

Definition inferTravelDir (geom : RouteGeometry)
    (prevProgress targetProgress targetCourse : R) : option Z :=
  if Rlt_dec 0.0001 (Rabs (targetProgress - prevProgress)) then
    Some (if Rge_dec targetProgress prevProgress then 1%Z else (-1)%Z)
  else
    match bearingAtProgress geom targetProgress with
    | Some routeBearing =>
        Some (if Rlt_dec 90 (absAngleDiffDeg targetCourse routeBearing)
              then (-1)%Z else 1%Z)
    | None => None
    end.

End Geometry.

(** ** Route colours ([vehicle-layer.ts]) *)

Module Colors.
Local Open Scope Z_scope.

(** Maximally distinct color palette (Kelly's colors + extras). *)
Definition COLORS : list string :=
  [ "#e6194b"; "#3cb44b"; "#4363d8"; "#f58231"; "#911eb4";
    "#42d4f4"; "#f032e6"; "#bfef45"; "#fabed4"; "#469990";
    "#dcbeff"; "#9A6324"; "#800000"; "#aaffc3"; "#808000";
    "#000075"; "#a9a9a9"; "#ffe119"; "#ffd8b1"; "#00CED1";
    "#ff6eb4"; "#ff4500"; "#1abc9c"; "#8b0000" ]%string.

(** A JavaScript string is read through its code units
    ([charCodeAt]); a Rocq [string] supplies the units below 256. *)
Definition charCodes (s : string) : list Z :=
  map (fun a => Z.of_N (Ascii.N_of_ascii a)) (String.list_ascii_of_string s).

(** White space skipped by [parseInt] (StrWhiteSpaceChar). *)
Definition isWhiteSpace (c : Z) : bool :=
  bool_decide (c ∈ [9; 10; 11; 12; 13; 32; 160; 5760; 8192; 8193; 8194; 8195;
                    8196; 8197; 8198; 8199; 8200; 8201; 8202; 8232; 8233;
                    8239; 8287; 12288; 65279]).

Fixpoint skipWhiteSpace (cs : list Z) : list Z :=
  match cs with
  | c :: cs' => if isWhiteSpace c then skipWhiteSpace cs' else cs
  | [] => []
  end.

Definition isDigit (c : Z) : bool := (48 <=? c) && (c <=? 57).

(** Value of the longest prefix of decimal digits, [None] when it is
    empty; [acc] is the value read so far, [seen] whether a digit was read. *)
Fixpoint digitsValue (cs : list Z) (acc : Z) (seen : bool) : option Z :=
  match cs with
  | c :: cs' =>
      if isDigit c then digitsValue cs' (10 * acc + (c - 48)) true
      else if seen then Some acc else None
  | [] => if seen then Some acc else None
  end.

(** [parseInt(s, 10)]; [None] is NaN.  The value is the mathematical
    integer of the digits, which is the JavaScript number as long as it
    does not exceed 2^53. *)
Definition parseInt (cs : list Z) : option Z :=
  match skipWhiteSpace cs with
  | 45 :: rest => Z.opp <$> digitsValue rest 0 false   (* "-" *)
  | 43 :: rest => digitsValue rest 0 false             (* "+" *)
  | rest => digitsValue rest 0 false
  end.

(** ToInt32, and [x << k] on 32-bit integers. *)
Definition toInt32 (x : Z) : Z := (x + 2 ^ 31) mod 2 ^ 32 - 2 ^ 31.
Definition shl32 (x k : Z) : Z := toInt32 (Z.shiftl (toInt32 x) k).

(** [hash = routeNum.charCodeAt(i) + ((hash << 5) - hash)] for every [i]. *)
Definition hashStep (hash c : Z) : Z := c + (shl32 hash 5 - hash).
Definition hashCodes (cs : list Z) : Z := foldl hashStep 0 cs.

(** [routeColor] on the code units of its argument; [None] is the
    [undefined] read from outside the palette. *)
Definition routeColorUnits (cs : list Z) : option string :=
  match parseInt cs with
  | Some num => js_get COLORS (Z.rem num (js_length COLORS))
  | None => js_get COLORS (Z.rem (Z.abs (hashCodes cs)) (js_length COLORS))
  end.

Definition routeColor (routeNum : string) : option string :=
  routeColorUnits (charCodes routeNum).

End Colors.

(** ** Wire data ([services/ws-client.ts], [services/api-client.ts]) *)

Module Data.

Record VehicleData := mkVehicleData {
  v_id : string;
  v_board_num : string;
  v_route : string;
  v_route_id : option Z;
  v_lat : R;
  v_lon : R;
  v_speed : R;
  v_course : R;
  v_prev_stop : option (Z * string);
  v_next_stops : list (Z * string * option R);
  v_progress : option R;
  v_timestamp : option string;
  v_signal_lost : bool;
}.

Inductive FrameType := Snapshot | Update.

#[global] Instance FrameType_eq_dec : EqDecision FrameType.
Proof. solve_decision. Defined.

Record WsMessage := mkWsMessage {
  msg_type : FrameType;
  msg_vehicles : list VehicleData;
}.

Record RouteInfo := mkRouteInfo {
  r_id : Z;
  r_number : string;
  r_name : string;
  r_color : string;
  r_stop_ids : list Z;
  r_geometry : option (list (R * R));
}.

Record StopInfo := mkStopInfo {
  s_id : Z;
  s_name : string;
  s_lat : R;
  s_lon : R;
}.

End Data.

(** ** JavaScript [Map<string, V>] with its insertion order *)

Module JsMap.
Section jsmap.
Context {V : Type}.

Fixpoint get (k : string) (m : list (string * V)) : option V :=
  match m with
  | [] => None
  | (k', v) :: m' => if decide (k' = k) then Some v else get k m'
  end.

(** [m.set(k, v)]: an existing key keeps its position, a new key goes last. *)
Fixpoint set (k : string) (v : V) (m : list (string * V)) : list (string * V) :=
  match m with
  | [] => [(k, v)]
  | (k', v') :: m' =>
      if decide (k' = k) then (k, v) :: m' else (k', v') :: set k v m'
  end.

Definition keys (m : list (string * V)) : list string := m.*1.
Definition values (m : list (string * V)) : list V := m.*2.

End jsmap.
End JsMap.

Abbreviation jsmap V := (list (string * V)).

(** ** The reactive store ([services/state.ts]) *)

Module State.
Import Data.

Record AppState := mkAppState {
  vehicles : jsmap VehicleData;
  routes : list RouteInfo;
  stops : list StopInfo;
  enabledRoutes : gset string;   (* route numbers *)
  selectedStop : option Z;
  connected : bool;
}.

(** [notified] counts the runs of [notify()], one call of every listener. *)
Record Store := mkStore {
  state : AppState;
  notified : nat;
}.

Definition init : Store :=
  {| state := {| vehicles := []; routes := []; stops := [];
                 enabledRoutes := ∅; selectedStop := None;
                 connected := false |};
     notified := 0 |}.

Definition notify (s : Store) : Store :=
  {| state := state s; notified := S (notified s) |}.

Definition setConnected (c : bool) (s : Store) : Store :=
  let st := state s in
  notify {| state := {| vehicles := vehicles st; routes := routes st;
                        stops := stops st; enabledRoutes := enabledRoutes st;
                        selectedStop := selectedStop st; connected := c |};
            notified := notified s |}.

Definition updateVehicles (vs : list VehicleData) (s : Store) : Store :=
  let st := state s in
  notify {| state := {| vehicles :=
                          foldl (fun m v => JsMap.set (v_id v) v m) (vehicles st) vs;
                        routes := routes st;
                        stops := stops st; enabledRoutes := enabledRoutes st;
                        selectedStop := selectedStop st;
                        connected := connected st |};
            notified := notified s |}.

Definition withEnabledRoutes (e : gset string) (s : Store) : Store :=
  let st := state s in
  {| state := {| vehicles := vehicles st; routes := routes st;
                 stops := stops st; enabledRoutes := e;
                 selectedStop := selectedStop st; connected := connected st |};
     notified := notified s |}.

Definition setRoutes (rs : list RouteInfo) (s : Store) : Store :=
  let st := state s in
  notify {| state := {| vehicles := vehicles st; routes := rs;
                        stops := stops st;
                        enabledRoutes := list_to_set (r_number <$> rs);
                        selectedStop := selectedStop st;
                        connected := connected st |};
            notified := notified s |}.

Definition setStops (ss : list StopInfo) (s : Store) : Store :=
  let st := state s in
  notify {| state := {| vehicles := vehicles st; routes := routes st;
                        stops := ss; enabledRoutes := enabledRoutes st;
                        selectedStop := selectedStop st;
                        connected := connected st |};
            notified := notified s |}.

Definition toggleRoute (routeNum : string) (s : Store) : Store :=
  let e := enabledRoutes (state s) in
  notify (withEnabledRoutes
            (if decide (routeNum ∈ e) then e ∖ {[routeNum]} else {[routeNum]} ∪ e) s).

Definition enableAllRoutes (s : Store) : Store :=
  notify (withEnabledRoutes (list_to_set (r_number <$> routes (state s))) s).

Definition disableAllRoutes (s : Store) : Store :=
  notify (withEnabledRoutes ∅ s).

Definition selectStop (stopId : option Z) (s : Store) : Store :=
  let st := state s in
  notify {| state := {| vehicles := vehicles st; routes := routes st;
                        stops := stops st; enabledRoutes := enabledRoutes st;
                        selectedStop := stopId; connected := connected st |};
            notified := notified s |}.

Definition getVisibleVehicles (s : Store) : list VehicleData :=
  let hasFilter := bool_decide (0 < size (enabledRoutes (state s)))%nat in
  filter (fun v => hasFilter = false \/ v_route v ∈ enabledRoutes (state s))
         (JsMap.values (vehicles (state s))).

(** Returns stop IDs that belong to at least one enabled route, or null if
    all routes are enabled. *)
Definition getActiveStopIds (s : Store) : option (gset Z) :=
  let st := state s in
  if forallb (fun r => bool_decide (r_number r ∈ enabledRoutes st)) (routes st)
  then None
  else Some (foldl (fun ids r =>
                      if decide (r_number r ∈ enabledRoutes st)
                      then foldl (fun ids' i => {[i]} ∪ ids') ids (r_stop_ids r)
                      else ids)
                   ∅ (routes st)).

End State.

(** ** Vehicle markers ([map/vehicle-layer.ts]) *)

Module VehicleLayer.
Import Data Geometry.
Local Open Scope R_scope.

(** Max progress change that can be animated (~5% of route). *)
Definition MAX_ANIM_PROGRESS_DELTA : R := 0.05.

(** The [L.divIcon] of a route: background colour, opacity and label. *)
Record Icon := mkIcon {
  icon_color : option string;
  icon_opacity : string;
  icon_label : string;
}.

Definition createIcon (routeNum : string) (signalLost : bool) : Icon :=
  {| icon_color := Colors.routeColor routeNum;
     icon_opacity := if signalLost then "0.4"%string else "1"%string;
     icon_label := routeNum |}.

(** A Leaflet marker: [marker_id] is the identity of the object returned
    by [L.marker]; the other fields hold what was last written with
    [setLatLng], [setIcon], [bindPopup]/[setPopupContent] (the vehicle the
    popup was rendered from) and [updateHeading]. *)
Record Marker := mkMarker {
  marker_id : nat;
  latlng : R * R;
  icon : Icon;
  popup : VehicleData;
  heading : R;
}.

Definition setLatLng (ll : R * R) (m : Marker) : Marker :=
  {| marker_id := marker_id m; latlng := ll; icon := icon m;
     popup := popup m; heading := heading m |}.
Definition setIcon (i : Icon) (m : Marker) : Marker :=
  {| marker_id := marker_id m; latlng := latlng m; icon := i;
     popup := popup m; heading := heading m |}.
Definition setPopupContent (v : VehicleData) (m : Marker) : Marker :=
  {| marker_id := marker_id m; latlng := latlng m; icon := icon m;
     popup := v; heading := heading m |}.
Definition updateHeading (course : R) (m : Marker) : Marker :=
  {| marker_id := marker_id m; latlng := latlng m; icon := icon m;
     popup := popup m; heading := course |}.

Record TrackedVehicle := mkTrackedVehicle {
  marker : Marker;
  route : string;
  routeId : option Z;
  signalLost : bool;
  prevProgress : option R;
  targetProgress : option R;
  prevLat : R;
  prevLon : R;
  prevCourse : R;
  targetLat : R;
  targetLon : R;
  targetCourse : R;
  targetSpeed : R;
  targetHasServerProgress : bool;
  updateTime : R;
  currentLat : R;
  currentLon : R;
  currentCourse : R;
  currentProgress : option R;
}.

(** [tv.prev* = ...]: the four "previous" fields. *)
Definition setPrev (lat lon course : R) (progress : option R)
    (tv : TrackedVehicle) : TrackedVehicle :=
  {| marker := marker tv; route := route tv; routeId := routeId tv;
     signalLost := signalLost tv;
     prevProgress := progress; targetProgress := targetProgress tv;
     prevLat := lat; prevLon := lon; prevCourse := course;
     targetLat := targetLat tv; targetLon := targetLon tv;
     targetCourse := targetCourse tv; targetSpeed := targetSpeed tv;
     targetHasServerProgress := targetHasServerProgress tv;
     updateTime := updateTime tv;
     currentLat := currentLat tv; currentLon := currentLon tv;
     currentCourse := currentCourse tv;
     currentProgress := currentProgress tv |}.

(** [tv.current* = ...]: the four rendered fields. *)
Definition setCurrent (lat lon course : R) (progress : option R)
    (tv : TrackedVehicle) : TrackedVehicle :=
  {| marker := marker tv; route := route tv; routeId := routeId tv;
     signalLost := signalLost tv;
     prevProgress := prevProgress tv; targetProgress := targetProgress tv;
     prevLat := prevLat tv; prevLon := prevLon tv; prevCourse := prevCourse tv;
     targetLat := targetLat tv; targetLon := targetLon tv;
     targetCourse := targetCourse tv; targetSpeed := targetSpeed tv;
     targetHasServerProgress := targetHasServerProgress tv;
     updateTime := updateTime tv;
     currentLat := lat; currentLon := lon; currentCourse := course;
     currentProgress := progress |}.

Definition setMarker (m : Marker) (tv : TrackedVehicle) : TrackedVehicle :=
  {| marker := m; route := route tv; routeId := routeId tv;
     signalLost := signalLost tv;
     prevProgress := prevProgress tv; targetProgress := targetProgress tv;
     prevLat := prevLat tv; prevLon := prevLon tv; prevCourse := prevCourse tv;
     targetLat := targetLat tv; targetLon := targetLon tv;
     targetCourse := targetCourse tv; targetSpeed := targetSpeed tv;
     targetHasServerProgress := targetHasServerProgress tv;
     updateTime := updateTime tv;
     currentLat := currentLat tv; currentLon := currentLon tv;
     currentCourse := currentCourse tv;
     currentProgress := currentProgress tv |}.

(** The block "Set new target": target fields, [routeId], [updateTime]. *)
Definition setTarget (v : VehicleData) (progress : option R) (now : R)
    (tv : TrackedVehicle) : TrackedVehicle :=
  {| marker := marker tv; route := route tv; routeId := v_route_id v;
     signalLost := signalLost tv;
     prevProgress := prevProgress tv; targetProgress := progress;
     prevLat := prevLat tv; prevLon := prevLon tv; prevCourse := prevCourse tv;
     targetLat := v_lat v; targetLon := v_lon v;
     targetCourse := v_course v; targetSpeed := v_speed v;
     targetHasServerProgress := bool_decide (is_Some (v_progress v));
     updateTime := now;
     currentLat := currentLat tv; currentLon := currentLon tv;
     currentCourse := currentCourse tv;
     currentProgress := currentProgress tv |}.

(** [tv.route = v.route; tv.signalLost = v.signal_lost]. *)
Definition setRouteSignal (v : VehicleData) (tv : TrackedVehicle)
    : TrackedVehicle :=
  {| marker := marker tv; route := v_route v; routeId := routeId tv;
     signalLost := v_signal_lost v;
     prevProgress := prevProgress tv; targetProgress := targetProgress tv;
     prevLat := prevLat tv; prevLon := prevLon tv; prevCourse := prevCourse tv;
     targetLat := targetLat tv; targetLon := targetLon tv;
     targetCourse := targetCourse tv; targetSpeed := targetSpeed tv;
     targetHasServerProgress := targetHasServerProgress tv;
     updateTime := updateTime tv;
     currentLat := currentLat tv; currentLon := currentLon tv;
     currentCourse := currentCourse tv;
     currentProgress := currentProgress tv |}.

(** Teleport: previous and rendered state and the marker all move to one
    position (the assignments shared by the route-change and the
    large-jump branches). *)
Definition snapTo (lat lon course : R) (progress : option R)
    (tv : TrackedVehicle) : TrackedVehicle :=
  setMarker (updateHeading course (setLatLng (lat, lon) (marker tv)))
    (setCurrent lat lon course progress (setPrev lat lon course progress tv)).

(** The position a vehicle has on its route, or its raw fix without a
    route geometry. *)
Definition routedPosition (geom : option RouteGeometry) (v : VehicleData)
    (progress : R) : option (R * R * R) :=
  match geom with
  | Some g =>
      p ← pointAtProgress g progress;
      c ← bearingAtProgress g progress;
      Some (p.1, p.2, c)
  | None => Some (v_lat v, v_lon v, v_course v)
  end.

(** The [if (tv)] branch of [update]. *)
Definition updateExisting (now : R) (geom : option RouteGeometry)
    (v : VehicleData) (tv : TrackedVehicle) : option TrackedVehicle :=
  let routeChanged := bool_decide (routeId tv <> v_route_id v) in
  (* Snap "previous" to wherever the marker currently is *)
  let tv1 := setPrev (currentLat tv) (currentLon tv) (currentCourse tv)
                     (currentProgress tv) tv in
  tv2 ← (if routeChanged then
           match geom, v_progress v with
           | Some g, Some pr =>
               '(lat, lon, c) ← routedPosition (Some g) v pr;
               Some (snapTo lat lon c (Some pr) tv1)
           | _, _ =>
               Some (snapTo (v_lat v) (v_lon v) (v_course v) (v_progress v) tv1)
           end
         else Some tv1);
  (* Detect unreasonable progress jumps: snap instead of animating *)
  tv3 ← (match prevProgress tv2, v_progress v with
         | Some pp, Some pr =>
             if negb routeChanged &&
                bool_decide (MAX_ANIM_PROGRESS_DELTA < Rabs (pr - pp))
             then
               '(lat, lon, c) ← routedPosition geom v pr;
               Some (snapTo lat lon c (Some pr) tv2)
             else Some tv2
         | _, _ => Some tv2
         end);
  (* keep the current routed position when the server rejected the snap *)
  let targetProgress :=
    match geom, v_progress v, currentProgress tv3 with
    | Some _, None, Some cp => Some cp
    | _, _, _ => v_progress v
    end in
  let tv4 := setTarget v targetProgress now tv3 in
  let tv5 :=
    if bool_decide (route tv4 <> v_route v \/ signalLost tv4 <> v_signal_lost v)
    then setRouteSignal v
           (setMarker (setIcon (createIcon (v_route v) (v_signal_lost v))
                               (marker tv4)) tv4)
    else tv4 in
  Some (setMarker (setPopupContent v (marker tv5)) tv5).

(** The [else] branch of [update]: a marker for a vehicle seen first. *)
Definition createTracked (now : R) (geom : option RouteGeometry)
    (v : VehicleData) (fresh : nat) : option TrackedVehicle :=
  '(lat, lon, course) ←
     match geom, v_progress v with
     | Some g, Some pr => routedPosition (Some g) v pr
     | _, _ => Some (v_lat v, v_lon v, v_course v)
     end;
  Some {| marker := {| marker_id := fresh; latlng := (lat, lon);
                       icon := createIcon (v_route v) (v_signal_lost v);
                       popup := v; heading := course |};
          route := v_route v; routeId := v_route_id v;
          signalLost := v_signal_lost v;
          prevProgress := v_progress v; targetProgress := v_progress v;
          prevLat := lat; prevLon := lon; prevCourse := course;
          targetLat := v_lat v; targetLon := v_lon v;
          targetCourse := v_course v; targetSpeed := v_speed v;
          targetHasServerProgress := bool_decide (is_Some (v_progress v));
          updateTime := now;
          currentLat := lat; currentLon := lon; currentCourse := course;
          currentProgress := v_progress v |}.

(** The layer: [tracked], the markers on [layerGroup] (by identity), the
    route geometry index, and the identity of the next marker object. *)
Record t := mkLayer {
  tracked : gmap string TrackedVehicle;
  layerGroup : gset nat;
  routeGeometries : gmap Z RouteGeometry;
  nextMarker : nat;
}.

Definition new : t :=
  {| tracked := ∅; layerGroup := ∅; routeGeometries := ∅; nextMarker := 0 |}.

(** Load route geometries for route-following animation. *)
Fixpoint loadLoop (rs : list RouteInfo) (acc : gmap Z RouteGeometry)
    : option (gmap Z RouteGeometry) :=
  match rs with
  | [] => Some acc
  | r :: rs' =>
      match r_geometry r with
      | Some g =>
          if bool_decide (2 <= length g)%nat
          then geom ← buildRouteGeometry g; loadLoop rs' (<[r_id r := geom]> acc)
          else loadLoop rs' acc
      | None => loadLoop rs' acc
      end
  end.

Definition loadRoutes (rs : list RouteInfo) (l : t) : option t :=
  gs ← loadLoop rs ∅;
  Some {| tracked := tracked l; layerGroup := layerGroup l;
          routeGeometries := gs; nextMarker := nextMarker l |}.

Definition geometryOf (l : t) (v : VehicleData) : option RouteGeometry :=
  rid ← v_route_id v; routeGeometries l !! rid.

(** One iteration of [for (const v of vehicles)]. *)
Definition updateOne (now : R) (v : VehicleData) (st : t * gset string)
    : option (t * gset string) :=
  let '(l, seen) := st in
  let seen' := {[v_id v]} ∪ seen in
  let geom := geometryOf l v in
  match tracked l !! v_id v with
  | Some tv =>
      tv' ← updateExisting now geom v tv;
      Some ({| tracked := <[v_id v := tv']> (tracked l);
               layerGroup := layerGroup l;
               routeGeometries := routeGeometries l;
               nextMarker := nextMarker l |}, seen')
  | None =>
      tv' ← createTracked now geom v (nextMarker l);
      Some ({| tracked := <[v_id v := tv']> (tracked l);
               layerGroup := {[nextMarker l]} ∪ layerGroup l;
               routeGeometries := routeGeometries l;
               nextMarker := S (nextMarker l) |}, seen')
  end.

Fixpoint updateLoop (now : R) (vs : list VehicleData) (st : t * gset string)
    : option (t * gset string) :=
  match vs with
  | [] => Some st
  | v :: vs' => st' ← updateOne now v st; updateLoop now vs' st'
  end.

(** "Remove stale markers": every tracked id outside [seen] loses its
    marker on the layer group and its entry. *)
Definition removeStale (seen : gset string) (l : t) : t :=
  let stale := filter (fun kv => kv.1 ∉ seen) (tracked l) in
  {| tracked := filter (fun kv => kv.1 ∈ seen) (tracked l);
     layerGroup :=
       layerGroup l ∖ map_to_set (fun _ tv => marker_id (marker tv)) stale;
     routeGeometries := routeGeometries l;
     nextMarker := nextMarker l |}.

(** Called on each server update. Stores targets and creates/removes
    markers. *)
Definition update (now : R) (vs : list VehicleData) (l : t) : option t :=
  '(l', seen) ← updateLoop now vs (l, ∅);
  Some (removeStale seen l').

Definition clear (l : t) : t :=
  {| tracked := ∅; layerGroup := ∅;
     routeGeometries := routeGeometries l; nextMarker := nextMarker l |}.

End VehicleLayer.

(** ** The frame handler ([main.ts]) *)

Module Main.
Import Data State.
Local Open Scope Z_scope.

Definition SNAPSHOT_MAX_AGE_MS : Z := 20000.

(** The store and the flag [hasFreshVehicleUpdate] closed over by the two
    handlers installed on the WebSocket client. *)
Record App := mkApp {
  store : Store;
  hasFreshVehicleUpdate : bool;
}.

Definition init : App := {| store := State.init; hasFreshVehicleUpdate := false |}.

(** What reaches the handlers: a frame dispatched by the client at clock
    reading [now] ([Date.now()], milliseconds), or a status change. *)
Inductive Event :=
  | EvFrame (now : Z) (msg : WsMessage)
  | EvStatus (connected : bool).

Section handlers.

(** [Date.parse]: milliseconds since the epoch, [None] for NaN. *)
Variable Date_parse : string -> option Z.

Definition isFreshSnapshot (now : Z) (ts : option string) : bool :=
  match ts with
  | None => false
  | Some s =>
      if decide (s = ""%string) then false
      else match Date_parse s with
           | None => false
           | Some parsed => bool_decide (now - parsed <= SNAPSHOT_MAX_AGE_MS)
           end
  end.

(** [wsClient.onStatusChange]. *)
Definition onStatusChange (connected : bool) (a : App) : App :=
  let s := setConnected connected (store a) in
  if connected
  then {| store := s; hasFreshVehicleUpdate := hasFreshVehicleUpdate a |}
  else {| store := updateVehicles [] s; hasFreshVehicleUpdate := false |}.

(** The listener passed to [wsClient.subscribe]. *)
Definition onFrame (now : Z) (msg : WsMessage) (a : App) : App :=
  match msg_type msg with
  | Update =>
      {| store := updateVehicles (msg_vehicles msg) (store a);
         hasFreshVehicleUpdate := true |}
  | Snapshot =>
      (* Accept startup snapshot only if it is fresh by API vehicle timestamps. *)
      if hasFreshVehicleUpdate a
      then {| store := updateVehicles (msg_vehicles msg) (store a);
              hasFreshVehicleUpdate := hasFreshVehicleUpdate a |}
      else
        let hasVehicles := bool_decide (0 < length (msg_vehicles msg))%nat in
        let snapshotIsFresh :=
          hasVehicles &&
          forallb (fun v => isFreshSnapshot now (v_timestamp v)) (msg_vehicles msg) in
        if snapshotIsFresh
        then {| store := updateVehicles (msg_vehicles msg) (store a);
                hasFreshVehicleUpdate := hasFreshVehicleUpdate a |}
        else a
  end.

Definition step (a : App) (e : Event) : App :=
  match e with
  | EvFrame now msg => onFrame now msg a
  | EvStatus connected => onStatusChange connected a
  end.

Definition run (a : App) (es : list Event) : App := foldl step a es.

End handlers.
End Main.

(** ** The WebSocket client ([services/ws-client.ts]) *)

Module WsClient.
Import Data.

(** What the client does with a [WebSocket] object. *)
Inductive SocketCall :=
  | SockNew (url : string)        (* new WebSocket(url), binaryType, handlers *)
  | SockClose                     (* ws.close() *)
  | SockSend (data : string).     (* ws.send(data) *)

(** Everything a method or a handler of the client does to its
    environment, in order. *)
Inductive Effect :=
  | EffSocket (sock : nat) (c : SocketCall)
  | EffStatus (connected : bool)               (* onStatusChange?.(connected) *)
  | EffListener (listener : nat) (msg : WsMessage)   (* listener(msg) *)
  | EffSetTimeout (timer : nat)                (* setTimeout(connect, 3000) *)
  | EffClearTimeout (timer : nat)
  | EffLog.                                    (* console.log / console.error *)

(** [ws] and [reconnectTimeout] hold identities of sockets and timers;
    [nextSocket] and [nextTimer] are the identities of the next ones. *)
Record t := mkClient {
  ws : option nat;
  listeners : list nat;
  reconnectTimeout : option nat;
  url : string;
  nextSocket : nat;
  nextTimer : nat;
}.

Definition new (u : string) : t :=
  {| ws := None; listeners := []; reconnectTimeout := None; url := u;
     nextSocket := 0; nextTimer := 1 |}.

Definition setWs (w : option nat) (c : t) : t :=
  {| ws := w; listeners := listeners c; reconnectTimeout := reconnectTimeout c;
     url := url c; nextSocket := nextSocket c; nextTimer := nextTimer c |}.

Definition connect (c : t) : t * list Effect :=
  match ws c with
  | Some _ => (c, [])
  | None =>
      ({| ws := Some (nextSocket c); listeners := listeners c;
          reconnectTimeout := reconnectTimeout c; url := url c;
          nextSocket := S (nextSocket c); nextTimer := nextTimer c |},
       [EffSocket (nextSocket c) (SockNew (url c))])
  end.

Definition subscribe (listener : nat) (c : t) : t :=
  {| ws := ws c;
     listeners := if decide (listener ∈ listeners c) then listeners c
                  else listeners c ++ [listener];
     reconnectTimeout := reconnectTimeout c; url := url c;
     nextSocket := nextSocket c; nextTimer := nextTimer c |}.

(** The function returned by [subscribe]. *)
Definition unsubscribe (listener : nat) (c : t) : t :=
  {| ws := ws c;
     listeners := filter (fun l => l <> listener) (listeners c);
     reconnectTimeout := reconnectTimeout c; url := url c;
     nextSocket := nextSocket c; nextTimer := nextTimer c |}.

Definition closeCurrent (c : t) : list Effect :=
  match ws c with
  | Some s => [EffSocket s SockClose]
  | None => []
  end.

Definition disconnect (c : t) : t * list Effect :=
  let cleared :=
    match reconnectTimeout c with
    | Some tm => [EffClearTimeout tm]
    | None => []
    end in
  (setWs None c, cleared ++ closeCurrent c).

Definition onopen (c : t) : t * list Effect := (c, [EffLog; EffStatus true]).

(** [parsed] is the outcome of decoding and [JSON.parse]; a failure is
    caught and logged. *)
Definition onmessage (parsed : option WsMessage) (c : t) : t * list Effect :=
  match parsed with
  | Some msg => (c, map (fun l => EffListener l msg) (listeners c))
  | None => (c, [EffLog])
  end.

Definition onclose (c : t) : t * list Effect :=
  ({| ws := None; listeners := listeners c;
      reconnectTimeout := Some (nextTimer c); url := url c;
      nextSocket := nextSocket c; nextTimer := S (nextTimer c) |},
   [EffLog; EffStatus false; EffSetTimeout (nextTimer c)]).

Definition onerror (c : t) : t * list Effect := (c, EffLog :: closeCurrent c).

(** Calls of the public methods, events of a socket the client created,
    and the expiry of a reconnect timer. *)
Inductive Event :=
  | CallConnect
  | CallDisconnect
  | CallSubscribe (listener : nat)
  | CallUnsubscribe (listener : nat)
  | SockOpened (sock : nat)
  | SockMessage (sock : nat) (parsed : option WsMessage)
  | SockClosed (sock : nat)
  | SockError (sock : nat)
  | TimerFired (timer : nat).

Definition step (c : t) (e : Event) : t * list Effect :=
  match e with
  | CallConnect => connect c
  | CallDisconnect => disconnect c
  | CallSubscribe l => (subscribe l c, [])
  | CallUnsubscribe l => (unsubscribe l c, [])
  | SockOpened _ => onopen c
  | SockMessage _ parsed => onmessage parsed c
  | SockClosed _ => onclose c
  | SockError _ => onerror c
  | TimerFired _ => connect c
  end.

(** The client after a sequence of events, with all effects in order. *)
Fixpoint run (c : t) (es : list Event) : t * list Effect :=
  match es with
  | [] => (c, [])
  | e :: es' =>
      let '(c1, out1) := step c e in
      let '(c2, out2) := run c1 es' in
      (c2, out1 ++ out2)
  end.

Definition isSend (e : Effect) : Prop :=
  match e with
  | EffSocket _ (SockSend _) => True
  | _ => False
  end.

End WsClient.

(** ** Predicates used to state the properties *)

Module Props.
Import Geometry.
Local Open Scope R_scope.

(** A table is non-decreasing when entries at later indices are not smaller. *)
Definition nondecreasing (l : list R) : Prop :=
  forall (i j : nat) (x y : R),
    (i <= j)%nat -> l !! i = Some x -> l !! j = Some y -> x <= y.

(** Consecutive entries of [cum] differ by the length of the segment
    between the corresponding vertices. *)
Definition chained (cosLat : R) (pts : list (R * R)) (cum : list R) : Prop :=
  forall (i : nat) (a b : R * R) (x y : R),
    pts !! i = Some a -> pts !! S i = Some b ->
    cum !! i = Some x -> cum !! S i = Some y ->
    y = x + segDist cosLat a b.

(** The length of the polyline [prev :: rest], segment by segment. *)
Fixpoint pathLength (cosLat : R) (prev : R * R) (rest : list (R * R)) : R :=
  match rest with
  | [] => 0
  | p :: rest' => segDist cosLat prev p + pathLength cosLat p rest'
  end.

(** The length of a polyline in the frame of its first vertex. *)
Definition polylineLength (coords : list (R * R)) : R :=
  match coords with
  | [] => 0
  | p0 :: rest => pathLength (cos (p0.1 * DEG2RAD)) p0 rest
  end.

(** The shape of every geometry returned by [buildRouteGeometry]. *)
Record built (geom : RouteGeometry) : Prop := mkBuilt {
  built_nonempty : (1 <= length (points geom))%nat;
  built_length : length (cumDist geom) = length (points geom);
  built_first : cumDist geom !! 0%nat = Some 0;
  built_mono : nondecreasing (cumDist geom);
  built_last : last (cumDist geom) = Some (totalDist geom);
  built_chain : forall p0, points geom !! 0%nat = Some p0 ->
      chained (cos (p0.1 * DEG2RAD)) (points geom) (cumDist geom);
}.

(** [d] is the shortest angular difference of [a] and [b]: the least
    distance of [a - b] to a multiple of 360. *)
Definition shortest_angle (a b d : R) : Prop :=
  (exists k : Z, d = Rabs (a - b + 360 * IZR k)) /\
  (forall k : Z, d <= Rabs (a - b + 360 * IZR k)).

(** The vehicle of a frame that is written last under key [k]. *)
Definition latest (k : string) (vs : list Data.VehicleData)
    : option Data.VehicleData :=
  last (filter (fun v => Data.v_id v = k) vs).

(** The loop of [updateVehicles] on the map alone. *)
Definition setAll (vs : list Data.VehicleData) (m : jsmap Data.VehicleData)
    : jsmap Data.VehicleData :=
  foldl (fun m v => JsMap.set (Data.v_id v) v m) m vs.

(** A vehicle is fresh at [now] when its timestamp parses to a date at
    most [SNAPSHOT_MAX_AGE_MS] before [now]. *)
Definition fresh_vehicle (Date_parse : string -> option Z) (now : Z)
    (v : Data.VehicleData) : Prop :=
  exists (s : string) (parsed : Z),
    Data.v_timestamp v = Some s /\ Date_parse s = Some parsed /\
    (now - parsed <= 20000)%Z.

(** A frame is fresh when it has a vehicle and all its vehicles are fresh. *)
Definition fresh_frame (Date_parse : string -> option Z) (now : Z)
    (msg : Data.WsMessage) : Prop :=
  Data.msg_vehicles msg <> [] /\
  Forall (fresh_vehicle Date_parse now) (Data.msg_vehicles msg).

(** An [update] frame has arrived on the current connection: one occurs
    in the history and no disconnect follows it. *)
Definition live_update (es : list Main.Event) : Prop :=
  exists pre now u post,
    es = pre ++ Main.EvFrame now u :: post /\
    Data.msg_type u = Data.Update /\
    Main.EvStatus false ∉ post.

(** Every geometry of the index came out of [buildRouteGeometry]. *)
Definition geoms_built (l : VehicleLayer.t) : Prop :=
  forall (rid : Z) (g : RouteGeometry),
    VehicleLayer.routeGeometries l !! rid = Some g -> built g.

(** Every tracked vehicle has its marker on the layer group, the marker
    was allocated before [nextMarker], and no two vehicles share one. *)
Definition markers_wf (l : VehicleLayer.t) : Prop :=
  (forall k tv, VehicleLayer.tracked l !! k = Some tv ->
     VehicleLayer.marker_id (VehicleLayer.marker tv) ∈ VehicleLayer.layerGroup l /\
     (VehicleLayer.marker_id (VehicleLayer.marker tv) < VehicleLayer.nextMarker l)%nat) /\
  (forall k1 k2 tv1 tv2,
     VehicleLayer.tracked l !! k1 = Some tv1 ->
     VehicleLayer.tracked l !! k2 = Some tv2 ->
     VehicleLayer.marker_id (VehicleLayer.marker tv1)
       = VehicleLayer.marker_id (VehicleLayer.marker tv2) ->
     k1 = k2).

Definition layer_wf (l : VehicleLayer.t) : Prop := geoms_built l /\ markers_wf l.

(** An effect other than a [send] on a socket. *)
Definition quiet (e : WsClient.Effect) : Prop :=
  match e with
  | WsClient.EffSocket _ (WsClient.SockSend _) => False
  | _ => True
  end.

End Props.

(** ** Sample data *)

Module Samples.
Import Data.

(** A parser that knows one date. *)
Definition sampleParse (s : string) : option Z :=
  if decide (s = "2024-01-01T00:00:00Z"%string) then Some 1704067200000%Z
  else None.

Definition sampleVehicle : VehicleData :=
  {| v_id := "tram-1"; v_board_num := "101"; v_route := "15";
     v_route_id := Some 15%Z; v_lat := 0%R; v_lon := 0%R; v_speed := 0%R;
     v_course := 0%R; v_prev_stop := None; v_next_stops := [];
     v_progress := None; v_timestamp := Some "2024-01-01T00:00:00Z"%string;
     v_signal_lost := false |}.

Definition samplePolyline : list (R * R) := [(0, 0); (0, 1); (1, 1)]%R.

End Samples.

(** ** Route geometry in rounded arithmetic ([vehicle-layer.ts])

    The same two functions with the rounding of doubles made explicit:
    every arithmetic result passes through [rnd], the rounding of a real
    number to a double; comparisons, [Math.max] and [Math.min] are exact.
    [Math.sqrt] is correctly rounded, [Math_cos] is the cosine of the
    platform.  Overflow, NaN and the sign of zero are left out. *)

Module Rounded.
Import Geometry.
Local Open Scope R_scope.

Section rounded.
Variable rnd : R -> R.
Variable Math_cos : R -> R.

(** [Math.PI / 180]. *)
Definition DEG2RAD : R := rnd (rnd PI / 180).

Definition segDist (cosLat : R) (a b : R * R) : R :=
  let dlat := rnd (rnd (b.1 - a.1) * M_PER_DEG_LAT) in
  let dlon := rnd (rnd (rnd (b.2 - a.2) * M_PER_DEG_LAT) * cosLat) in
  rnd (sqrt (rnd (rnd (dlat * dlat) + rnd (dlon * dlon)))).

Fixpoint cumLoop (cosLat : R) (prev : R * R) (rest : list (R * R))
    (total : R) (acc : list R) : list R * R :=
  match rest with
  | [] => (acc, total)
  | p :: rest' =>
      let total' := rnd (total + segDist cosLat prev p) in
      cumLoop cosLat p rest' total' (acc ++ [total'])
  end.

Definition buildRouteGeometry (coords : list (R * R)) : option RouteGeometry :=
  let pts := map (fun c => (c.1, c.2)) coords in
  match pts with
  | [] => None
  | p0 :: rest =>
      let cosLat := Math_cos (rnd (p0.1 * DEG2RAD)) in
      let '(cum, total) := cumLoop cosLat p0 rest 0 [0] in
      Some {| points := pts; cumDist := cum; totalDist := total |}
  end.

(** [a + (b - a) * t], the interpolation of one coordinate. *)
Definition lerp (a b t : R) : R := rnd (a + rnd (rnd (b - a) * t)).

Definition pointAtProgress (geom : RouteGeometry) (progress : R)
    : option (R * R) :=
  let p := JsNum.clamp01 progress in
  let targetDist := rnd (p * totalDist geom) in
  let '(lo, hi) :=
    bsearch (cumDist geom) targetDist 0 (js_length (cumDist geom) - 1) in
  match js_get (cumDist geom) lo, js_get (cumDist geom) hi,
        js_get (points geom) lo, js_get (points geom) hi with
  | Some segStart, Some segEnd, Some plo, Some phi =>
      let segLen := rnd (segEnd - segStart) in
      let t := if Rlt_dec 0 segLen
               then rnd (rnd (targetDist - segStart) / segLen)
               else 0 in
      Some (lerp plo.1 phi.1 t, lerp plo.2 phi.2 t)
  | _, _, _, _ => None
  end.

End rounded.

(** What the properties use of the rounding to the nearest double: zero
    and one are doubles, rounding keeps the order, a rounded number is a
    double, and two different doubles have a difference that does not
    round to zero (the subnormal numbers see to that). *)
Record rounding (rnd : R -> R) : Prop := mkRounding {
  rnd_0 : rnd 0 = 0;
  rnd_1 : rnd 1 = 1;
  rnd_mono : forall x y, x <= y -> rnd x <= rnd y;
  rnd_idem : forall x, rnd (rnd x) = rnd x;
  rnd_sub : forall x y, rnd x = x -> rnd y = y -> rnd (x - y) = 0 -> x = y;
}.

(** A number that rounding leaves as it is, and a vertex of two such. *)
Definition is_double (rnd : R -> R) (x : R) : Prop := rnd x = x.
Definition is_vertex (rnd : R -> R) (p : R * R) : Prop :=
  is_double rnd p.1 /\ is_double rnd p.2.

(** The shape of every table returned by [buildRouteGeometry]: at least
    two vertices, one entry per vertex, first entry 0, entries in
    non-decreasing order, last entry [totalDist], all numbers doubles. *)
Record table (rnd : R -> R) (geom : RouteGeometry) : Prop := mkTable {
  table_two : (2 <= length (points geom))%nat;
  table_length : length (cumDist geom) = length (points geom);
  table_first : cumDist geom !! 0%nat = Some 0;
  table_mono : Props.nondecreasing (cumDist geom);
  table_last : last (cumDist geom) = Some (totalDist geom);
  table_doubles : Forall (is_double rnd) (cumDist geom);
  table_vertices : Forall (is_vertex rnd) (points geom);
}.

End Rounded.

(** ** Route geometry on binary64 floats ([vehicle-layer.ts])

    The same two functions on the floats of the kernel, whose operations
    are those of IEEE 754 binary64, as in the browser.  [Math.cos] is not
    one of them and is a parameter. *)

Module Doubles.
Import Floats.
Local Open Scope float_scope.
Set Warnings "-inexact-float".

Definition Math_PI : float := 0x1.921fb54442d18p+1.
Definition DEG2RAD : float := Math_PI / 180.
Definition M_PER_DEG_LAT : float := 111320.

(** [Math.max] and [Math.min]: NaN if an argument is NaN, and -0 is
    below +0. *)
Definition Math_max (a b : float) : float :=
  if is_nan a || is_nan b then nan
  else if a <? b then b
  else if b <? a then a
  else if is_zero a && get_sign a then b else a.

Definition Math_min (a b : float) : float :=
  if is_nan a || is_nan b then nan
  else if a <? b then a
  else if b <? a then b
  else if is_zero a && get_sign a then a else b.

Record RouteGeometry := mkRouteGeometry {
  points : list (float * float);   (* [lat, lon] *)
  cumDist : list float;
  totalDist : float;
}.

Definition segDist (cosLat : float) (a b : float * float) : float :=
  let dlat := (b.1 - a.1) * M_PER_DEG_LAT in
  let dlon := (b.2 - a.2) * M_PER_DEG_LAT * cosLat in
  sqrt (dlat * dlat + dlon * dlon).

Fixpoint cumLoop (cosLat : float) (prev : float * float)
    (rest : list (float * float)) (total : float) (acc : list float)
    : list float * float :=
  match rest with
  | [] => (acc, total)
  | p :: rest' =>
      let total' := total + segDist cosLat prev p in
      cumLoop cosLat p rest' total' (acc ++ [total'])
  end.

Definition buildRouteGeometry (Math_cos : float -> float)
    (coords : list (float * float)) : option RouteGeometry :=
  let pts := map (fun c => (c.1, c.2)) coords in
  match pts with
  | [] => None
  | p0 :: rest =>
      let cosLat := Math_cos (p0.1 * DEG2RAD) in
      let '(cum, total) := cumLoop cosLat p0 rest 0 [0] in
      Some {| points := pts; cumDist := cum; totalDist := total |}
  end.

(** [undefined <= x] is false. *)
Definition le_undef (a : option float) (x : float) : bool :=
  match a with
  | Some v => v <=? x
  | None => false
  end.

Equations? bsearch (cum : list float) (target : float) (lo hi : Z) : Z * Z
    by wf (Z.to_nat (hi - lo)) lt :=
  bsearch cum target lo hi with Z_lt_dec lo (hi - 1) => {
    | left _ =>
        if le_undef (js_get cum (Z.shiftr (lo + hi) 1)) target
        then bsearch cum target (Z.shiftr (lo + hi) 1) hi
        else bsearch cum target lo (Z.shiftr (lo + hi) 1);
    | right _ => (lo, hi) }.
Proof.
  all: rewrite Z.shiftr_div_pow2 by lia; change (2 ^ 1)%Z with 2%Z.
  all: pose proof (Z.div_mod (lo + hi) 2 ltac:(lia));
       pose proof (Z.mod_pos_bound (lo + hi) 2 ltac:(lia)); lia.
Qed.

Definition pointAtProgress (geom : RouteGeometry) (progress : float)
    : option (float * float) :=
  let p := Math_max 0 (Math_min 1 progress) in
  let targetDist := p * totalDist geom in
  let '(lo, hi) :=
    bsearch (cumDist geom) targetDist 0 (js_length (cumDist geom) - 1) in
  match js_get (cumDist geom) lo, js_get (cumDist geom) hi,
        js_get (points geom) lo, js_get (points geom) hi with
  | Some segStart, Some segEnd, Some plo, Some phi =>
      let segLen := segEnd - segStart in
      let t := if 0 <? segLen then (targetDist - segStart) / segLen else 0 in
      Some (plo.1 + (phi.1 - plo.1) * t, plo.2 + (phi.2 - plo.2) * t)
  | _, _, _, _ => None
  end.





End Doubles.

(** ** The animation loop ([map/vehicle-layer.ts], [interpolateAll]) *)

Module Animation.
Import Data Geometry VehicleLayer.
Local Open Scope R_scope.

Definition INTERP_DURATION : R := 1200.       (* ms *)
Definition MAX_EXTRAP_MS : R := 12000.        (* ms *)
Definition MAX_ROUTE_EXTRAP_METERS : R := 140.
Definition MIN_MOVING_SPEED_KMH : R := 3.

(** Interpolate between two angles via the shortest arc. *)
Definition lerpDiff (from to : R) : R :=
  JsNum.rem (JsNum.rem (to - from) 360 + 540) 360 - 180.

Definition lerpAngle (from to t : R) : R :=
  JsNum.rem (from + lerpDiff from to * t + 360) 360.

Definition easeOutQuad (t : R) : R := t * (2 - t).

(** [Math.max(0, now - tv.updateTime)]. *)
Definition elapsedOf (now : R) (tv : TrackedVehicle) : R :=
  Rmax 0 (now - updateTime tv).

(** [easeOutQuad(Math.min(1, elapsed / INTERP_DURATION))]. *)
Definition easedOf (elapsed : R) : R :=
  easeOutQuad (Rmin 1 (elapsed / INTERP_DURATION)).

Definition canExtrapolate (elapsed : R) (tv : TrackedVehicle) : bool :=
  targetHasServerProgress tv && negb (signalLost tv) &&
  bool_decide (MIN_MOVING_SPEED_KMH <= targetSpeed tv) &&
  bool_decide (INTERP_DURATION < elapsed).

(** The progress gained by extrapolation, as a fraction of the route. *)
Definition extrapProgress (geom : RouteGeometry) (elapsed : R)
    (tv : TrackedVehicle) : R :=
  let extraMs := Rmin (elapsed - INTERP_DURATION) MAX_EXTRAP_MS in
  let bySpeedMeters := (targetSpeed tv / 3.6) * (extraMs / 1000) in
  let extrapMeters := Rmin bySpeedMeters MAX_ROUTE_EXTRAP_METERS in
  if Rlt_dec 0 (totalDist geom) then extrapMeters / totalDist geom else 0.

(** The progress at which a routed vehicle is drawn, before the lookup. *)
Definition routedProgress (geom : RouteGeometry) (elapsed : R)
    (prev target : R) (travelDir : Z) (tv : TrackedVehicle) : R :=
  let progress :=
    if canExtrapolate elapsed tv
    then target + extrapProgress geom elapsed tv * IZR travelDir
    else prev + (target - prev) * easedOf elapsed in
  Rmax 0 (Rmin 1 progress).

(** [lat], [lon], [course] and the new [currentProgress] of one vehicle. *)
Definition framePose (now : R) (geom : option RouteGeometry)
    (tv : TrackedVehicle) : option (R * R * R * option R) :=
  let elapsed := elapsedOf now tv in
  match geom, prevProgress tv, targetProgress tv with
  | Some g, Some prev, Some target =>
      travelDir ← inferTravelDir g prev target (targetCourse tv);
      let progress := routedProgress g elapsed prev target travelDir tv in
      pos ← pointAtProgress g progress;
      course ← bearingAtProgress g progress;
      let course' :=
        if bool_decide (travelDir < 0)%Z then JsNum.rem (course + 180) 360
        else course in
      Some (pos.1, pos.2, course', Some progress)
  | _, _, _ =>
      let easedT := easedOf elapsed in
      Some (prevLat tv + (targetLat tv - prevLat tv) * easedT,
            prevLon tv + (targetLon tv - prevLon tv) * easedT,
            lerpAngle (prevCourse tv) (targetCourse tv) easedT,
            targetProgress tv)
  end.

(** The writes at the end of the loop body: the marker and the rendered
    fields move only when the change is visible. *)
Definition applyPose (lat lon course : R) (progress : option R)
    (tv : TrackedVehicle) : TrackedVehicle :=
  let tv1 := setCurrent (currentLat tv) (currentLon tv) (currentCourse tv)
                        progress tv in
  let tv2 :=
    if bool_decide (0.0000005 < Rabs (lat - currentLat tv1) \/
                    0.0000005 < Rabs (lon - currentLon tv1))
    then setCurrent lat lon (currentCourse tv1) (currentProgress tv1)
           (setMarker (setLatLng (lat, lon) (marker tv1)) tv1)
    else tv1 in
  if bool_decide (0.3 < Rabs (course - currentCourse tv2))
  then setCurrent (currentLat tv2) (currentLon tv2) course (currentProgress tv2)
         (setMarker (updateHeading course (marker tv2)) tv2)
  else tv2.

(** One iteration of [for (const [, tv] of this.tracked)]. *)
Definition interpolateOne (now : R) (geoms : gmap Z RouteGeometry)
    (tv : TrackedVehicle) : option TrackedVehicle :=
  let geom := rid ← routeId tv; geoms !! rid in
  '(lat, lon, course, progress) ← framePose now geom tv;
  Some (applyPose lat lon course progress tv).

(** Runs every animation frame; [None] when an iteration throws. *)
Definition interpolateAll (now : R) (l : t) : option t :=
  let frames : gmap string (option TrackedVehicle) :=
    interpolateOne now (routeGeometries l) <$> tracked l in
  if decide (map_Forall (fun _ o => is_Some o) frames)
  then Some {| tracked := omap (fun o => o) frames; layerGroup := layerGroup l;
               routeGeometries := routeGeometries l;
               nextMarker := nextMarker l |}
  else None.

End Animation.

(** ** More predicates and sample data *)

Module MoreProps.
Import Data Geometry VehicleLayer.

(** What a frame leaves untouched in a tracked vehicle. *)
Definition same_targets (tv tv' : TrackedVehicle) : Prop :=
  marker_id (marker tv') = marker_id (marker tv) /\
  route tv' = route tv /\ routeId tv' = routeId tv /\
  signalLost tv' = signalLost tv /\
  prevProgress tv' = prevProgress tv /\ targetProgress tv' = targetProgress tv /\
  prevLat tv' = prevLat tv /\ prevLon tv' = prevLon tv /\
  prevCourse tv' = prevCourse tv /\
  targetLat tv' = targetLat tv /\ targetLon tv' = targetLon tv /\
  targetCourse tv' = targetCourse tv /\ targetSpeed tv' = targetSpeed tv /\
  targetHasServerProgress tv' = targetHasServerProgress tv /\
  updateTime tv' = updateTime tv /\
  icon (marker tv') = icon (marker tv) /\ popup (marker tv') = popup (marker tv).

(** The tracked entry carries the data of the vehicle [v] received at
    [now]. *)
Definition carries (now : R) (v : VehicleData) (tv : TrackedVehicle) : Prop :=
  targetLat tv = v_lat v /\ targetLon tv = v_lon v /\
  targetCourse tv = v_course v /\ targetSpeed tv = v_speed v /\
  routeId tv = v_route_id v /\ route tv = v_route v /\
  signalLost tv = v_signal_lost v /\ updateTime tv = now /\
  targetHasServerProgress tv = bool_decide (is_Some (v_progress v)) /\
  popup (marker tv) = v.

(** The marker agrees with the entry: the position and the heading last
    written to it are the rendered ones, and the icon last set is the
    icon of the entry's route and signal state. *)
Definition marker_ok (tv : TrackedVehicle) : Prop :=
  latlng (marker tv) = (currentLat tv, currentLon tv) /\
  heading (marker tv) = currentCourse tv /\
  icon (marker tv) = createIcon (route tv) (signalLost tv).

Definition tracked_ok (l : t) : Prop :=
  forall k tv, tracked l !! k = Some tv -> marker_ok tv.

(** A route of the list whose geometry [loadRoutes] indexes. *)
Definition usable (r : RouteInfo) (coords : list (R * R)) : Prop :=
  r_geometry r = Some coords /\ (2 <= length coords)%nat.

(** Where a vehicle is put without animation: on its route when there is
    a geometry and a progress, at its raw fix otherwise. *)
Definition snapPosition (geom : option RouteGeometry) (v : VehicleData)
    : option (R * R * R) :=
  match geom, v_progress v with
  | Some g, Some pr => routedPosition (Some g) v pr
  | _, _ => Some (v_lat v, v_lon v, v_course v)
  end.

(** The two conditions under which [update] teleports a tracked vehicle:
    its route changed, or its progress jumped by more than
    [MAX_ANIM_PROGRESS_DELTA]. *)
Definition teleports (v : VehicleData) (tv : TrackedVehicle) : bool :=
  bool_decide (routeId tv <> v_route_id v) ||
  match currentProgress tv, v_progress v with
  | Some pp, Some pr => bool_decide (MAX_ANIM_PROGRESS_DELTA < Rabs (pr - pp))%R
  | _, _ => false
  end.

(** Previous and rendered state and the marker are all at one pose. *)
Definition at_rest (lat lon course : R) (progress : option R)
    (tv : TrackedVehicle) : Prop :=
  prevLat tv = lat /\ prevLon tv = lon /\ prevCourse tv = course /\
  prevProgress tv = progress /\
  currentLat tv = lat /\ currentLon tv = lon /\ currentCourse tv = course /\
  currentProgress tv = progress /\
  latlng (marker tv) = (lat, lon) /\ heading (marker tv) = course.

(** A vehicle tracked on route 15, a quarter of the way along at the
    last update and reported half way along. *)
Definition sampleTracked (lost : bool) : TrackedVehicle :=
  {| marker := {| marker_id := 0; latlng := (0, 0.5)%R;
                  icon := createIcon "15" lost;
                  popup := Samples.sampleVehicle; heading := 90%R |};
     route := "15"; routeId := Some 15%Z; signalLost := lost;
     prevProgress := Some 0.25%R; targetProgress := Some 0.5%R;
     prevLat := 0%R; prevLon := 0.5%R; prevCourse := 90%R;
     targetLat := 0%R; targetLon := 1%R; targetCourse := 90%R;
     targetSpeed := 36%R; targetHasServerProgress := true;
     updateTime := 0%R;
     currentLat := 0%R; currentLon := 0.5%R; currentCourse := 90%R;
     currentProgress := Some 0.25%R |}.

(** A layer that tracks [sampleTracked false] as "tram-1" and knows the
    geometry [g] of route 15. *)
Definition sampleLayer (g : RouteGeometry) : t :=
  {| tracked := {["tram-1"%string := sampleTracked false]};
     layerGroup := {[0%nat]};
     routeGeometries := {[15%Z := g]};
     nextMarker := 1 |}.

End MoreProps.

(** ** The vehicle layer as its callers drive it *)

Module LayerCalls.
Import Data VehicleLayer Animation.

(** What happens to a [VehicleLayer] after its construction: the calls
    of [loadRoutes], [update] and [clear], and the animation frames. *)
Inductive Call :=
  | CallLoadRoutes (rs : list RouteInfo)
  | CallUpdate (now : R) (vs : list VehicleData)
  | CallFrame (now : R)
  | CallClear.

Definition call (c : Call) (l : t) : option t :=
  match c with
  | CallLoadRoutes rs => loadRoutes rs l
  | CallUpdate now vs => update now vs l
  | CallFrame now => interpolateAll now l
  | CallClear => Some (clear l)
  end.

Fixpoint calls (cs : list Call) (l : t) : option t :=
  match cs with
  | [] => Some l
  | c :: cs' => l' ← call c l; calls cs' l'
  end.

End LayerCalls.

(** ** The store as its callers drive it ([services/state.ts]) *)

Module StoreCalls.
Import Data State.

(** The public methods of [Store] that change it. *)
Inductive Call :=
  | CallSetConnected (connected : bool)
  | CallUpdateVehicles (vs : list VehicleData)
  | CallSetRoutes (rs : list RouteInfo)
  | CallSetStops (ss : list StopInfo)
  | CallToggleRoute (routeNum : string)
  | CallEnableAllRoutes
  | CallDisableAllRoutes
  | CallSelectStop (stopId : option Z).

Definition call (s : Store) (c : Call) : Store :=
  match c with
  | CallSetConnected connected => setConnected connected s
  | CallUpdateVehicles vs => updateVehicles vs s
  | CallSetRoutes rs => setRoutes rs s
  | CallSetStops ss => setStops ss s
  | CallToggleRoute routeNum => toggleRoute routeNum s
  | CallEnableAllRoutes => enableAllRoutes s
  | CallDisableAllRoutes => disableAllRoutes s
  | CallSelectStop stopId => selectStop stopId s
  end.

Definition calls (s : Store) (cs : list Call) : Store := foldl call s cs.

(** Every entry of the vehicle map sits under the id of its vehicle, and
    no key occurs twice. *)
Definition vehicles_ok (m : jsmap VehicleData) : Prop :=
  NoDup (JsMap.keys m) /\ Forall (fun kv => v_id kv.2 = kv.1) m.

(** The vehicle stored under [k] passes the route filter. *)
Definition visible (s : Store) (v : VehicleData) : Prop :=
  enabledRoutes (state s) = ∅ \/ v_route v ∈ enabledRoutes (state s).

End StoreCalls.

(** ** More predicates on the WebSocket client *)

Module WsProps.
Import Data WsClient.


(** The URLs of the sockets created by a list of effects, with the
    identities of the sockets. *)
Fixpoint opened (out : list Effect) : list (nat * string) :=
  match out with
  | [] => []
  | EffSocket s (SockNew u) :: out' => (s, u) :: opened out'
  | _ :: out' => opened out'
  end.




End WsProps.

(** ** Route lines ([map/route-layer.ts]) *)

Module RouteLayer.
Import Data.

(** An [L.polyline]: [poly_id] is the identity of the object; the
    tooltip is kept as the route number it is rendered from.  The fixed
    options (weight, opacity, smooth factor) are left out. *)
Record Polyline := mkPolyline {
  poly_id : nat;
  poly_latlngs : list (R * R);
  poly_color : option string;
  poly_tooltip : string;
}.

Record t := mkRouteLayer {
  polylines : gmap Z Polyline;
  layerGroup : gset nat;
  nextPolyline : nat;
}.

Definition new : t :=
  {| polylines := ∅; layerGroup := ∅; nextPolyline := 0 |}.

(** One iteration of the loop of [loadRoutes]. *)
Definition loadOne (l : t) (route : RouteInfo) : t :=
  match r_geometry route with
  | None => l
  | Some g =>
      if bool_decide (length g < 2)%nat then l
      else
        let polyline :=
          {| poly_id := nextPolyline l;
             poly_latlngs := map (fun p => (p.1, p.2)) g;
             poly_color := Colors.routeColor (r_number route);
             poly_tooltip := r_number route |} in
        {| polylines := <[r_id route := polyline]> (polylines l);
           layerGroup := {[nextPolyline l]} ∪ layerGroup l;
           nextPolyline := S (nextPolyline l) |}
  end.

Definition loadRoutes (routes : list RouteInfo) (l : t) : t :=
  foldl loadOne
        {| polylines := ∅; layerGroup := ∅; nextPolyline := nextPolyline l |}
        routes.

Definition withLayerGroup (g : gset nat) (l : t) : t :=
  {| polylines := polylines l; layerGroup := g; nextPolyline := nextPolyline l |}.

(** One iteration of the loop of [setVisibility]. *)
Definition showOne (enabledRoutes : gset string) (l : t) (route : RouteInfo) : t :=
  match polylines l !! r_id route with
  | None => l
  | Some polyline =>
      if decide (r_number route ∈ enabledRoutes)
      then if decide (poly_id polyline ∈ layerGroup l) then l
           else withLayerGroup ({[poly_id polyline]} ∪ layerGroup l) l
      else if decide (poly_id polyline ∈ layerGroup l)
           then withLayerGroup (layerGroup l ∖ {[poly_id polyline]}) l
           else l
  end.

(** Show/hide routes based on the enabled set of route numbers. *)
Definition setVisibility (routes : list RouteInfo) (enabledRoutes : gset string)
    (l : t) : t :=
  foldl (showOne enabledRoutes) l routes.

(** No two route ids share a polyline object. *)
Definition polylines_wf (l : t) : Prop :=
  forall k1 k2 p1 p2,
    polylines l !! k1 = Some p1 -> polylines l !! k2 = Some p2 ->
    poly_id p1 = poly_id p2 -> k1 = k2.

(** What the loop of [loadRoutes] has built after the routes [rs]. *)
Record loaded (rs : list RouteInfo) (l : t) : Prop := mkLoaded {
  loaded_from : forall rid p, polylines l !! rid = Some p ->
    poly_id p ∈ layerGroup l /\
    exists r coords, r ∈ rs /\ r_id r = rid /\ MoreProps.usable r coords /\
      poly_latlngs p = coords /\
      poly_color p = Colors.routeColor (r_number r) /\
      poly_tooltip p = r_number r;
  loaded_all : forall r coords, r ∈ rs -> MoreProps.usable r coords ->
    is_Some (polylines l !! r_id r);
  loaded_wf : polylines_wf l;
  loaded_below : forall i, i ∈ layerGroup l -> (i < nextPolyline l)%nat;
  loaded_exact : NoDup (r_id <$> rs) -> forall i, i ∈ layerGroup l ->
    exists rid p, polylines l !! rid = Some p /\ poly_id p = i;
}.

Definition sampleRoute : RouteInfo :=
  {| r_id := 15; r_number := "15"; r_name := "Route 15"; r_color := "#000075";
     r_stop_ids := [1; 2]%Z; r_geometry := Some Samples.samplePolyline |}.

End RouteLayer.

(** ** Stop markers ([map/stop-layer.ts]) *)

Module StopLayer.
Import Data State.
Local Open Scope R_scope.

(** The path options of a circle marker that the layer sets. *)
Record Style := mkStyle {
  radius : R;
  fillColor : string;
  fillOpacity : R;
  color : string;
  weight : R;
}.

(** The tooltip and the click handler are left out. *)
Record CircleMarker := mkCircleMarker {
  cm_id : nat;
  cm_latlng : R * R;
  cm_style : Style;
}.

(** [m.setStyle({...})] with the given options, the others are kept. *)
Definition setStyle (radius' : option R) (fillColor' : option string)
    (fillOpacity' : option R) (weight' : option R) (m : CircleMarker)
    : CircleMarker :=
  let st := cm_style m in
  {| cm_id := cm_id m; cm_latlng := cm_latlng m;
     cm_style :=
       {| radius := default (radius st) radius';
          fillColor := default (fillColor st) fillColor';
          fillOpacity := default (fillOpacity st) fillOpacity';
          color := color st;
          weight := default (weight st) weight' |} |}.

(** [front] is the marker last brought to the front. *)
Record t := mkStopLayer {
  markers : gmap Z CircleMarker;
  layerGroup : gset nat;
  nextMarker : nat;
  front : option nat;
}.

Definition new : t :=
  {| markers := ∅; layerGroup := ∅; nextMarker := 0; front := None |}.

Definition loadOne (l : t) (stop : StopInfo) : t :=
  let marker :=
    {| cm_id := nextMarker l; cm_latlng := (s_lat stop, s_lon stop);
       cm_style := {| radius := 4; fillColor := "#60a5fa"; fillOpacity := 0.9;
                      color := "white"; weight := 1.2 |} |} in
  {| markers := <[s_id stop := marker]> (markers l);
     layerGroup := {[nextMarker l]} ∪ layerGroup l;
     nextMarker := S (nextMarker l); front := front l |}.

Definition loadStops (stops : list StopInfo) (l : t) : t :=
  foldl loadOne
        {| markers := ∅; layerGroup := ∅; nextMarker := nextMarker l;
           front := front l |}
        stops.

(** Dim stops not in the active set. Pass null to show all normally. *)
Definition setDimming (activeStopIds : option (gset Z)) (l : t) : t :=
  {| markers :=
       map_imap (fun id m =>
         Some (if match activeStopIds with
                  | None => true
                  | Some a => bool_decide (id ∈ a)
                  end
               then setStyle (Some 4) (Some "#60a5fa"%string) (Some 0.9) None m
               else setStyle (Some 3) (Some "#94a3b8"%string) (Some 0.15) None m))
         (markers l);
     layerGroup := layerGroup l; nextMarker := nextMarker l; front := front l |}.

Definition highlightStop (stopId : Z) (l : t) : t :=
  (* Reset all to default (dimming will be re-applied by caller) *)
  let reset := setStyle (Some 4) (Some "#60a5fa"%string) None (Some 1.5)
                 <$> markers l in
  match reset !! stopId with
  | Some selected =>
      {| markers :=
           <[stopId := setStyle (Some 7) (Some "#e94560"%string) (Some 1)
                         (Some 3) selected]> reset;
         layerGroup := layerGroup l; nextMarker := nextMarker l;
         front := Some (cm_id selected) |}
  | None =>
      {| markers := reset; layerGroup := layerGroup l;
         nextMarker := nextMarker l; front := front l |}
  end.

(** The part of the store listener of [main.ts] that styles the stops:
    [selectedStop] is tested for truthiness, so the id 0 counts as no
    selection. *)
Definition renderStops (s : Store) (l : t) : t :=
  let l1 := setDimming (getActiveStopIds s) l in
  match selectedStop (state s) with
  | Some stopId => if decide (stopId = 0%Z) then l1 else highlightStop stopId l1
  | None => l1
  end.

(** The stop passes the dimming of the store. *)
Definition active (s : Store) (id : Z) : bool :=
  match getActiveStopIds s with
  | None => true
  | Some a => bool_decide (id ∈ a)
  end.

Definition sampleStop : StopInfo :=
  {| s_id := 1; s_name := "Depot"; s_lat := 0; s_lon := 0 |}.

End StopLayer.

(** * Part II: properties *)

(** * Properties of the route geometry *)

Module GeometryFacts.
Import Geometry Props Samples.
Local Open Scope R_scope.

Lemma segDist_nonneg c a b : 0 <= segDist c a b.
Proof. unfold segDist. apply sqrt_pos. Qed.

(** Away from the poles a segment of length zero joins equal vertices. *)
Lemma segDist_zero c a b : c <> 0 -> segDist c a b = 0 -> a = b.
Proof.
  unfold segDist, M_PER_DEG_LAT. cbv zeta.
  destruct a as [a1 a2], b as [b1 b2]; simpl. intros Hc H.
  set (u := (b1 - a1) * 111320) in *.
  set (w := (b2 - a2) * 111320 * c) in *.
  pose proof (Rle_0_sqr u) as Hu. pose proof (Rle_0_sqr w) as Hw.
  unfold Rsqr in Hu, Hw.
  apply sqrt_eq_0 in H; [| lra].
  assert (u * u = 0) as Hu0 by lra.
  assert (w * w = 0) as Hw0 by lra.
  assert (u = 0) as Hu1 by (destruct (Rmult_integral _ _ Hu0); done).
  assert (w = 0) as Hw1 by (destruct (Rmult_integral _ _ Hw0); done).
  unfold u in Hu1. unfold w in Hw1.
  assert ((b2 - a2) * 111320 = 0) as H3.
  { destruct (Rmult_integral _ _ Hw1); [done | contradiction]. }
  f_equal; lra.
Qed.

Lemma nondecreasing_singleton x : nondecreasing [x].
Proof.
  intros i j a b _ Hi Hj.
  apply list_lookup_singleton_Some in Hi as [_ <-].
  apply list_lookup_singleton_Some in Hj as [_ <-]. lra.
Qed.

Lemma nondecreasing_snoc l t t' :
  nondecreasing l -> last l = Some t -> t <= t' -> nondecreasing (l ++ [t']).
Proof.
  intros Hl Hlast Hle i j x y Hij Hi Hj.
  rewrite last_lookup in Hlast.
  destruct (decide (j < length l)%nat) as [Hjl | Hjl].
  - rewrite lookup_app_l in Hi by lia. rewrite lookup_app_l in Hj by lia. eauto.
  - assert (j = length l) as ->.
    { apply lookup_lt_Some in Hj. rewrite length_app in Hj. simpl in Hj. lia. }
    rewrite list_lookup_middle in Hj by done. injection Hj as <-.
    destruct (decide (i < length l)%nat) as [Hil | Hil].
    + rewrite lookup_app_l in Hi by lia.
      assert (x <= t); [| lra].
      apply (Hl i (pred (length l)) x t); [lia | done | done].
    + assert (i = length l) as -> by lia.
      rewrite list_lookup_middle in Hi by done. injection Hi as <-. lra.
Qed.

Lemma chained_snoc c pre acc prev p total :
  chained c pre acc -> length acc = length pre ->
  last pre = Some prev -> last acc = Some total ->
  chained c (pre ++ [p]) (acc ++ [total + segDist c prev p]).
Proof.
  intros Hch Hlen Hpre Hacc i a b x y Ha Hb Hx Hy.
  rewrite last_lookup in Hpre. rewrite last_lookup in Hacc.
  assert (S i < length pre + 1)%nat as Hi.
  { apply lookup_lt_Some in Hb. rewrite length_app in Hb. simpl in Hb. lia. }
  rewrite lookup_app_l in Ha by lia. rewrite lookup_app_l in Hx by lia.
  destruct (decide (S i < length pre)%nat) as [Hlt | Hge].
  - rewrite lookup_app_l in Hb by lia. rewrite lookup_app_l in Hy by lia. eauto.
  - assert (S i = length pre) as Heq by lia.
    rewrite Heq in Hb. rewrite list_lookup_middle in Hb by done.
    rewrite Heq, <- Hlen in Hy. rewrite list_lookup_middle in Hy by done.
    assert (i = pred (length pre)) as -> by lia.
    rewrite Hlen in Hacc.
    congruence.
Qed.

(** The loop of [buildRouteGeometry] extends a well-formed table to a
    well-formed table. *)
Lemma cumLoop_spec c rest : forall pre prev total acc cum tot,
  cumLoop c prev rest total acc = (cum, tot) ->
  nondecreasing acc -> last acc = Some total ->
  last pre = Some prev -> length acc = length pre -> chained c pre acc ->
  nondecreasing cum /\ last cum = Some tot /\
  length cum = length (pre ++ rest) /\
  (exists tl, cum = acc ++ tl) /\ chained c (pre ++ rest) cum.
Proof.
  induction rest as [| p rest IH];
    intros pre prev total acc cum tot Hrun Hmono Hlast Hpre Hlen Hch.
  - simpl in Hrun. injection Hrun as <- <-. rewrite app_nil_r.
    repeat split; [done | done | done | exists []; by rewrite app_nil_r | done].
  - simpl in Hrun.
    pose proof (segDist_nonneg c prev p) as Hseg.
    apply (IH (pre ++ [p])) in Hrun as (Hm & Hl & Hlen' & [tl Htl] & Hch').
    + rewrite <- app_assoc in Hlen', Hch'. simpl in Hlen', Hch'.
      repeat split; [done | done | done | | done].
      exists ((total + segDist c prev p) :: tl). by rewrite Htl, <- app_assoc.
    + eapply nondecreasing_snoc; [done | done | lra].
    + by rewrite last_snoc.
    + by rewrite last_snoc.
    + rewrite !length_app. simpl. lia.
    + by apply chained_snoc.
Qed.

Lemma map_pair_id (coords : list (R * R)) :
  map (fun c : R * R => (c.1, c.2)) coords = coords.
Proof. induction coords as [| [a b] l IH]; simpl; [done | by rewrite IH]. Qed.

Lemma cumLoop_total c rest : forall prev total acc,
  (cumLoop c prev rest total acc).2 = total + pathLength c prev rest.
Proof.
  induction rest as [| p rest IH]; intros prev total acc; simpl; [lra |].
  rewrite IH. lra.
Qed.

Lemma buildRouteGeometry_total coords geom :
  buildRouteGeometry coords = Some geom ->
  totalDist geom = polylineLength coords.
Proof.
  unfold buildRouteGeometry. rewrite map_pair_id.
  destruct coords as [| p0 rest]; [done |].
  pose proof (cumLoop_total (cos (p0.1 * DEG2RAD)) rest p0 0 [0]) as Htot.
  destruct (cumLoop _ p0 rest 0 [0]) as [cum tot].
  intros [= <-]. simpl in *. lra.
Qed.

Lemma buildRouteGeometry_built coords geom :
  buildRouteGeometry coords = Some geom -> points geom = coords /\ built geom.
Proof.
  unfold buildRouteGeometry. rewrite map_pair_id.
  destruct coords as [| p0 rest]; [done |].
  destruct (cumLoop _ p0 rest 0 [0]) as [cum tot] eqn:Hrun.
  intros [= <-]. simpl.
  apply (cumLoop_spec _ _ [p0]) in Hrun as (Hm & Hl & Hlen & [tl Htl] & Hch);
    [| apply nondecreasing_singleton | done | done | done |].
  - split; [done |].
    constructor; simpl; [lia | done | by rewrite Htl | done | done |].
    intros p [= <-]. done.
  - intros [| i] a b x y Ha Hb Hx Hy; simpl in *; done.
Qed.

Lemma buildRouteGeometry_defined coords :
  coords <> [] -> exists geom, buildRouteGeometry coords = Some geom.
Proof.
  unfold buildRouteGeometry. rewrite map_pair_id.
  destruct coords as [| p0 rest]; [done |]. intros _.
  destruct (cumLoop _ p0 rest 0 [0]) as [cum tot]. eauto.
Qed.

(** C1. For every polyline with at least two points, [buildRouteGeometry]
    returns a geometry whose table [cumDist] starts with 0, is monotone
    non-decreasing, has one entry per polyline vertex, and ends with
    [totalDist], the length of the polyline. *)
Theorem buildRouteGeometry_cumDist (coords : list (R * R)) :
  (2 <= length coords)%nat ->
  exists geom,
    buildRouteGeometry coords = Some geom /\
    points geom = coords /\
    js_get (cumDist geom) 0 = Some 0 /\
    nondecreasing (cumDist geom) /\
    length (cumDist geom) = length coords /\
    js_get (cumDist geom) (js_length (cumDist geom) - 1) = Some (totalDist geom) /\
    totalDist geom = polylineLength coords.
Proof.
  intros Hlen.
  destruct (buildRouteGeometry_defined coords) as [geom Hg].
  { intros ->. simpl in Hlen. lia. }
  exists geom. split; [done |].
  pose proof (buildRouteGeometry_total _ _ Hg) as Htot.
  apply buildRouteGeometry_built in Hg as [Hpts [Hne Hl H0 Hm Hlast _]].
  rewrite Hpts in *.
  repeat split; try done.
  unfold js_get, js_length. rewrite decide_True by lia.
  rewrite last_lookup in Hlast.
  replace (Z.to_nat (Z.of_nat (length (cumDist geom)) - 1))
    with (pred (length (cumDist geom))) by lia.
  done.
Qed.

Lemma buildRouteGeometry_cumDist_witness :
  exists geom,
    buildRouteGeometry samplePolyline = Some geom /\
    points geom = samplePolyline /\
    js_get (cumDist geom) 0 = Some 0 /\
    nondecreasing (cumDist geom) /\
    length (cumDist geom) = length samplePolyline /\
    js_get (cumDist geom) (js_length (cumDist geom) - 1) = Some (totalDist geom) /\
    totalDist geom = polylineLength samplePolyline.
Proof. apply (buildRouteGeometry_cumDist samplePolyline). simpl. lia. Defined.

(** *** The lookup [pointAtProgress] *)

Lemma clamp01_range p : 0 <= JsNum.clamp01 p <= 1.
Proof.
  unfold JsNum.clamp01, Rmax, Rmin.
  repeat destruct (Rle_dec _ _); lra.
Qed.

Lemma clamp01_id p : 0 <= p <= 1 -> JsNum.clamp01 p = p.
Proof.
  unfold JsNum.clamp01, Rmax, Rmin.
  repeat destruct (Rle_dec _ _); lra.
Qed.

Lemma clamp01_idem p : JsNum.clamp01 (JsNum.clamp01 p) = JsNum.clamp01 p.
Proof. apply clamp01_id, clamp01_range. Qed.

Lemma clamp01_below p : p <= 0 -> JsNum.clamp01 p = 0.
Proof.
  unfold JsNum.clamp01, Rmax, Rmin.
  repeat destruct (Rle_dec _ _); lra.
Qed.

Lemma clamp01_above p : 1 <= p -> JsNum.clamp01 p = 1.
Proof.
  unfold JsNum.clamp01, Rmax, Rmin.
  repeat destruct (Rle_dec _ _); lra.
Qed.

Lemma js_get_Some {A} (l : list A) (i : Z) (x : A) :
  js_get l i = Some x <-> (0 <= i)%Z /\ l !! Z.to_nat i = Some x.
Proof.
  unfold js_get. destruct (decide (0 <= i)%Z); [tauto |].
  split; [done | tauto].
Qed.

Lemma js_get_in_range {A} (l : list A) (i : Z) :
  (0 <= i < js_length l)%Z -> exists x, js_get l i = Some x.
Proof.
  unfold js_length. intros Hi.
  destruct (lookup_lt_is_Some_2 l (Z.to_nat i)) as [x Hx]; [lia |].
  exists x. apply js_get_Some. split; [lia | done].
Qed.

Lemma le_undef_true cum i target :
  JsNum.le_undef (js_get cum i) target = true ->
  exists x, js_get cum i = Some x /\ x <= target.
Proof.
  unfold JsNum.le_undef. destruct (js_get cum i) as [x |]; [| done].
  destruct (Rle_dec x target); [eauto | done].
Qed.

Lemma le_undef_false cum i x target :
  JsNum.le_undef (js_get cum i) target = false ->
  js_get cum i = Some x -> target < x.
Proof.
  unfold JsNum.le_undef. intros H Hx. rewrite Hx in H.
  destruct (Rle_dec x target); [done | lra].
Qed.

Lemma shiftr1_bounds lo hi :
  (lo < hi - 1 -> lo < Z.shiftr (lo + hi) 1 < hi)%Z.
Proof.
  intros H. rewrite Z.shiftr_div_pow2 by lia. change (2 ^ 1)%Z with 2%Z.
  pose proof (Z.div_mod (lo + hi) 2 ltac:(lia)).
  pose proof (Z.mod_pos_bound (lo + hi) 2 ltac:(lia)). lia.
Qed.

(** The loop keeps [lo <= hi], ends with [hi <= lo + 1], moves [lo] only
    to an entry not above the target and [hi] only to an entry above it. *)
Lemma bsearch_inv cum target lo hi :
  forall lo' hi', bsearch cum target lo hi = (lo', hi') ->
  (lo <= hi)%Z ->
  (lo <= lo' /\ lo' <= hi' /\ hi' <= hi /\ hi' - 1 <= lo' /\
   (lo < hi -> lo' < hi'))%Z /\
  (lo' = lo \/ JsNum.le_undef (js_get cum lo') target = true) /\
  (hi' = hi \/ JsNum.le_undef (js_get cum hi') target = false).
Proof.
  funelim (bsearch cum target lo hi).
  - intros lo' hi' Hrun Hle.
    pose proof (shiftr1_bounds lo hi l) as Hmid.
    destruct (JsNum.le_undef (js_get cum (Z.shiftr (lo + hi) 1)) target) eqn:Hc.
    + match goal with
      | IH : forall _ _, bsearch _ _ (Z.shiftr _ 1) hi = _ -> _ |- _ =>
          destruct (IH _ _ Hrun ltac:(lia)) as ((? & ? & ? & ? & ?) & [-> | ?] & ?)
      end; repeat split; auto; lia.
    + match goal with
      | IH : forall _ _, bsearch _ _ lo (Z.shiftr _ 1) = _ -> _ |- _ =>
          destruct (IH _ _ Hrun ltac:(lia)) as ((? & ? & ? & ? & ?) & ? & [-> | ?])
      end; repeat split; auto; lia.
  - intros lo' hi' [= <- <-] Hle. repeat split; auto; lia.
Qed.

(** What [pointAtProgress] computes on a built geometry: the search ends
    on two in-range indices, and the result interpolates between their
    vertices. *)
Lemma pointAtProgress_built geom p :
  built geom ->
  exists (lo hi : Z) (segStart segEnd : R) (plo phi : R * R),
    let target := JsNum.clamp01 p * totalDist geom in
    let t := if Rlt_dec 0 (segEnd - segStart)
             then (target - segStart) / (segEnd - segStart) else 0 in
    (0 <= lo /\ lo <= hi /\ hi <= js_length (cumDist geom) - 1 /\ hi - 1 <= lo /\
     (2 <= js_length (cumDist geom) -> lo < hi))%Z /\
    (lo = 0%Z \/ segStart <= target) /\
    (hi = (js_length (cumDist geom) - 1)%Z \/ target < segEnd) /\
    js_get (cumDist geom) lo = Some segStart /\
    js_get (cumDist geom) hi = Some segEnd /\
    js_get (points geom) lo = Some plo /\
    js_get (points geom) hi = Some phi /\
    pointAtProgress geom p =
      Some (plo.1 + (phi.1 - plo.1) * t, plo.2 + (phi.2 - plo.2) * t).
Proof.
  intros [Hne Hlen _ _ _ _].
  unfold pointAtProgress.
  set (target := JsNum.clamp01 p * totalDist geom).
  destruct (bsearch (cumDist geom) target 0 (js_length (cumDist geom) - 1))
    as [lo hi] eqn:Hrun.
  assert (1 <= js_length (cumDist geom))%Z as Hn by (unfold js_length; lia).
  apply bsearch_inv in Hrun as ((H1 & H2 & H3 & H4 & H5) & Hlo & Hhi); [| lia].
  destruct (js_get_in_range (cumDist geom) lo) as [segStart Hs]; [lia |].
  destruct (js_get_in_range (cumDist geom) hi) as [segEnd He]; [lia |].
  destruct (js_get_in_range (points geom) lo) as [plo Hpl];
    [unfold js_length in *; lia |].
  destruct (js_get_in_range (points geom) hi) as [phi Hph];
    [unfold js_length in *; lia |].
  exists lo, hi, segStart, segEnd, plo, phi. cbv zeta.
  rewrite Hs, He, Hpl, Hph.
  repeat split; try done; try lia.
  - destruct Hlo as [-> | Hlo]; [by left | right].
    apply le_undef_true in Hlo as (x & Hx & Hle). congruence.
  - destruct Hhi as [-> | Hhi]; [by left | right].
    eapply le_undef_false; done.
Qed.

Lemma pointAtProgress_defined geom p :
  built geom -> exists pt, pointAtProgress geom p = Some pt.
Proof.
  intros Hb.
  destruct (pointAtProgress_built geom p Hb)
    as (lo & hi & s & e & plo & phi & H).
  cbv zeta in H. destruct H as (_ & _ & _ & _ & _ & _ & _ & ->). eauto.
Qed.

(** Only the clamped progress reaches the lookup. *)
Lemma pointAtProgress_clamp geom p :
  pointAtProgress geom p = pointAtProgress geom (JsNum.clamp01 p).
Proof. unfold pointAtProgress. by rewrite clamp01_idem. Qed.

(** C2. For every geometry built from at least two points and every real
    [p], also below 0 and above 1, [pointAtProgress geom p] returns a
    point, and it is the point returned for [max(0, min(1, p))]. *)
Theorem pointAtProgress_clamped (coords : list (R * R)) (geom : RouteGeometry)
    (p : R) :
  (2 <= length coords)%nat ->
  buildRouteGeometry coords = Some geom ->
  exists pt,
    pointAtProgress geom p = Some pt /\
    pointAtProgress geom (Rmax 0 (Rmin 1 p)) = Some pt /\
    (p < 0 -> pointAtProgress geom 0 = Some pt) /\
    (1 < p -> pointAtProgress geom 1 = Some pt).
Proof.
  intros _ Hg. apply buildRouteGeometry_built in Hg as [_ Hb].
  destruct (pointAtProgress_defined geom p Hb) as [pt Hpt].
  exists pt. split; [done |].
  split; [by rewrite pointAtProgress_clamp in Hpt |].
  split; intros Hp; rewrite pointAtProgress_clamp in Hpt.
  - rewrite clamp01_below in Hpt by lra. done.
  - rewrite clamp01_above in Hpt by lra. done.
Qed.

Lemma pointAtProgress_clamped_witness :
  exists geom,
    buildRouteGeometry samplePolyline = Some geom /\
    exists pt,
      pointAtProgress geom 7 = Some pt /\
      pointAtProgress geom (Rmax 0 (Rmin 1 7)) = Some pt /\
      (7 < 0 -> pointAtProgress geom 0 = Some pt) /\
      (1 < 7 -> pointAtProgress geom 1 = Some pt).
Proof.
  eexists. split; [reflexivity |].
  apply (pointAtProgress_clamped samplePolyline _ 7);
    [simpl; lia | reflexivity].
Defined.

(** *** Bearings and the travel direction *)

Lemma rem_nonneg_decomp x y :
  0 <= x -> 0 < y ->
  exists q : Z, JsNum.rem x y = x - y * IZR q /\ 0 <= JsNum.rem x y < y.
Proof.
  intros Hx Hy. unfold JsNum.rem, JsNum.trunc.
  assert (0 <= x / y) as Hq.
  { unfold Rdiv. apply Rmult_le_pos; [done |]. left. by apply Rinv_0_lt_compat. }
  destruct (Rle_dec 0 (x / y)); [| contradiction].
  exists (Int_part (x / y)). split; [done |].
  destruct (base_Int_part (x / y)) as [Hlo Hhi].
  set (k := IZR (Int_part (x / y))) in *.
  assert (x = y * (x / y)) as Hxy by (field; lra).
  split.
  - assert (y * k <= y * (x / y)) by (apply Rmult_le_compat_l; lra). lra.
  - assert (y * (x / y) < y * (k + 1)) by (apply Rmult_lt_compat_l; lra). lra.
Qed.

Lemma rem_nonneg_range x y : 0 <= x -> 0 < y -> 0 <= JsNum.rem x y < y.
Proof.
  intros Hx Hy. by destruct (rem_nonneg_decomp x y Hx Hy) as (_ & _ & ?).
Qed.

(** A remainder in [0, 360) shifted by whole turns is at least as far
    from zero as its distance to the nearer end of the turn. *)
Lemma turn_shift_bound r (m : Z) :
  0 <= r < 360 ->
  (if Rlt_dec 180 r then 360 - r else r) <= Rabs (r + 360 * IZR m).
Proof.
  intros Hr.
  destruct (Z_le_gt_dec 0 m) as [Hm | Hm].
  - apply IZR_le in Hm.
    rewrite Rabs_pos_eq by nra. destruct (Rlt_dec 180 r); nra.
  - assert (m <= -1)%Z as Hm' by lia. apply IZR_le in Hm'.
    rewrite Rabs_left by nra. destruct (Rlt_dec 180 r); nra.
Qed.

(** [absAngleDiffDeg a b] is the distance from [a - b] to the nearest
    multiple of 360: the shortest angular difference. *)
Lemma absAngleDiffDeg_shortest a b :
  shortest_angle a b (absAngleDiffDeg a b).
Proof.
  unfold shortest_angle, absAngleDiffDeg. cbv zeta.
  destruct (rem_nonneg_decomp (Rabs (a - b)) 360 (Rabs_pos _) ltac:(lra))
    as (q & Hrem & Hr).
  set (r := JsNum.rem (Rabs (a - b)) 360) in *.
  destruct (Rcase_abs (a - b)) as [Hneg | Hpos].
  - rewrite (Rabs_left _ Hneg) in Hrem.
    assert (forall k : Z, a - b + 360 * IZR k = - (r + 360 * IZR (q - k))) as Heq.
    { intros k. rewrite minus_IZR. lra. }
    split.
    + destruct (Rlt_dec 180 r).
      * exists (q + 1)%Z. rewrite Heq, Rabs_Ropp.
        replace (q - (q + 1))%Z with (-1)%Z by lia.
        rewrite Rabs_left by lra. lra.
      * exists q. rewrite Heq, Rabs_Ropp, Z.sub_diag.
        rewrite Rabs_pos_eq by lra. lra.
    + intros k. rewrite Heq, Rabs_Ropp. by apply turn_shift_bound.
  - apply Rge_le in Hpos. rewrite (Rabs_pos_eq _ Hpos) in Hrem.
    assert (forall k : Z, a - b + 360 * IZR k = r + 360 * IZR (q + k)) as Heq.
    { intros k. rewrite plus_IZR. lra. }
    split.
    + destruct (Rlt_dec 180 r).
      * exists (- q - 1)%Z. rewrite Heq.
        replace (q + (- q - 1))%Z with (-1)%Z by lia.
        rewrite Rabs_left by lra. lra.
      * exists (- q)%Z. rewrite Heq, Z.add_opp_diag_r.
        rewrite Rabs_pos_eq by lra. lra.
    + intros k. rewrite Heq. by apply turn_shift_bound.
Qed.

(** [absAngleDiffDeg] normalises to [0, 180]. *)
Lemma absAngleDiffDeg_range a b : 0 <= absAngleDiffDeg a b <= 180.
Proof.
  unfold absAngleDiffDeg. cbv zeta.
  pose proof (rem_nonneg_range (Rabs (a - b)) 360 (Rabs_pos _) ltac:(lra)).
  destruct (Rlt_dec 180 _); lra.
Qed.

Lemma bearingAtProgress_defined geom p :
  built geom -> exists b, bearingAtProgress geom p = Some b.
Proof.
  intros Hb. unfold bearingAtProgress. cbv zeta.
  destruct (pointAtProgress_defined geom (Rmax 0 (p - 0.001)) Hb) as [p1 ->].
  destruct (pointAtProgress_defined geom (Rmin 1 (p + 0.001)) Hb) as [p2 ->].
  eauto.
Qed.

(** C5. When the two progress values differ by more than 0.0001 the
    direction is their order: +1 for [targetProgress >= prevProgress], -1
    otherwise.  When they do not, the direction compares the course with
    the bearing of the route at [targetProgress]: with [d] the shortest
    angular difference of the two (the least distance of their difference
    to a multiple of 360, a number in [0, 180], which is what
    [absAngleDiffDeg] returns), the direction is -1 (reverse) exactly when
    [d] exceeds 90, and +1 otherwise. *)
Theorem inferTravelDir_spec (coords : list (R * R)) (geom : RouteGeometry)
    (prevProgress targetProgress targetCourse : R) :
  buildRouteGeometry coords = Some geom ->
  (0.0001 < Rabs (targetProgress - prevProgress) ->
     (targetProgress >= prevProgress ->
        inferTravelDir geom prevProgress targetProgress targetCourse = Some 1%Z) /\
     (targetProgress < prevProgress ->
        inferTravelDir geom prevProgress targetProgress targetCourse
          = Some (-1)%Z)) /\
  (Rabs (targetProgress - prevProgress) <= 0.0001 ->
     exists routeBearing d,
       bearingAtProgress geom targetProgress = Some routeBearing /\
       shortest_angle targetCourse routeBearing d /\
       absAngleDiffDeg targetCourse routeBearing = d /\
       0 <= d <= 180 /\
       (90 < d <->
          inferTravelDir geom prevProgress targetProgress targetCourse
            = Some (-1)%Z) /\
       (d <= 90 <->
          inferTravelDir geom prevProgress targetProgress targetCourse
            = Some 1%Z)).
Proof.
  intros Hg. apply buildRouteGeometry_built in Hg as [_ Hb].
  unfold inferTravelDir. split.
  - intros Hfar. destruct (Rlt_dec _ _); [| contradiction].
    split; intros Hord; destruct (Rge_dec _ _); try done; lra.
  - intros Hnear. destruct (Rlt_dec 0.0001 _); [lra |].
    destruct (bearingAtProgress_defined geom targetProgress Hb) as [b Hbear].
    exists b, (absAngleDiffDeg targetCourse b). rewrite Hbear.
    split; [done |].
    split; [apply absAngleDiffDeg_shortest |].
    split; [done |].
    split; [apply absAngleDiffDeg_range |].
    destruct (Rlt_dec 90 _); split; split; intros H; try done; try lra.
Qed.

Lemma inferTravelDir_spec_witness :
  exists geom,
    buildRouteGeometry samplePolyline = Some geom /\
    (0.0001 < Rabs (0.5 - 0.25) ->
       (0.5 >= 0.25 -> inferTravelDir geom 0.25 0.5 90 = Some 1%Z) /\
       (0.5 < 0.25 -> inferTravelDir geom 0.25 0.5 90 = Some (-1)%Z)) /\
    (Rabs (0.5 - 0.25) <= 0.0001 ->
       exists routeBearing d,
         bearingAtProgress geom 0.5 = Some routeBearing /\
         shortest_angle 90 routeBearing d /\
         absAngleDiffDeg 90 routeBearing = d /\
         0 <= d <= 180 /\
         (90 < d <-> inferTravelDir geom 0.25 0.5 90 = Some (-1)%Z) /\
         (d <= 90 <-> inferTravelDir geom 0.25 0.5 90 = Some 1%Z)).
Proof.
  eexists. split; [reflexivity |].
  apply (inferTravelDir_spec samplePolyline _ 0.25 0.5 90).
  reflexivity.
Defined.

End GeometryFacts.

(** * Properties of the route geometry under rounding *)

Module RoundedFacts.
Import Geometry Rounded Props Samples.
Import GeometryFacts.
Local Open Scope R_scope.

(** Exact arithmetic is the rounding that changes nothing, and with it
    the rounded lookup is the exact one. *)
Lemma exact_rounding : rounding (fun x => x).
Proof. constructor; try done. intros x y _ _ H. lra. Qed.

Lemma pointAtProgress_exact geom p :
  Rounded.pointAtProgress (fun x => x) geom p = Geometry.pointAtProgress geom p.
Proof. reflexivity. Qed.

Section rounded.
Variable rnd : R -> R.
Variable Math_cos : R -> R.
Hypothesis Hrnd : rounding rnd.

Lemma rnd_nonneg x : 0 <= x -> 0 <= rnd x.
Proof. intros Hx. rewrite <- (rnd_0 rnd Hrnd). by apply rnd_mono. Qed.

Lemma segDist_rounded_nonneg c a b : 0 <= Rounded.segDist rnd c a b.
Proof. unfold Rounded.segDist. cbv zeta. apply rnd_nonneg, sqrt_pos. Qed.

(** The loop of [buildRouteGeometry] extends a table of doubles in
    non-decreasing order to such a table. *)
Lemma cumLoop_table c rest : forall prev total acc cum tot,
  Rounded.cumLoop rnd c prev rest total acc = (cum, tot) ->
  nondecreasing acc -> last acc = Some total ->
  Forall (is_double rnd) acc ->
  nondecreasing cum /\ last cum = Some tot /\ Forall (is_double rnd) cum /\
  length cum = (length acc + length rest)%nat /\ (exists tl, cum = acc ++ tl).
Proof.
  induction rest as [| p rest IH];
    intros prev total acc cum tot Hrun Hmono Hlast Hdbl.
  - simpl in Hrun. injection Hrun as <- <-.
    repeat split; [done | done | done | simpl; lia |].
    exists []. by rewrite app_nil_r.
  - simpl in Hrun.
    pose proof (segDist_rounded_nonneg c prev p) as Hseg.
    assert (is_double rnd total) as Htot.
    { rewrite Forall_forall in Hdbl. apply Hdbl.
      rewrite last_lookup in Hlast. by eapply list_elem_of_lookup_2. }
    apply IH in Hrun as (Hm & Hl & Hd & Hlen & [tl Htl]).
    + repeat split; [done | done | done | |].
      * rewrite Hlen, length_app. simpl. lia.
      * eexists. rewrite Htl, <- app_assoc. reflexivity.
    + eapply nondecreasing_snoc; [done | done |].
      rewrite <- Htot at 1. apply rnd_mono; [done | lra].
    + by rewrite last_snoc.
    + apply Forall_app. split; [done |]. constructor; [| done].
      apply rnd_idem, Hrnd.
Qed.

Lemma buildRouteGeometry_table coords geom :
  (2 <= length coords)%nat -> Forall (is_vertex rnd) coords ->
  Rounded.buildRouteGeometry rnd Math_cos coords = Some geom ->
  points geom = coords /\ table rnd geom.
Proof.
  intros Hlen2 Hvs. unfold Rounded.buildRouteGeometry. rewrite map_pair_id.
  destruct coords as [| p0 rest]; [done |].
  destruct (Rounded.cumLoop _ _ p0 rest 0 [0]) as [cum tot] eqn:Hrun.
  intros [= <-]. simpl.
  apply cumLoop_table in Hrun as (Hm & Hl & Hd & Hlen & [tl Htl]);
    [| apply nondecreasing_singleton | done |].
  - split; [done |].
    constructor; simpl; [simpl in Hlen2; lia | simpl in Hlen; lia
                        | by rewrite Htl | done | done | done | done].
  - constructor; [| done]. apply rnd_0, Hrnd.
Qed.

(** The entries of a table lie between 0 and [totalDist]. *)
Lemma table_range geom (i : nat) c :
  table rnd geom -> cumDist geom !! i = Some c -> 0 <= c <= totalDist geom.
Proof.
  intros [H2 Hlen H0 Hmono Hlast _ _] Hc. rewrite last_lookup in Hlast.
  split.
  - apply (Hmono 0%nat i 0 c); [lia | done | done].
  - apply (Hmono i (pred (length (cumDist geom))) c (totalDist geom));
      [apply lookup_lt_Some in Hc; lia | done | done].
Qed.

Lemma table_total geom :
  table rnd geom -> 0 <= totalDist geom /\ is_double rnd (totalDist geom).
Proof.
  intros Ht. pose proof Ht as [H2 Hlen H0 Hmono Hlast Hd _].
  rewrite last_lookup in Hlast. split.
  - by destruct (table_range geom _ _ Ht Hlast).
  - rewrite Forall_forall in Hd. apply Hd. by eapply list_elem_of_lookup_2.
Qed.

(** The distance searched for is a double between 0 and [totalDist]. *)
Lemma target_rounded_range geom p :
  table rnd geom ->
  0 <= rnd (JsNum.clamp01 p * totalDist geom) <= totalDist geom.
Proof.
  intros Ht. destruct (table_total geom Ht) as [Hpos Hdbl].
  pose proof (clamp01_range p). split.
  - apply rnd_nonneg. nra.
  - rewrite <- Hdbl at 2. apply rnd_mono; [done | nra].
Qed.

(** The interpolation parameter lies in [0, 1]. *)
Lemma parameter_range s e target :
  s <= target <= e ->
  let t := if Rlt_dec 0 (rnd (e - s))
           then rnd (rnd (target - s) / rnd (e - s)) else 0 in
  0 <= t <= 1.
Proof.
  intros Hr. cbv zeta. destruct (Rlt_dec 0 (rnd (e - s))) as [Hpos | _]; [| lra].
  assert (0 <= rnd (target - s) <= rnd (e - s)) as Hnum.
  { split; [apply rnd_nonneg; lra | apply rnd_mono; [done | lra]]. }
  set (n := rnd (target - s)) in *. set (d := rnd (e - s)) in *.
  assert (0 <= n / d <= 1) as Hq.
  { split.
    - apply Rmult_le_pos; [lra |]. left. by apply Rinv_0_lt_compat.
    - apply (Rmult_le_reg_r d); [done |].
      unfold Rdiv. rewrite Rmult_assoc, Rinv_l by lra. lra. }
  split; [apply rnd_nonneg; lra |].
  rewrite <- (rnd_1 rnd Hrnd). apply rnd_mono; [done | lra].
Qed.

(** Interpolating with parameter 0 gives the start, with parameter 1 the
    rounded sum of the start and the rounded difference. *)
Lemma lerp_0 a b : is_double rnd a -> lerp rnd a b 0 = a.
Proof.
  intros Ha. unfold lerp.
  rewrite Rmult_0_r, (rnd_0 rnd Hrnd), Rplus_0_r. exact Ha.
Qed.


(** What [pointAtProgress] computes on a table: the search ends on two
    consecutive vertices whose cumulative distances enclose the distance
    searched for, and the result interpolates between them. *)
Lemma pointAtProgress_table geom p :
  table rnd geom ->
  exists (i : nat) (s e : R) (plo phi : R * R),
    let target := rnd (JsNum.clamp01 p * totalDist geom) in
    let t := if Rlt_dec 0 (rnd (e - s))
             then rnd (rnd (target - s) / rnd (e - s)) else 0 in
    cumDist geom !! i = Some s /\ cumDist geom !! S i = Some e /\
    points geom !! i = Some plo /\ points geom !! S i = Some phi /\
    s <= target <= e /\
    (S (S i) = length (points geom) \/ target < e) /\
    Rounded.pointAtProgress rnd geom p =
      Some (lerp rnd plo.1 phi.1 t, lerp rnd plo.2 phi.2 t).
Proof.
  intros Ht. pose proof Ht as [H2 Hlen H0 Hmono Hlast _ _].
  pose proof (target_rounded_range geom p Ht) as Htr.
  rewrite last_lookup in Hlast.
  unfold Rounded.pointAtProgress. cbv zeta.
  set (target := rnd (JsNum.clamp01 p * totalDist geom)) in *.
  destruct (bsearch (cumDist geom) target 0 (js_length (cumDist geom) - 1))
    as [lo hi] eqn:Hrun.
  assert (2 <= js_length (cumDist geom))%Z as Hn by (unfold js_length; lia).
  apply bsearch_inv in Hrun as ((H1 & H2' & H3 & H4 & H5) & Hlo & Hhi); [| lia].
  destruct (js_get_in_range (cumDist geom) lo) as [s Hs]; [lia |].
  destruct (js_get_in_range (cumDist geom) hi) as [e He]; [lia |].
  destruct (js_get_in_range (points geom) lo) as [plo Hpl];
    [unfold js_length in *; lia |].
  destruct (js_get_in_range (points geom) hi) as [phi Hph];
    [unfold js_length in *; lia |].
  rewrite Hs, He, Hpl, Hph.
  assert (s <= target) as Hst.
  { destruct Hlo as [-> | Hlo].
    - apply js_get_Some in Hs as [_ Hs]. rewrite Z2Nat.inj_0 in Hs.
      assert (s = 0) by congruence. lra.
    - apply le_undef_true in Hlo as (x & Hx & Hle). congruence. }
  assert (hi = (js_length (cumDist geom) - 1)%Z \/ target < e) as Hhi'.
  { destruct Hhi as [-> | Hhi]; [by left | right].
    eapply le_undef_false; done. }
  unfold js_length in *.
  apply js_get_Some in Hs as [_ Hs]. apply js_get_Some in Hpl as [_ Hpl].
  apply js_get_Some in He as [_ He]. apply js_get_Some in Hph as [_ Hph].
  assert (Z.to_nat hi = S (Z.to_nat lo)) as Hhn by lia.
  rewrite Hhn in He, Hph.
  assert (target <= e) as Hte.
  { destruct Hhi' as [Hh | ?]; [| lra].
    assert (S (Z.to_nat lo) = pred (length (cumDist geom))) as Heq by lia.
    rewrite Heq in He. assert (e = totalDist geom) by congruence. lra. }
  exists (Z.to_nat lo), s, e, plo, phi.
  split; [done |]. split; [done |]. split; [done |]. split; [done |].
  split; [done |]. split; [| done].
  destruct Hhi' as [Hh | ?]; [left; lia | by right].
Qed.

End rounded.



End RoundedFacts.

(** * The lookup on binary64 floats *)

Module DoublesFacts.
Import Floats Doubles.
Local Open Scope float_scope.
Set Warnings "-inexact-float".


End DoublesFacts.

(** * Properties of the WebSocket client *)

Module WsClientFacts.
Import Data WsClient Props.

Lemma quiet_not_send e : quiet e <-> ~ isSend e.
Proof. destruct e as [s [u | | d] | | | | |]; simpl; tauto. Qed.

Lemma closeCurrent_quiet c : Forall quiet (closeCurrent c).
Proof. unfold closeCurrent. destruct (ws c); repeat constructor. Qed.

Lemma step_quiet c e : Forall quiet (step c e).2.
Proof.
  destruct e as [| | l | l | s | s parsed | s | s | tm]; simpl.
  - unfold connect. destruct (ws c); repeat constructor.
  - apply Forall_app. split; [| apply closeCurrent_quiet].
    destruct (reconnectTimeout c); repeat constructor.
  - constructor.
  - constructor.
  - repeat constructor.
  - unfold onmessage. destruct parsed as [msg |]; simpl; [| repeat constructor].
    apply Forall_fmap, Forall_true. done.
  - repeat constructor.
  - constructor; [done | apply closeCurrent_quiet].
  - unfold connect. destruct (ws c); repeat constructor.
Qed.

Lemma run_quiet es : forall c, Forall quiet (run c es).2.
Proof.
  induction es as [| e es IH]; intros c; simpl; [constructor |].
  pose proof (step_quiet c e) as Hstep.
  destruct (step c e) as [c1 out1]. specialize (IH c1).
  destruct (run c1 es) as [c2 out2]. simpl in *.
  apply Forall_app. done.
Qed.

(** A connection that opens, fails and is closed: the socket is
    created and closed, the status handler runs twice, a reconnect is
    scheduled. *)
Example run_reconnect :
  (run (new "ws://host/ws/vehicles")
       [CallConnect; SockOpened 0; SockError 0; SockClosed 0]).2 =
  [ EffSocket 0 (SockNew "ws://host/ws/vehicles"); EffLog; EffStatus true;
    EffLog; EffSocket 0 SockClose; EffLog; EffStatus false; EffSetTimeout 1 ].
Proof. reflexivity. Qed.

(** C7. Whatever calls of [connect], [disconnect] and [subscribe], socket
    events (open, message, close, error) and reconnect timers occur, and
    in whatever order, the client never calls [send] on a socket. *)
Theorem client_never_sends (c : t) (es : list Event) (e : Effect) :
  e ∈ (run c es).2 -> ~ isSend e.
Proof.
  intros Hin. apply quiet_not_send.
  pose proof (run_quiet es c) as Hall.
  rewrite Forall_forall in Hall. by apply Hall.
Qed.

Lemma client_never_sends_witness :
  EffSocket 0 (SockNew "ws://host/ws/vehicles") ∈
    (run (new "ws://host/ws/vehicles")
         [CallConnect; SockOpened 0; SockMessage 0 None; SockError 0;
          SockClosed 0; TimerFired 1]).2 /\
  ~ isSend (EffSocket 0 (SockNew "ws://host/ws/vehicles")).
Proof.
  assert (EffSocket 0 (SockNew "ws://host/ws/vehicles") ∈
    (run (new "ws://host/ws/vehicles")
         [CallConnect; SockOpened 0; SockMessage 0 None; SockError 0;
          SockClosed 0; TimerFired 1]).2) as Hin by (simpl; by left).
  split; [exact Hin |].
  exact (client_never_sends _ _ _ Hin).
Defined.

End WsClientFacts.

(** * Properties of the route colours *)

Module ColorsFacts.
Import Colors.
Local Open Scope Z_scope.

Example routeColor_15 : routeColor "15" = Some "#000075"%string.
Proof. reflexivity. Qed.

Example routeColor_7A : routeColor "7A" = Some "#bfef45"%string.
Proof. reflexivity. Qed.

(** No digits: the hash of "A" is 65, and 65 % 24 is 17. *)
Example routeColor_A : routeColor "A" = Some "#ffe119"%string.
Proof. reflexivity. Qed.

(** The shift wraps to 32 bits. *)
Example shl32_wraps : shl32 (2 ^ 27) 5 = 0 /\ shl32 (2 ^ 26) 5 = - 2 ^ 31.
Proof. split; reflexivity. Qed.

Lemma COLORS_length : js_length COLORS = 24.
Proof. reflexivity. Qed.

Lemma COLORS_get (i : Z) :
  0 <= i < 24 -> exists c, js_get COLORS i = Some c /\ c ∈ COLORS.
Proof.
  intros Hi. unfold js_get. rewrite decide_True by lia.
  destruct (lookup_lt_is_Some_2 COLORS (Z.to_nat i)) as [c Hc].
  { change (length COLORS) with 24%nat. lia. }
  exists c. split; [done |]. by eapply list_elem_of_lookup_2.
Qed.

(** The hash branch always lands inside the palette. *)
Lemma routeColorUnits_hash cs :
  parseInt cs = None ->
  exists c, routeColorUnits cs = Some c /\ c ∈ COLORS.
Proof.
  intros Hp. unfold routeColorUnits. rewrite Hp, COLORS_length.
  apply COLORS_get.
  pose proof (Z.rem_bound_pos (Z.abs (hashCodes cs)) 24 ltac:(lia) ltac:(lia)).
  lia.
Qed.

(** So does the numeric branch on a number that is not negative (and
    that a double holds exactly). *)
Lemma routeColorUnits_nonneg cs num :
  parseInt cs = Some num -> 0 <= num <= 2 ^ 53 ->
  exists c, routeColorUnits cs = Some c /\ c ∈ COLORS.
Proof.
  intros Hp [Hn _]. unfold routeColorUnits. rewrite Hp, COLORS_length.
  apply COLORS_get. apply Z.rem_bound_pos; lia.
Qed.

(** A negative number that is not a multiple of 24 indexes before the
    palette: the result is [undefined]. *)
Lemma routeColorUnits_negative cs num :
  parseInt cs = Some num -> num < 0 -> Z.rem num 24 <> 0 ->
  routeColorUnits cs = None.
Proof.
  intros Hp Hn Hr. unfold routeColorUnits. rewrite Hp, COLORS_length.
  unfold js_get. rewrite decide_False; [done |].
  pose proof (Z.rem_nonpos num 24 ltac:(lia) ltac:(lia)). lia.
Qed.

(** C10 (the code at a failing input). [parseInt("-5", 10)] is -5,
    [-5 % 24] is -5, and [COLORS[-5]] is [undefined]: [routeColor("-5")]
    is not an element of the palette. *)
Theorem routeColor_negative_undefined :
  parseInt (charCodes "-5") = Some (-5) /\ routeColor "-5" = None.
Proof. split; reflexivity. Qed.

End ColorsFacts.

(** * Properties of the store *)

Module StateFacts.
Import Data State Props.

Lemma get_set_eq {V} k (v : V) m : JsMap.get k (JsMap.set k v m) = Some v.
Proof.
  induction m as [| [k' v'] m IH]; simpl.
  - by rewrite decide_True.
  - destruct (decide (k' = k)) as [-> | Hne]; simpl.
    + by rewrite decide_True.
    + by rewrite decide_False.
Qed.

Lemma get_set_ne {V} k k' (v : V) m :
  k <> k' -> JsMap.get k' (JsMap.set k v m) = JsMap.get k' m.
Proof.
  intros Hne. induction m as [| [k0 v0] m IH]; simpl.
  - by rewrite decide_False.
  - destruct (decide (k0 = k)) as [-> | Hne0]; simpl.
    + by rewrite !decide_False.
    + destruct (decide (k0 = k')); done.
Qed.

(** [set] keeps the order of the keys and appends a new key. *)
Lemma keys_set {V} k (v : V) m :
  JsMap.keys (JsMap.set k v m) =
    if decide (k ∈ JsMap.keys m) then JsMap.keys m else JsMap.keys m ++ [k].
Proof.
  unfold JsMap.keys. induction m as [| [k' v'] m IH].
  - case_decide as Hin; [by apply elem_of_nil in Hin | done].
  - cbn [JsMap.set]. destruct (decide (k' = k)) as [-> | Hne].
    + rewrite !fmap_cons. cbn [fst].
      clear IH. case_decide as Hin; [done |]. exfalso. apply Hin. by left.
    + rewrite !fmap_cons, IH. cbn [fst].
      destruct (decide (k ∈ m.*1)) as [Hin | Hnin].
      * rewrite decide_True; [done | by right].
      * rewrite decide_False; [done |].
        intros [? | ?]%elem_of_cons; congruence.
Qed.

Lemma get_Some_keys {V} k (m : jsmap V) :
  is_Some (JsMap.get k m) <-> k ∈ JsMap.keys m.
Proof.
  unfold JsMap.keys. induction m as [| [k' v'] m IH]; simpl.
  - split; [by intros [? ?] | by intros ?%elem_of_nil].
  - destruct (decide (k' = k)) as [-> | Hne].
    + split; [intros _; by left | by eauto].
    + rewrite IH. split; [by right |].
      intros [? | ?]%elem_of_cons; [congruence | done].
Qed.

Lemma get_setAll k vs : forall m,
  JsMap.get k (setAll vs m) =
    match latest k vs with
    | Some v => Some v
    | None => JsMap.get k m
    end.
Proof.
  unfold latest, setAll. induction vs as [| v vs IH]; intros m; simpl; [done |].
  rewrite IH. rewrite filter_cons.
  destruct (decide (v_id v = k)) as [<- | Hne].
  - rewrite last_cons. destruct (last (filter _ vs)); [done |].
    apply get_set_eq.
  - destruct (last (filter _ vs)); [done |]. by apply get_set_ne.
Qed.

Lemma latest_Some k vs v : latest k vs = Some v -> v ∈ vs /\ v_id v = k.
Proof.
  unfold latest. intros H%last_Some_elem_of.
  apply list_elem_of_filter in H. tauto.
Qed.

Lemma latest_None k vs : latest k vs = None <-> k ∉ v_id <$> vs.
Proof.
  unfold latest. rewrite last_None. split.
  - intros Hnil [v [-> Hv]]%list_elem_of_fmap.
    assert (v ∈ filter (fun v' => v_id v' = v_id v) vs) as Hin
      by (by apply list_elem_of_filter).
    rewrite Hnil in Hin. by apply elem_of_nil in Hin.
  - intros Hnot. destruct (filter _ vs) as [| v l] eqn:Hf; [done |].
    assert (v ∈ filter (fun v' => v_id v' = k) vs) as Hin
      by (rewrite Hf; by left).
    apply list_elem_of_filter in Hin as [<- Hin].
    exfalso. apply Hnot. apply list_elem_of_fmap. eauto.
Qed.

Lemma keys_setAll_prefix vs : forall m,
  JsMap.keys m `prefix_of` JsMap.keys (setAll vs m).
Proof.
  unfold setAll. induction vs as [| v vs IH]; intros m; simpl; [done |].
  etrans; [| apply IH]. rewrite keys_set.
  destruct (decide _); [done | by apply prefix_app_r].
Qed.

(** C8. [updateVehicles vs] writes, under the id of every vehicle of [vs],
    the last vehicle of [vs] with that id, and leaves every other entry as
    it was; no key disappears and the old keys keep their order, so the
    key set only grows; with [vs] empty the map is the same. *)
Theorem updateVehicles_frame (vs : list VehicleData) (s : Store) :
  let m := vehicles (state s) in
  let m' := vehicles (state (updateVehicles vs s)) in
  (forall k, k ∈ v_id <$> vs ->
     exists v, v ∈ vs /\ v_id v = k /\ latest k vs = Some v /\
               JsMap.get k m' = Some v) /\
  (forall k, k ∉ v_id <$> vs -> JsMap.get k m' = JsMap.get k m) /\
  (forall k, k ∈ JsMap.keys m' <-> k ∈ JsMap.keys m \/ k ∈ v_id <$> vs) /\
  JsMap.keys m `prefix_of` JsMap.keys m' /\
  vehicles (state (updateVehicles [] s)) = m.
Proof.
  cbv zeta. simpl. fold (setAll vs (vehicles (state s))).
  assert (forall k, k ∈ v_id <$> vs ->
     exists v, v ∈ vs /\ v_id v = k /\ latest k vs = Some v /\
               JsMap.get k (setAll vs (vehicles (state s))) = Some v) as Hin.
  { intros k Hk. destruct (latest k vs) as [v |] eqn:Hl.
    - destruct (latest_Some _ _ _ Hl) as [Hv Hid].
      exists v. rewrite get_setAll, Hl. done.
    - apply latest_None in Hl. contradiction. }
  assert (forall k, k ∉ v_id <$> vs ->
     JsMap.get k (setAll vs (vehicles (state s))) =
     JsMap.get k (vehicles (state s))) as Hout.
  { intros k Hk. apply latest_None in Hk. by rewrite get_setAll, Hk. }
  repeat split; try done.
  - intros Hk. destruct (decide (k ∈ v_id <$> vs)) as [? | Hnot]; [by right |].
    left. apply get_Some_keys. rewrite <- (Hout k Hnot). by apply get_Some_keys.
  - intros [Hk | Hk].
    + destruct (decide (k ∈ v_id <$> vs)) as [Hyes | Hnot].
      * destruct (Hin k Hyes) as (v & _ & _ & _ & Hget).
        apply get_Some_keys. by rewrite Hget.
      * apply get_Some_keys. rewrite (Hout k Hnot). by apply get_Some_keys.
    + destruct (Hin k Hk) as (v & _ & _ & _ & Hget).
      apply get_Some_keys. by rewrite Hget.
  - apply keys_setAll_prefix.
Qed.

(** The other fields of the state are not touched, and the listeners run
    once. *)
Lemma updateVehicles_rest vs s :
  routes (state (updateVehicles vs s)) = routes (state s) /\
  stops (state (updateVehicles vs s)) = stops (state s) /\
  enabledRoutes (state (updateVehicles vs s)) = enabledRoutes (state s) /\
  selectedStop (state (updateVehicles vs s)) = selectedStop (state s) /\
  connected (state (updateVehicles vs s)) = connected (state s) /\
  notified (updateVehicles vs s) = S (notified s).
Proof. done. Qed.

(** C9. With no enabled route every stored vehicle is visible; otherwise
    exactly the stored vehicles whose route number is enabled are, in the
    order of the store.  After [disableAllRoutes] all vehicles are
    visible. *)
Theorem getVisibleVehicles_spec (s : Store) :
  getVisibleVehicles s =
    (if decide (enabledRoutes (state s) = ∅)
     then JsMap.values (vehicles (state s))
     else filter (fun v => v_route v ∈ enabledRoutes (state s))
                 (JsMap.values (vehicles (state s)))) /\
  getVisibleVehicles (disableAllRoutes s) = JsMap.values (vehicles (state s)).
Proof.
  assert (forall s', enabledRoutes (state s') = ∅ ->
            getVisibleVehicles s' = JsMap.values (vehicles (state s'))) as Hall.
  { intros s' He. unfold getVisibleVehicles. rewrite He, size_empty.
    rewrite bool_decide_eq_false_2 by lia.
    induction (JsMap.values _) as [| v l IH]; [done |].
    rewrite filter_cons, decide_True by (by left). by rewrite IH. }
  split.
  - destruct (decide (enabledRoutes (state s) = ∅)) as [He | Hne]; [by apply Hall |].
    unfold getVisibleVehicles.
    assert (size (enabledRoutes (state s)) <> 0%nat) as Hsz.
    { intros Hz. apply size_empty_inv in Hz. apply Hne. by apply leibniz_equiv. }
    rewrite bool_decide_eq_true_2 by lia.
    apply list_filter_iff. intros v. split; [| by right].
    intros [? | ?]; done.
  - by rewrite Hall.
Qed.

End StateFacts.

(** * Properties of the frame handler *)

Module MainFacts.
Import Data State Main Props Samples.
Local Open Scope Z_scope.

Section handlers.
Variable Date_parse : string -> option Z.
(** [Date.parse("")] is NaN. *)
Hypothesis Date_parse_empty : Date_parse ""%string = None.

Lemma isFreshSnapshot_true now v :
  isFreshSnapshot Date_parse now (v_timestamp v) = true <->
  fresh_vehicle Date_parse now v.
Proof.
  unfold isFreshSnapshot, fresh_vehicle, SNAPSHOT_MAX_AGE_MS.
  destruct (v_timestamp v) as [s |].
  - destruct (decide (s = ""%string)) as [-> | Hs].
    + split; [done |]. intros (s & t & [= <-] & Hp & _). congruence.
    + destruct (Date_parse s) as [t |] eqn:Hp.
      * rewrite bool_decide_eq_true. split.
        -- intros Hle. exists s, t. done.
        -- intros (s' & t' & [= <-] & Hp' & Hle). congruence.
      * split; [done |]. intros (s' & t' & [= <-] & Hp' & _). congruence.
  - split; [done |]. intros (s & t & Hs & _). done.
Qed.

Lemma snapshotIsFresh_true now msg :
  bool_decide (0 < length (msg_vehicles msg))%nat &&
  forallb (fun v => isFreshSnapshot Date_parse now (v_timestamp v))
          (msg_vehicles msg) = true <->
  fresh_frame Date_parse now msg.
Proof.
  unfold fresh_frame. rewrite andb_true_iff, bool_decide_eq_true.
  rewrite forallb_forall, Forall_forall.
  split; intros [Hne Hall]; split.
  - intros Hnil. rewrite Hnil in Hne. simpl in Hne. lia.
  - intros v Hv. apply isFreshSnapshot_true, Hall. by apply list_elem_of_In.
  - destruct (msg_vehicles msg); [done | simpl; lia].
  - intros v Hv. apply isFreshSnapshot_true, Hall. by apply list_elem_of_In.
Qed.

Lemma run_snoc a es e :
  run Date_parse a (es ++ [e]) = step Date_parse (run Date_parse a es) e.
Proof. unfold run. by rewrite foldl_app. Qed.

Lemma snoc_split {A} (es pre post : list A) (e x : A) :
  es ++ [e] = pre ++ x :: post ->
  (post = [] /\ es = pre /\ e = x) \/
  (exists post', post = post' ++ [e] /\ es = pre ++ x :: post').
Proof.
  destruct post as [| y post _] using rev_ind.
  - intros H. apply app_inj_tail in H as [-> ->]. by left.
  - intros H. rewrite app_comm_cons, app_assoc in H.
    apply app_inj_tail in H as [-> ->]. right. eauto.
Qed.

Lemma live_update_snoc es e :
  live_update (es ++ [e]) <->
  match e with
  | EvFrame _ msg => msg_type msg = Update \/ live_update es
  | EvStatus true => live_update es
  | EvStatus false => False
  end.
Proof.
  unfold live_update. split.
  - intros (pre & now & u & post & Heq & Hu & Hpost).
    apply snoc_split in Heq as [(-> & -> & ->) | (post' & -> & ->)].
    + by left.
    + assert (EvStatus false ∉ post') as Hpost'.
      { intros Hin. apply Hpost. apply elem_of_app. by left. }
      assert (e <> EvStatus false) as He.
      { intros ->. apply Hpost. apply elem_of_app. right. by left. }
      destruct e as [now' msg | [|]]; [right | | done];
        exists pre, now, u, post'; done.
  - assert ((e <> EvStatus false /\ live_update es) ->
            exists pre now u post,
              es ++ [e] = pre ++ EvFrame now u :: post /\
              msg_type u = Update /\ EvStatus false ∉ post) as Hext.
    { intros (He & pre & now & u & post & -> & Hu & Hpost).
      exists pre, now, u, (post ++ [e]).
      split; [by rewrite <- app_assoc |]. split; [done |].
      intros [Hin | Hin%list_elem_of_singleton]%elem_of_app; [done | congruence]. }
    destruct e as [now msg | [|]]; [| | done].
    + intros [Hu | Hlive]; [| apply Hext; done].
      exists es, now, msg, []. split; [done |]. split; [done |].
      apply not_elem_of_nil.
    + intros Hlive. apply Hext. done.
Qed.

(** The flag is set exactly when an [update] frame has arrived on the
    current connection. *)
Lemma hasFreshVehicleUpdate_live es :
  hasFreshVehicleUpdate (run Date_parse init es) = true <-> live_update es.
Proof.
  induction es as [| e es IH] using rev_ind.
  - simpl. split; [done |].
    intros (pre & now & u & post & Heq & _). by destruct pre.
  - rewrite run_snoc, live_update_snoc.
    destruct e as [now msg | [|]]; simpl.
    + unfold onFrame. destruct (msg_type msg) eqn:Ht; simpl.
      * destruct (hasFreshVehicleUpdate (run Date_parse init es)) eqn:Hf.
        -- simpl. rewrite <- IH. split; [by right | done].
        -- destruct (_ && _); simpl; rewrite <- IH, ?Hf;
             (split; [done | by intros [? | ?]]).
      * split; [by left | done].
    + done.
    + done.
Qed.

(** On a connection that was never lost, [live_update] says that an
    [update] frame occurs in the history. *)
Lemma live_update_uninterrupted es :
  EvStatus false ∉ es ->
  live_update es <->
  exists now u, EvFrame now u ∈ es /\ msg_type u = Update.
Proof.
  intros Hno. unfold live_update. split.
  - intros (pre & now & u & post & -> & Hu & _).
    exists now, u. split; [| done]. apply elem_of_app. right. by left.
  - intros (now & u & Hin & Hu).
    apply list_elem_of_split in Hin as (pre & post & ->).
    exists pre, now, u, post. split; [done |]. split; [done |].
    intros Hin. apply Hno. apply elem_of_app. right. by right.
Qed.

Lemma updateVehicles_changes vs s : updateVehicles vs s <> s.
Proof.
  intros H. apply (f_equal notified) in H. simpl in H. lia.
Qed.

(** C3 (as amended). Before an [update] frame has arrived on the WebSocket
    connection, a [snapshot] frame is applied to the store exactly when it has at
    least one vehicle and every vehicle carries a timestamp that parses to
    a date at most 20000 ms before the current time; otherwise the store
    stays as it is.  Once an [update] frame has arrived on the connection,
    every frame is applied, and an [update] frame is always applied.  The
    connection is the one in use: [live_update] looks at the frames since
    the last disconnect, and on a history without a disconnect it says
    that an [update] frame occurs in the history. *)
Theorem snapshot_gate (es : list Event) (now : Z) (msg : WsMessage) :
  let a := run Date_parse init es in
  let a' := step Date_parse a (EvFrame now msg) in
  let applied := store a' = updateVehicles (msg_vehicles msg) (store a) in
  let withheld := store a' = store a in
  (~ live_update es -> msg_type msg = Snapshot ->
     (applied <-> fresh_frame Date_parse now msg) /\
     (~ fresh_frame Date_parse now msg -> withheld)) /\
  (live_update es -> applied) /\
  (msg_type msg = Update -> applied /\ live_update (es ++ [EvFrame now msg])) /\
  (EvStatus false ∉ es ->
     (live_update es <-> exists now' u, EvFrame now' u ∈ es /\ msg_type u = Update)).
Proof.
  cbv zeta. simpl. unfold onFrame.
  pose proof (hasFreshVehicleUpdate_live es) as Hflag.
  pose proof (snapshotIsFresh_true now msg) as Hfresh.
  split; [| split; [| split; [| apply live_update_uninterrupted]]].
  - intros Hno Ht. rewrite Ht.
    destruct (hasFreshVehicleUpdate _); [exfalso; apply Hno, Hflag; done |].
    destruct (_ && _); simpl.
    + split; [split; [intros _; by apply Hfresh | done] |].
      intros Hnot. exfalso. apply Hnot, Hfresh. done.
    + split; [| done]. split.
      * intros H. symmetry in H. by apply updateVehicles_changes in H.
      * intros H%Hfresh. done.
  - intros Hlive. apply Hflag in Hlive. rewrite Hlive.
    destruct (msg_type msg); done.
  - intros Ht. rewrite Ht. split; [done |].
    apply live_update_snoc. by left.
Qed.

End handlers.

Lemma snapshot_gate_witness :
  let msg := {| msg_type := Snapshot; msg_vehicles := [sampleVehicle] |} in
  let a := run sampleParse init [] in
  let a' := step sampleParse a (EvFrame 1704067210000 msg) in
  let applied := store a' = updateVehicles (msg_vehicles msg) (store a) in
  let withheld := store a' = store a in
  (~ live_update [] -> msg_type msg = Snapshot ->
     (applied <-> fresh_frame sampleParse 1704067210000 msg) /\
     (~ fresh_frame sampleParse 1704067210000 msg -> withheld)) /\
  (live_update [] -> applied) /\
  (msg_type msg = Update ->
     applied /\ live_update ([] ++ [EvFrame 1704067210000 msg])) /\
  (EvStatus false ∉ [] ->
     (live_update [] <->
      exists now' u, EvFrame now' u ∈ [] /\ msg_type u = Update)).
Proof.
  apply (snapshot_gate sampleParse); reflexivity.
Defined.

(** C3 (as stated) fails across a reconnect.  An [update] frame has been
    received, then the client reports a disconnect, then a snapshot
    arrives whose only vehicle is 60 s old: the snapshot is withheld and
    the store stays as it is, although it comes after the first [update]
    frame. *)
Lemma snapshot_gate_reconnect_counterexample :
  let update := {| msg_type := Update; msg_vehicles := [sampleVehicle] |} in
  let snapshot := {| msg_type := Snapshot; msg_vehicles := [sampleVehicle] |} in
  let es := [EvFrame 1704067201000 update; EvStatus false] in
  let a := run sampleParse init es in
  let a' := step sampleParse a (EvFrame 1704067260000 snapshot) in
  (exists now u, EvFrame now u ∈ es /\ msg_type u = Update) /\
  store a' = store a /\
  store a' <> updateVehicles (msg_vehicles snapshot) (store a).
Proof.
  cbv zeta. split; [| split].
  - eexists _, _. split; [by left | done].
  - reflexivity.
  - change (store (step sampleParse _ _)) with
      (store (run sampleParse init
                [EvFrame 1704067201000
                   {| msg_type := Update; msg_vehicles := [sampleVehicle] |};
                 EvStatus false])).
    intros H. symmetry in H. by apply updateVehicles_changes in H.
Qed.

End MainFacts.

(** * Properties of the vehicle layer *)

Module VehicleLayerFacts.
Import Data Geometry VehicleLayer Props.

Abbreviation mid tv := (marker_id (marker tv)).

Lemma routedPosition_defined geom v pr :
  (forall g, geom = Some g -> built g) ->
  exists lat lon c, routedPosition geom v pr = Some (lat, lon, c).
Proof.
  intros Hb. unfold routedPosition. destruct geom as [g |]; [| eauto].
  specialize (Hb g eq_refl).
  destruct (GeometryFacts.pointAtProgress_defined g pr Hb) as [p ->].
  destruct (GeometryFacts.bearingAtProgress_defined g pr Hb) as [c ->].
  simpl. eauto.
Qed.

(** An update of a tracked vehicle keeps its marker object. *)
Lemma updateExisting_defined now geom v tv :
  (forall g, geom = Some g -> built g) ->
  exists tv', updateExisting now geom v tv = Some tv' /\ mid tv' = mid tv.
Proof.
  intros Hb. unfold updateExisting. cbv zeta.
  set (tv1 := setPrev _ _ _ _ tv).
  assert (exists tv2,
    (if bool_decide (routeId tv <> v_route_id v)
     then match geom, v_progress v with
          | Some g, Some pr =>
              '(lat, lon, c) ← routedPosition (Some g) v pr;
              Some (snapTo lat lon c (Some pr) tv1)
          | _, _ => Some (snapTo (v_lat v) (v_lon v) (v_course v) (v_progress v) tv1)
          end
     else Some tv1) = Some tv2 /\ mid tv2 = mid tv) as (tv2 & -> & H2).
  { destruct (bool_decide _); [| by exists tv1].
    destruct geom as [g |]; [| eauto].
    destruct (v_progress v) as [pr |]; [| eauto].
    destruct (routedPosition_defined (Some g) v pr Hb) as (lat & lon & c & ->).
    simpl. eauto. }
  simpl.
  assert (exists tv3,
    match prevProgress tv2, v_progress v with
    | Some pp, Some pr =>
        if negb (bool_decide (routeId tv <> v_route_id v)) &&
           bool_decide (MAX_ANIM_PROGRESS_DELTA < Rabs (pr - pp))%R
        then '(lat, lon, c) ← routedPosition geom v pr;
             Some (snapTo lat lon c (Some pr) tv2)
        else Some tv2
    | _, _ => Some tv2
    end = Some tv3 /\ mid tv3 = mid tv) as (tv3 & -> & H3).
  { destruct (prevProgress tv2) as [pp |]; [| eauto].
    destruct (v_progress v) as [pr |]; [| eauto].
    destruct (_ && _); [| eauto].
    destruct (routedPosition_defined geom v pr Hb) as (lat & lon & c & ->).
    simpl. eauto. }
  simpl. eexists. split; [reflexivity |].
  destruct (bool_decide _); simpl; done.
Qed.

(** A vehicle seen first gets the marker object [fresh]. *)
Lemma createTracked_defined now geom v fresh :
  (forall g, geom = Some g -> built g) ->
  exists tv', createTracked now geom v fresh = Some tv' /\ mid tv' = fresh.
Proof.
  intros Hb. unfold createTracked.
  assert (exists lat lon c,
    match geom, v_progress v with
    | Some g, Some pr => routedPosition (Some g) v pr
    | _, _ => Some (v_lat v, v_lon v, v_course v)
    end = Some (lat, lon, c)) as (lat & lon & c & ->).
  { destruct geom as [g |]; [| eauto].
    destruct (v_progress v) as [pr |]; [| eauto].
    apply routedPosition_defined, Hb. }
  simpl. eauto.
Qed.

Lemma geometryOf_built l v :
  geoms_built l -> forall g, geometryOf l v = Some g -> built g.
Proof.
  unfold geometryOf. intros Hb g.
  destruct (v_route_id v) as [rid |]; simpl; [apply Hb | done].
Qed.

(** One iteration of the loop over the frame. *)
Lemma updateOne_spec now v l seen :
  geoms_built l ->
  exists l1 tv',
    updateOne now v (l, seen) = Some (l1, {[v_id v]} ∪ seen) /\
    routeGeometries l1 = routeGeometries l /\
    tracked l1 = <[v_id v := tv']> (tracked l) /\
    match tracked l !! v_id v with
    | Some tv => mid tv' = mid tv /\ layerGroup l1 = layerGroup l /\
                 nextMarker l1 = nextMarker l
    | None => mid tv' = nextMarker l /\
              layerGroup l1 = {[nextMarker l]} ∪ layerGroup l /\
              nextMarker l1 = S (nextMarker l)
    end.
Proof.
  intros Hb. unfold updateOne.
  pose proof (geometryOf_built l v Hb) as Hg.
  destruct (tracked l !! v_id v) as [tv |].
  - destruct (updateExisting_defined now (geometryOf l v) v tv Hg) as (tv' & -> & Hm).
    simpl. eexists _, tv'. split; [reflexivity |]. done.
  - destruct (createTracked_defined now (geometryOf l v) v (nextMarker l) Hg)
      as (tv' & -> & Hm).
    simpl. eexists _, tv'. split; [reflexivity |]. done.
Qed.

Lemma updateOne_wf now v l seen l1 seen1 :
  layer_wf l -> updateOne now v (l, seen) = Some (l1, seen1) -> layer_wf l1.
Proof.
  intros [Hb [Hin Hinj]] Hrun.
  destruct (updateOne_spec now v l seen Hb) as (l1' & tv' & Hrun' & Hg & Ht & Hcase).
  rewrite Hrun in Hrun'. injection Hrun' as <- _.
  split; [unfold geoms_built; by rewrite Hg |].
  destruct (tracked l !! v_id v) as [tv |] eqn:Hold;
    destruct Hcase as (Hm & Hlg & Hnm); unfold markers_wf; rewrite Hlg, Hnm; split.
  - intros k tv1. rewrite Ht. intros [[<- <-] | [Hne Hk]]%lookup_insert_Some.
    + rewrite Hm. eauto.
    + eauto.
  - intros k1 k2 tv1 tv2. rewrite Ht.
    intros [[<- <-] | [Hne1 Hk1]]%lookup_insert_Some
           [[<- <-] | [Hne2 Hk2]]%lookup_insert_Some; try done.
    + rewrite Hm. intros Heq. symmetry. by eapply Hinj.
    + rewrite Hm. intros Heq. by eapply Hinj.
    + eauto.
  - intros k tv1. rewrite Ht. intros [[<- <-] | [Hne Hk]]%lookup_insert_Some.
    + rewrite Hm. split; [| lia].
      apply elem_of_union. left. by apply elem_of_singleton.
    + destruct (Hin _ _ Hk). split; [| lia].
      apply elem_of_union. by right.
  - intros k1 k2 tv1 tv2. rewrite Ht.
    intros [[<- <-] | [Hne1 Hk1]]%lookup_insert_Some
           [[<- <-] | [Hne2 Hk2]]%lookup_insert_Some; try done.
    + rewrite Hm. intros Heq. destruct (Hin _ _ Hk2). lia.
    + rewrite Hm. intros Heq. destruct (Hin _ _ Hk1). lia.
    + eauto.
Qed.

(** The loop over the frame: what it leaves in [tracked] and [seen]. *)
Lemma updateLoop_spec now vs : forall l seen,
  layer_wf l ->
  exists l1,
    updateLoop now vs (l, seen) = Some (l1, list_to_set (v_id <$> vs) ∪ seen) /\
    layer_wf l1 /\
    dom (tracked l1) = list_to_set (v_id <$> vs) ∪ dom (tracked l) /\
    (nextMarker l <= nextMarker l1)%nat /\
    (forall k tv, tracked l !! k = Some tv ->
       exists tv', tracked l1 !! k = Some tv' /\ mid tv' = mid tv) /\
    (forall k tv', tracked l !! k = None -> tracked l1 !! k = Some tv' ->
       (nextMarker l <= mid tv')%nat).
Proof.
  induction vs as [| v vs IH]; intros l seen Hwf.
  - exists l. simpl. rewrite !(left_id_L ∅ (∪)).
    split; [done |]. split; [done |]. split; [done |]. split; [done |].
    split; [eauto | congruence].
  - pose proof Hwf as [Hb Hm].
    destruct (updateOne_spec now v l seen Hb) as (l1 & tv1 & Hrun & Hg & Ht & Hcase).
    pose proof (updateOne_wf _ _ _ _ _ _ Hwf Hrun) as Hwf1.
    destruct (IH l1 ({[v_id v]} ∪ seen) Hwf1)
      as (l2 & Hrun2 & Hwf2 & Hdom & Hnext & Hkeep & Hnew).
    exists l2. cbn [updateLoop]. rewrite Hrun. cbn [mbind option_bind].
    rewrite Hrun2, fmap_cons, list_to_set_cons.
    assert (nextMarker l <= nextMarker l1)%nat as Hn1.
    { destruct (tracked l !! v_id v); destruct Hcase as (_ & _ & ->); lia. }
    assert (list_to_set (v_id <$> vs) ∪ ({[v_id v]} ∪ seen)
            = {[v_id v]} ∪ list_to_set (v_id <$> vs) ∪ seen :> gset string) as ->.
    { rewrite (assoc_L (∪)). f_equal. apply (comm_L (∪)). }
    split; [done |]. split; [done |].
    split.
    { rewrite Hdom, Ht, dom_insert_L, (assoc_L (∪)). f_equal. apply (comm_L (∪)). }
    split; [lia |]. split.
    + intros k tv Hk.
      destruct (decide (k = v_id v)) as [-> | Hne].
      * rewrite Hk in Hcase. destruct Hcase as (Hmid & _).
        destruct (Hkeep (v_id v) tv1) as (tv' & Hk' & Hmid').
        { rewrite Ht. apply lookup_insert_eq. }
        exists tv'. split; [done | congruence].
      * apply Hkeep. rewrite Ht. by rewrite lookup_insert_ne.
    + intros k tv' Hnone Hk'.
      destruct (decide (k = v_id v)) as [-> | Hne].
      * rewrite Hnone in Hcase. destruct Hcase as (Hmid & _).
        destruct (Hkeep (v_id v) tv1) as (tv'' & Hk'' & Hmid').
        { rewrite Ht. apply lookup_insert_eq. }
        assert (tv'' = tv') as -> by congruence. lia.
      * assert (nextMarker l1 <= mid tv')%nat; [| lia].
        apply (Hnew k); [| done]. rewrite Ht. by rewrite lookup_insert_ne.
Qed.

(** The geometry index filled by [loadRoutes] holds built geometries. *)
Lemma loadLoop_built rs : forall acc gs,
  (forall rid g, acc !! rid = Some g -> built g) ->
  loadLoop rs acc = Some gs ->
  forall rid g, gs !! rid = Some g -> built g.
Proof.
  induction rs as [| r rs IH]; intros acc gs Hacc Hrun; simpl in Hrun.
  - by injection Hrun as <-.
  - destruct (r_geometry r) as [coords |]; [| by eapply IH].
    destruct (bool_decide _); [| by eapply IH].
    destruct (buildRouteGeometry coords) as [geom |] eqn:Hg; [| done].
    simpl in Hrun. eapply IH; [| done].
    intros rid g [[<- <-] | [_ Hin]]%lookup_insert_Some; [| by eapply Hacc].
    by apply GeometryFacts.buildRouteGeometry_built in Hg as [_ Hb].
Qed.

Lemma loadRoutes_wf rs l l' :
  markers_wf l -> loadRoutes rs l = Some l' -> layer_wf l'.
Proof.
  unfold loadRoutes. intros Hm Hrun.
  destruct (loadLoop rs ∅) as [gs |] eqn:Hgs; [| done].
  injection Hrun as <-. split; [| done].
  intros rid g. simpl. eapply loadLoop_built; [| done].
  intros ? ? H. by rewrite lookup_empty in H.
Qed.

Lemma new_wf : layer_wf new.
Proof.
  split; [intros rid g H; simpl in H; by rewrite lookup_empty in H |].
  split.
  - intros k tv H. simpl in H. by rewrite lookup_empty in H.
  - intros k1 k2 tv1 tv2 H. simpl in H. by rewrite lookup_empty in H.
Qed.

Lemma clear_wf l : geoms_built l -> layer_wf (clear l).
Proof.
  intros Hb. split; [done |]. split.
  - intros k tv H. simpl in H. by rewrite lookup_empty in H.
  - intros k1 k2 tv1 tv2 H. simpl in H. by rewrite lookup_empty in H.
Qed.

(** C6. After [update vs] the ids with a marker in [tracked] are exactly
    the ids of [vs]: an id of the frame that was tracked keeps its marker
    object, still on the layer group; an id of the frame that was not
    tracked gets a marker object allocated by this call and put on the
    layer group; an id outside the frame loses its entry and its marker
    leaves the layer group. *)
Theorem update_tracked_ids (now : R) (vs : list VehicleData) (l : t) :
  layer_wf l ->
  exists l',
    update now vs l = Some l' /\
    layer_wf l' /\
    (forall k, k ∈ dom (tracked l') <-> k ∈ v_id <$> vs) /\
    (forall k tv, tracked l !! k = Some tv -> k ∈ v_id <$> vs ->
       exists tv', tracked l' !! k = Some tv' /\ mid tv' = mid tv /\
                   mid tv' ∈ layerGroup l') /\
    (forall k, tracked l !! k = None -> k ∈ v_id <$> vs ->
       exists tv', tracked l' !! k = Some tv' /\
                   (nextMarker l <= mid tv' < nextMarker l')%nat /\
                   mid tv' ∈ layerGroup l') /\
    (forall k tv, tracked l !! k = Some tv -> k ∉ v_id <$> vs ->
       tracked l' !! k = None /\ mid tv ∉ layerGroup l').
Proof.
  intros Hwf. unfold update.
  destruct (updateLoop_spec now vs l ∅ Hwf)
    as (l1 & Hrun & Hwf1 & Hdom & Hnext & Hkeep & Hnew).
  rewrite Hrun. cbn [mbind option_bind].
  rewrite (right_id_L ∅ (∪)) in *.
  set (seen := list_to_set (v_id <$> vs) : gset string) in *.
  assert (forall k, k ∈ seen <-> k ∈ v_id <$> vs) as Hseen
    by (intros k; apply elem_of_list_to_set).
  destruct Hwf1 as [Hb1 [Hin1 Hinj1]].
  (* an entry that survives the removal keeps its marker on the layer *)
  assert (forall k tv', tracked l1 !! k = Some tv' -> k ∈ seen ->
            tracked (removeStale seen l1) !! k = Some tv' /\
            mid tv' ∈ layerGroup (removeStale seen l1)) as Hsurvive.
  { intros k tv' Hk Hs. simpl. split.
    - apply map_lookup_filter_Some. done.
    - apply elem_of_difference. split; [by apply (Hin1 k) |].
      intros (k2 & tv2 & [Hk2 Hns]%map_lookup_filter_Some & Heq)%elem_of_map_to_set.
      simpl in Hns. assert (k2 = k) as -> by (by eapply Hinj1). done. }
  eexists. split; [reflexivity |].
  split; [| split; [| split; [| split]]].
  - split; [done |]. split.
    + intros k tv' [Hk Hs]%map_lookup_filter_Some. simpl in Hs.
      destruct (Hsurvive k tv' Hk Hs) as [_ Hlg].
      split; [done | by apply (Hin1 k)].
    + intros k1 k2 tv1 tv2 [Hk1 _]%map_lookup_filter_Some
             [Hk2 _]%map_lookup_filter_Some. by eapply Hinj1.
  - intros k. rewrite <- Hseen. simpl. rewrite elem_of_dom. split.
    + intros [tv' [_ Hs]%map_lookup_filter_Some]. done.
    + intros Hs. assert (k ∈ dom (tracked l1)) as [tv' Hk]%elem_of_dom
        by (rewrite Hdom; apply elem_of_union; by left).
      exists tv'. by apply map_lookup_filter_Some.
  - intros k tv Hk Hs%Hseen.
    destruct (Hkeep k tv Hk) as (tv' & Hk' & Hmid).
    destruct (Hsurvive k tv' Hk' Hs) as [Hk'' Hlg]. eauto.
  - intros k Hnone Hs%Hseen.
    assert (k ∈ dom (tracked l1)) as [tv' Hk']%elem_of_dom
      by (rewrite Hdom; apply elem_of_union; by left).
    destruct (Hsurvive k tv' Hk' Hs) as [Hk'' Hlg].
    exists tv'. split; [done |]. split; [| done].
    split; [by eapply Hnew | by apply (Hin1 k)].
  - intros k tv Hk Hns. rewrite <- Hseen in Hns.
    destruct (Hkeep k tv Hk) as (tv' & Hk' & Hmid). simpl. split.
    + apply map_lookup_filter_None. right. intros ? _. done.
    + rewrite <- Hmid. intros [_ Hnot]%elem_of_difference. apply Hnot.
      apply elem_of_map_to_set. exists k, tv'. split; [| done].
      by apply map_lookup_filter_Some.
Qed.

Lemma update_tracked_ids_witness :
  exists l',
    update 0 [Samples.sampleVehicle] new = Some l' /\
    layer_wf l' /\
    (forall k, k ∈ dom (tracked l') <-> k ∈ v_id <$> [Samples.sampleVehicle]) /\
    (forall k tv, tracked new !! k = Some tv ->
       k ∈ v_id <$> [Samples.sampleVehicle] ->
       exists tv', tracked l' !! k = Some tv' /\ mid tv' = mid tv /\
                   mid tv' ∈ layerGroup l') /\
    (forall k, tracked new !! k = None ->
       k ∈ v_id <$> [Samples.sampleVehicle] ->
       exists tv', tracked l' !! k = Some tv' /\
                   (nextMarker new <= mid tv' < nextMarker l')%nat /\
                   mid tv' ∈ layerGroup l') /\
    (forall k tv, tracked new !! k = Some tv ->
       k ∉ v_id <$> [Samples.sampleVehicle] ->
       tracked l' !! k = None /\ mid tv ∉ layerGroup l').
Proof. apply (update_tracked_ids 0 [Samples.sampleVehicle] new), new_wf. Defined.

End VehicleLayerFacts.

(** * More on the route geometry *)

Module GeometryMore.
Import Geometry Props Samples GeometryFacts.
Local Open Scope R_scope.

(** *** The remainder operator *)

(** [x % y] differs from [x] by a whole multiple of [y] and has the sign
    of [x]. *)
Lemma rem_decomp x y :
  0 < y ->
  exists q : Z, JsNum.rem x y = x - y * IZR q /\
    (0 <= x -> 0 <= JsNum.rem x y < y) /\
    (x < 0 -> - y < JsNum.rem x y <= 0).
Proof.
  intros Hy. destruct (Rle_dec 0 x) as [Hx | Hx].
  - destruct (rem_nonneg_decomp x y Hx Hy) as (q & Hq & Hr).
    exists q. split; [done |]. split; [done |]. intros Hx'. lra.
  - assert (0 <= - x) as Hnx by lra.
    destruct (rem_nonneg_decomp (- x) y Hnx Hy) as (q & Hq & Hr).
    assert (JsNum.rem x y = - JsNum.rem (- x) y) as Hneg.
    { unfold JsNum.rem, JsNum.trunc.
      assert (x / y < 0) as Hlt.
      { unfold Rdiv. pose proof (Rinv_0_lt_compat y Hy). nra. }
      assert (- x / y = - (x / y)) as Hdiv by (unfold Rdiv; ring).
      destruct (Rle_dec 0 (x / y)); [lra |].
      rewrite Hdiv. destruct (Rle_dec 0 (- (x / y))); [| lra]. ring. }
    exists (- q)%Z. rewrite Hneg, Hq, opp_IZR.
    split; [ring |]. split; [intros; lra |]. intros _. lra.
Qed.

(** The remainder is the only value of its residue class in [0, y). *)
Lemma rem_unique x y r (k : Z) :
  0 < y -> 0 <= x -> 0 <= r < y -> x = r + y * IZR k -> JsNum.rem x y = r.
Proof.
  intros Hy Hx Hr Hxr.
  destruct (rem_nonneg_decomp x y Hx Hy) as (q & Hq & Hrange).
  rewrite Hq in *.
  assert (y * IZR (q - k) = r - (x - y * IZR q)) as Hd
    by (rewrite minus_IZR; lra).
  assert (q - k = 0)%Z as Hqk.
  { assert (-1 < IZR (q - k) < 1) as [Hlo Hhi] by (split; nra).
    apply (lt_IZR (-1)) in Hlo. apply (lt_IZR _ 1) in Hhi. lia. }
  rewrite Hqk in Hd. lra.
Qed.

(** *** Where [pointAtProgress] lands *)


(** X1. In the arithmetic of doubles, on a geometry built from at
    least two vertices with double coordinates, [pointAtProgress] finds
    two consecutive vertices whose cumulative distances enclose the
    distance searched for, the rounded product of the clamped progress
    and [totalDist], and returns the interpolation between them with a
    parameter between 0 and 1: the rounded quotient of the distance into
    the segment by the length of the segment, or 0 on a segment of
    computed length zero. *)
Theorem pointAtProgress_on_segment (rnd Math_cos : R -> R)
    (coords : list (R * R)) (geom : RouteGeometry) (p : R) :
  Rounded.rounding rnd ->
  (2 <= length coords)%nat -> Forall (Rounded.is_vertex rnd) coords ->
  Rounded.buildRouteGeometry rnd Math_cos coords = Some geom ->
  exists (i : nat) (s e : R) (plo phi : R * R),
    let target := rnd (JsNum.clamp01 p * totalDist geom) in
    let t := if Rlt_dec 0 (rnd (e - s))
             then rnd (rnd (target - s) / rnd (e - s)) else 0 in
    coords !! i = Some plo /\ coords !! S i = Some phi /\
    cumDist geom !! i = Some s /\ cumDist geom !! S i = Some e /\
    s <= target <= e /\ 0 <= t <= 1 /\
    Rounded.pointAtProgress rnd geom p =
      Some (Rounded.lerp rnd plo.1 phi.1 t, Rounded.lerp rnd plo.2 phi.2 t).
Proof.
  intros Hrnd Hlen2 Hvs Hg.
  apply (RoundedFacts.buildRouteGeometry_table rnd Math_cos Hrnd) in Hg
    as [Hpts Ht]; [| done | done].
  destruct (RoundedFacts.pointAtProgress_table rnd Hrnd geom p Ht)
    as (i & s & e & plo & phi & H). cbv zeta in H.
  destruct H as (Hs & He & Hpl & Hph & Hst & _ & Hres).
  exists i, s, e, plo, phi. cbv zeta. rewrite <- Hpts.
  repeat (split; [done |]).
  split; [| done]. by apply (RoundedFacts.parameter_range rnd Hrnd).
Qed.

Lemma pointAtProgress_on_segment_witness :
  exists geom,
    Rounded.buildRouteGeometry (fun x => x) cos samplePolyline = Some geom /\
    exists (i : nat) (s e : R) (plo phi : R * R),
      let target := JsNum.clamp01 0.25 * totalDist geom in
      let t := if Rlt_dec 0 (e - s) then (target - s) / (e - s) else 0 in
      samplePolyline !! i = Some plo /\ samplePolyline !! S i = Some phi /\
      cumDist geom !! i = Some s /\ cumDist geom !! S i = Some e /\
      s <= target <= e /\ 0 <= t <= 1 /\
      Rounded.pointAtProgress (fun x => x) geom 0.25 =
        Some (Rounded.lerp (fun x => x) plo.1 phi.1 t,
              Rounded.lerp (fun x => x) plo.2 phi.2 t).
Proof.
  eexists. split; [reflexivity |].
  apply (pointAtProgress_on_segment (fun x => x) cos samplePolyline _ 0.25);
    [apply RoundedFacts.exact_rounding | simpl; lia | repeat constructor
    | reflexivity].
Defined.

(** X2. In the arithmetic of doubles, on a geometry built from at least
    two vertices with double coordinates: when the distance searched for,
    the rounded product of the clamped progress and [totalDist], is the
    cumulative distance of a vertex whose next entry is greater,
    [pointAtProgress] returns exactly that vertex. *)
Theorem pointAtProgress_vertex (rnd Math_cos : R -> R)
    (coords : list (R * R)) (geom : RouteGeometry) (p : R)
    (i : nat) (c c' : R) (v : R * R) :
  Rounded.rounding rnd ->
  (2 <= length coords)%nat -> Forall (Rounded.is_vertex rnd) coords ->
  Rounded.buildRouteGeometry rnd Math_cos coords = Some geom ->
  coords !! i = Some v ->
  cumDist geom !! i = Some c -> cumDist geom !! S i = Some c' -> c < c' ->
  rnd (JsNum.clamp01 p * totalDist geom) = c ->
  Rounded.pointAtProgress rnd geom p = Some v.
Proof.
  intros Hrnd Hlen2 Hvs Hg Hv Hc Hc' Hlt Htarget.
  apply (RoundedFacts.buildRouteGeometry_table rnd Math_cos Hrnd) in Hg
    as [Hpts Ht]; [| done | done].
  pose proof Ht as [H2 Hlen H0 Hmono Hlast Hdbl Hvert].
  destruct (RoundedFacts.pointAtProgress_table rnd Hrnd geom p Ht)
    as (j & s & e & plo & phi & H). cbv zeta in H.
  destruct H as (Hs & He & Hpl & Hph & Hst & Hend & ->).
  rewrite Htarget in *. rewrite <- Hpts in Hv.
  assert (j = i) as ->.
  { destruct (Nat.lt_trichotomy j i) as [Hji | [-> | Hij]]; [| done |].
    - pose proof (Hmono (S j) i e c ltac:(lia) He Hc).
      apply lookup_lt_Some in Hc'. destruct Hend as [? | ?]; [lia | lra].
    - pose proof (Hmono (S i) j c' s ltac:(lia) Hc' Hs). lra. }
  assert (s = c) as -> by congruence.
  assert (plo = v) as -> by congruence.
  assert ((if Rlt_dec 0 (rnd (e - c))
           then rnd (rnd (c - c) / rnd (e - c)) else 0) = 0) as ->.
  { destruct (Rlt_dec _ _); [| done].
    rewrite Rminus_diag, (Rounded.rnd_0 rnd Hrnd). unfold Rdiv.
    rewrite Rmult_0_l. apply Rounded.rnd_0, Hrnd. }
  assert (Rounded.is_vertex rnd v) as [Hp1 Hp2].
  { rewrite Forall_forall in Hvert. apply Hvert.
    by eapply list_elem_of_lookup_2. }
  rewrite !(RoundedFacts.lerp_0 rnd Hrnd) by done. by destruct v.
Qed.

Lemma pointAtProgress_vertex_witness :
  exists geom c',
    Rounded.buildRouteGeometry (fun x => x) (fun _ => 1) samplePolyline
      = Some geom /\
    cumDist geom !! 1%nat = Some c' /\ 0 < c' /\
    Rounded.pointAtProgress (fun x => x) geom 0 = Some (0, 0).
Proof.
  eexists _, _. split; [reflexivity |]. split; [reflexivity |].
  assert (0 < 0 + Rounded.segDist (fun x => x) 1 (0, 0) (0, 1)) as Hpos.
  { unfold Rounded.segDist, M_PER_DEG_LAT. simpl.
    apply Rplus_le_lt_0_compat; [lra |]. apply sqrt_lt_R0. lra. }
  split; [exact Hpos |].
  apply (pointAtProgress_vertex (fun x => x) (fun _ => 1) samplePolyline _ 0
           0%nat 0 (0 + Rounded.segDist (fun x => x) 1 (0, 0) (0, 1)) (0, 0));
    [apply RoundedFacts.exact_rounding | simpl; lia | repeat constructor
    | reflexivity | reflexivity | reflexivity | reflexivity | exact Hpos |].
  rewrite (clamp01_id 0) by lra. lra.
Defined.

(** *** Bearings *)

Lemma atan2_range y x : - PI < JsNum.atan2 y x <= PI.
Proof.
  pose proof PI_RGT_0 as Hpi. unfold JsNum.atan2.
  pose proof (atan_bound (y / x)) as [Hlo Hhi].
  destruct (Rlt_dec 0 x) as [Hx | Hx]; [lra |].
  destruct (Rlt_dec x 0) as [Hx' | Hx'].
  - assert (/ x < 0) as Hinv by (by apply Rinv_lt_0_compat).
    destruct (Rle_dec 0 y) as [Hy | Hy].
    + assert (y / x <= 0) as Hq by (unfold Rdiv; nra).
      assert (atan (y / x) <= 0).
      { destruct Hq as [Hq | ->]; [| rewrite atan_0; lra].
        left. rewrite <- atan_0. by apply atan_increasing. }
      lra.
    + assert (0 < y / x) as Hq by (unfold Rdiv; nra).
      assert (0 < atan (y / x))
        by (rewrite <- atan_0; by apply atan_increasing).
      lra.
  - destruct (Rlt_dec 0 y); [lra |]. destruct (Rlt_dec y 0); lra.
Qed.

(** X3. The bearing of a route is a compass heading: on a built geometry
    [bearingAtProgress] returns a number in [0, 360). *)
Theorem bearingAtProgress_range (coords : list (R * R)) (geom : RouteGeometry)
    (p : R) :
  buildRouteGeometry coords = Some geom ->
  exists b, bearingAtProgress geom p = Some b /\ 0 <= b < 360.
Proof.
  intros Hg. apply buildRouteGeometry_built in Hg as [_ Hb].
  destruct (bearingAtProgress_defined geom p Hb) as [b Hbear].
  exists b. split; [done |].
  unfold bearingAtProgress in Hbear. cbv zeta in Hbear.
  destruct (pointAtProgress geom (Rmax 0 (p - 0.001))) as [p1 |]; [| done].
  destruct (pointAtProgress geom (Rmin 1 (p + 0.001))) as [p2 |]; [| done].
  injection Hbear as <-.
  pose proof PI_RGT_0 as Hpi.
  pose proof (atan2_range ((p2.2 - p1.2) * cos (p1.1 * DEG2RAD)) (p2.1 - p1.1))
    as [Hlo Hhi].
  set (a := JsNum.atan2 _ _) in *.
  apply rem_nonneg_range; [| lra].
  assert (- 180 < a * 180 / PI).
  { apply (Rmult_lt_reg_r PI); [done |]. unfold Rdiv.
    rewrite Rmult_assoc, Rinv_l by lra. lra. }
  lra.
Qed.

Lemma bearingAtProgress_range_witness :
  exists geom,
    buildRouteGeometry samplePolyline = Some geom /\
    exists b, bearingAtProgress geom 0.5 = Some b /\ 0 <= b < 360.
Proof.
  eexists. split; [reflexivity |].
  apply (bearingAtProgress_range samplePolyline _ 0.5). reflexivity.
Defined.

End GeometryMore.

(** * Properties of the animation loop *)

Module AnimationFacts.
Import Data Geometry VehicleLayer Animation Props Samples.
Import GeometryFacts GeometryMore.
Local Open Scope R_scope.

(** The arc swept by [lerpAngle] is the difference of the two angles
    brought into [-180, 180). *)
Lemma lerpDiff_spec from to :
  - 180 <= lerpDiff from to < 180 /\
  exists k : Z, lerpDiff from to = to - from + 360 * IZR k.
Proof.
  unfold lerpDiff.
  destruct (rem_decomp (to - from) 360 ltac:(lra)) as (q1 & Hq1 & Hpos & Hneg).
  set (a := JsNum.rem (to - from) 360) in *.
  assert (- 360 < a < 360) as Ha.
  { destruct (Rle_dec 0 (to - from)); [specialize (Hpos ltac:(lra)); lra |].
    specialize (Hneg ltac:(lra)). lra. }
  destruct (rem_nonneg_decomp (a + 540) 360 ltac:(lra) ltac:(lra))
    as (q2 & Hq2 & Hr).
  split; [lra |].
  exists (1 - q1 - q2)%Z. rewrite Hq2, Hq1, !minus_IZR. lra.
Qed.

(** X4. [lerpAngle] between two compass headings stays a compass heading
    and turns through the shorter arc: the result lies in [0, 360), the
    swept angle [lerpDiff from to] lies in [-180, 180) and is, within
    1e-9, [to - from] plus a whole number of turns, and the result is,
    within 1e-9, [from + lerpDiff from to * t] plus a whole number of
    turns.  (Over the reals both distances are 0; the tolerance leaves
    room for the rounding of the doubles of the code.) *)
Theorem lerpAngle_spec (from to t : R) :
  0 <= from < 360 -> 0 <= to < 360 -> 0 <= t <= 1 ->
  0 <= lerpAngle from to t < 360 /\
  - 180 <= lerpDiff from to < 180 /\
  (exists k : Z,
     Rabs (lerpDiff from to - (to - from + 360 * IZR k)) <= 1e-9) /\
  (exists k : Z,
     Rabs (lerpAngle from to t
           - (from + lerpDiff from to * t + 360 * IZR k)) <= 1e-9).
Proof.
  intros Hf Ht0 Ht.
  destruct (lerpDiff_spec from to) as [Hd [k Hk]].
  unfold lerpAngle. set (d := lerpDiff from to) in *.
  assert (- 180 <= d * t <= 180) as Hdt by nra.
  split; [apply rem_nonneg_range; lra |].
  split; [done |]. split.
  - exists k. rewrite Hk, Rminus_diag, Rabs_R0. lra.
  - destruct (rem_nonneg_decomp (from + d * t + 360) 360 ltac:(lra) ltac:(lra))
      as (q & Hq & _).
    exists (1 - q)%Z. rewrite Hq, minus_IZR.
    match goal with |- Rabs ?x <= _ => replace x with 0 by (simpl; lra) end.
    rewrite Rabs_R0. lra.
Qed.

Lemma lerpAngle_spec_witness :
  0 <= lerpAngle 350 10 0.5 < 360 /\
  - 180 <= lerpDiff 350 10 < 180 /\
  (exists k : Z,
     Rabs (lerpDiff 350 10 - (10 - 350 + 360 * IZR k)) <= 1e-9) /\
  (exists k : Z,
     Rabs (lerpAngle 350 10 0.5
           - (350 + lerpDiff 350 10 * 0.5 + 360 * IZR k)) <= 1e-9).
Proof. apply (lerpAngle_spec 350 10 0.5); lra. Defined.

End AnimationFacts.

(** * The animation frame *)

Module FrameFacts.
Import Data Geometry VehicleLayer Animation Props MoreProps Samples.
Import GeometryFacts GeometryMore AnimationFacts VehicleLayerFacts.
Local Open Scope R_scope.




Lemma easedOf_start : easedOf 0 = 0.
Proof.
  unfold easedOf, INTERP_DURATION, easeOutQuad.
  replace (0 / 1200) with 0 by field.
  rewrite Rmin_right by lra. ring.
Qed.

Lemma easedOf_done elapsed : INTERP_DURATION <= elapsed -> easedOf elapsed = 1.
Proof.
  unfold easedOf, INTERP_DURATION, easeOutQuad. intros He.
  rewrite Rmin_left; [ring |].
  apply (Rmult_le_reg_r 1200); [lra |].
  unfold Rdiv. rewrite Rmult_assoc, Rinv_l by lra. lra.
Qed.


Lemma inferTravelDir_defined geom prev target course :
  built geom -> exists dir, inferTravelDir geom prev target course = Some dir.
Proof.
  intros Hb. unfold inferTravelDir. destruct (Rlt_dec _ _); [eauto |].
  destruct (bearingAtProgress_defined geom target Hb) as [b ->]. eauto.
Qed.


(** The throttled writes of a frame leave the rendered state within
    the thresholds of the computed pose, keep the marker object, and keep
    the marker where the rendered position is. *)
Lemma applyPose_spec lat lon course progress tv :
  let tv' := applyPose lat lon course progress tv in
  Rabs (lat - currentLat tv') <= 0.0000005 /\
  Rabs (lon - currentLon tv') <= 0.0000005 /\
  Rabs (course - currentCourse tv') <= 0.3 /\
  currentProgress tv' = progress /\
  marker_id (marker tv') = marker_id (marker tv) /\
  (latlng (marker tv) = (currentLat tv, currentLon tv) ->
   latlng (marker tv') = (currentLat tv', currentLon tv')).
Proof.
  cbv zeta. unfold applyPose. cbv zeta.
  set (tv1 := setCurrent _ _ _ progress tv).
  set (tv2 := if bool_decide (_ \/ _) then _ else tv1).
  assert (Rabs (lat - currentLat tv2) <= 0.0000005 /\
          Rabs (lon - currentLon tv2) <= 0.0000005 /\
          currentProgress tv2 = progress /\
          marker_id (marker tv2) = marker_id (marker tv) /\
          (latlng (marker tv) = (currentLat tv, currentLon tv) ->
           latlng (marker tv2) = (currentLat tv2, currentLon tv2)))
    as (H1 & H2 & H3 & H4 & H5).
  { unfold tv2. destruct (bool_decide _) eqn:Hmove; simpl.
    - rewrite !Rminus_diag, Rabs_R0. repeat split; try done; lra.
    - apply bool_decide_eq_false in Hmove. simpl in Hmove.
      repeat split; try done; apply Rnot_lt_le; tauto. }
  destruct (bool_decide (0.3 < _)) eqn:Hturn; simpl.
  - rewrite Rminus_diag, Rabs_R0. repeat split; try done. lra.
  - apply bool_decide_eq_false in Hturn.
    repeat split; try done. by apply Rnot_lt_le.
Qed.

Lemma applyPose_same_targets lat lon course progress tv :
  same_targets tv (applyPose lat lon course progress tv).
Proof.
  unfold applyPose, same_targets. cbv zeta.
  repeat destruct (bool_decide _); simpl; repeat split; done.
Qed.


(** A routed vehicle is drawn at [routedProgress] on its route. *)
Lemma interpolateOne_routed now geoms tv rid g prev target :
  routeId tv = Some rid -> geoms !! rid = Some g -> built g ->
  prevProgress tv = Some prev -> targetProgress tv = Some target ->
  exists dir pos course,
    inferTravelDir g prev target (targetCourse tv) = Some dir /\
    pointAtProgress g
      (routedProgress g (elapsedOf now tv) prev target dir tv) = Some pos /\
    interpolateOne now geoms tv =
      Some (applyPose pos.1 pos.2 course
              (Some (routedProgress g (elapsedOf now tv) prev target dir tv)) tv).
Proof.
  intros Hrid Hg Hb Hprev Htarget.
  unfold interpolateOne, framePose. rewrite Hrid. simpl. rewrite Hg, Hprev, Htarget.
  destruct (inferTravelDir_defined g prev target (targetCourse tv) Hb) as [dir Hdir].
  rewrite Hdir. simpl.
  set (p := routedProgress _ _ _ _ _ _).
  destruct (pointAtProgress_defined g p Hb) as [pos Hpos].
  destruct (bearingAtProgress_defined g p Hb) as [c Hc].
  rewrite Hpos, Hc. simpl.
  exists dir, pos,
    (if bool_decide (dir < 0)%Z then JsNum.rem (c + 180) 360 else c).
  split; [done |]. split; [done |]. reflexivity.
Qed.

Section routed.
Variables (now : R) (geoms : gmap Z RouteGeometry) (tv : TrackedVehicle).
Variables (rid : Z) (coords : list (R * R)) (g : RouteGeometry).
Variables (prev target : R).
Hypothesis Hrid : routeId tv = Some rid.
Hypothesis Hg : geoms !! rid = Some g.
Hypothesis Hbuilt : buildRouteGeometry coords = Some g.
Hypothesis Hprev : prevProgress tv = Some prev.
Hypothesis Htarget : targetProgress tv = Some target.

(** X5. A frame draws a routed vehicle on its route: the new
    [currentProgress] lies in [0, 1], and the rendered position (which is
    where the marker is, if it was so before) is within 0.0000005 degrees
    of the route point at that progress. *)
Theorem frame_on_route :
  exists tv' p pos,
    interpolateOne now geoms tv = Some tv' /\
    currentProgress tv' = Some p /\ 0 <= p <= 1 /\
    pointAtProgress g p = Some pos /\
    Rabs (pos.1 - currentLat tv') <= 0.0000005 /\
    Rabs (pos.2 - currentLon tv') <= 0.0000005 /\
    (latlng (marker tv) = (currentLat tv, currentLon tv) ->
     latlng (marker tv') = (currentLat tv', currentLon tv')).
Proof.
  pose proof (buildRouteGeometry_built _ _ Hbuilt) as [_ Hb].
  destruct (interpolateOne_routed now geoms tv rid g prev target
              Hrid Hg Hb Hprev Htarget) as (dir & pos & c & Hdir & Hpos & ->).
  set (p := routedProgress _ _ _ _ _ _) in *.
  pose proof (applyPose_spec pos.1 pos.2 c (Some p) tv) as H. cbv zeta in H.
  destruct H as (H1 & H2 & _ & H4 & _ & H6).
  eexists _, p, pos. split; [reflexivity |].
  split; [done |]. split; [apply clamp01_range |]. done.
Qed.



End routed.

Lemma frame_on_route_witness :
  exists g,
    buildRouteGeometry samplePolyline = Some g /\
    exists tv' p pos,
      interpolateOne 600 {[15%Z := g]} (sampleTracked false) = Some tv' /\
      currentProgress tv' = Some p /\ 0 <= p <= 1 /\
      pointAtProgress g p = Some pos /\
      Rabs (pos.1 - currentLat tv') <= 0.0000005 /\
      Rabs (pos.2 - currentLon tv') <= 0.0000005 /\
      (latlng (marker (sampleTracked false))
         = (currentLat (sampleTracked false), currentLon (sampleTracked false)) ->
       latlng (marker tv') = (currentLat tv', currentLon tv')).
Proof.
  eexists. split; [reflexivity |].
  eapply (frame_on_route 600 _ (sampleTracked false) 15 samplePolyline _ 0.25 0.5);
    [reflexivity | apply lookup_singleton_eq | reflexivity | reflexivity
    | reflexivity].
Defined.




(** X8. Without a route geometry a frame interpolates the raw position
    linearly: from 1200 ms after the update the rendered position is
    within 0.0000005 degrees of the target position and the progress is
    the target progress. *)
Theorem frame_fallback_reaches_target (now : R) (geoms : gmap Z RouteGeometry)
    (tv : TrackedVehicle) :
  (routeId tv = None \/ exists rid, routeId tv = Some rid /\ geoms !! rid = None) ->
  exists tv',
    interpolateOne now geoms tv = Some tv' /\
    currentProgress tv' = targetProgress tv /\
    (updateTime tv + INTERP_DURATION <= now ->
     Rabs (targetLat tv - currentLat tv') <= 0.0000005 /\
     Rabs (targetLon tv - currentLon tv') <= 0.0000005) /\
    (now <= updateTime tv ->
     Rabs (prevLat tv - currentLat tv') <= 0.0000005 /\
     Rabs (prevLon tv - currentLon tv') <= 0.0000005).
Proof.
  intros Hno.
  assert ((rid ← routeId tv; geoms !! rid) = None) as Hgeom.
  { destruct Hno as [-> | (rid & -> & Hn)]; [done | exact Hn]. }
  unfold interpolateOne, framePose. rewrite Hgeom. simpl.
  set (e := easedOf (elapsedOf now tv)).
  pose proof (applyPose_spec (prevLat tv + (targetLat tv - prevLat tv) * e)
    (prevLon tv + (targetLon tv - prevLon tv) * e)
    (lerpAngle (prevCourse tv) (targetCourse tv) e) (targetProgress tv) tv) as H.
  cbv zeta in H. set (tv' := applyPose _ _ _ _ tv) in *.
  destruct H as (H1 & H2 & _ & H4 & _).
  exists tv'. split; [reflexivity |]. split; [exact H4 |]. split.
  - intros Hnow. assert (e = 1) as He.
    { unfold e. apply easedOf_done. unfold elapsedOf.
      apply Rle_trans with (now - updateTime tv); [lra | apply Rmax_r]. }
    rewrite He in H1, H2.
    replace (prevLat tv + (targetLat tv - prevLat tv) * 1) with (targetLat tv)
      in H1 by ring.
    replace (prevLon tv + (targetLon tv - prevLon tv) * 1) with (targetLon tv)
      in H2 by ring. done.
  - intros Hnow. assert (e = 0) as He.
    { unfold e, elapsedOf. rewrite Rmax_left by lra. apply easedOf_start. }
    rewrite He in H1, H2.
    replace (prevLat tv + (targetLat tv - prevLat tv) * 0) with (prevLat tv)
      in H1 by ring.
    replace (prevLon tv + (targetLon tv - prevLon tv) * 0) with (prevLon tv)
      in H2 by ring. done.
Qed.

Lemma frame_fallback_reaches_target_witness :
  exists tv',
    interpolateOne 1500 ∅ (sampleTracked false) = Some tv' /\
    currentProgress tv' = targetProgress (sampleTracked false) /\
    (updateTime (sampleTracked false) + INTERP_DURATION <= 1500 ->
     Rabs (targetLat (sampleTracked false) - currentLat tv') <= 0.0000005 /\
     Rabs (targetLon (sampleTracked false) - currentLon tv') <= 0.0000005) /\
    (1500 <= updateTime (sampleTracked false) ->
     Rabs (prevLat (sampleTracked false) - currentLat tv') <= 0.0000005 /\
     Rabs (prevLon (sampleTracked false) - currentLon tv') <= 0.0000005).
Proof.
  apply (frame_fallback_reaches_target 1500 ∅ (sampleTracked false)).
  right. exists 15%Z. split; [reflexivity | apply lookup_empty].
Defined.

(** Every iteration of the loop succeeds on a layer whose geometries are
    built, and changes nothing but the rendered fields. *)
Lemma interpolateOne_defined now geoms tv :
  (forall rid g, geoms !! rid = Some g -> built g) ->
  exists tv', interpolateOne now geoms tv = Some tv' /\ same_targets tv tv'.
Proof.
  intros Hb.
  destruct (routeId tv) as [rid |] eqn:Hrid.
  - destruct (geoms !! rid) as [g |] eqn:Hg.
    + destruct (prevProgress tv) as [prev |] eqn:Hprev.
      * destruct (targetProgress tv) as [target |] eqn:Htarget.
        -- destruct (interpolateOne_routed now geoms tv rid g prev target
                       Hrid Hg (Hb _ _ Hg) Hprev Htarget)
             as (dir & pos & c & _ & _ & ->).
           eexists. split; [reflexivity | apply applyPose_same_targets].
        -- unfold interpolateOne, framePose. rewrite Hrid. simpl.
           rewrite Hg, Hprev, Htarget. simpl.
           eexists. split; [reflexivity | apply applyPose_same_targets].
      * unfold interpolateOne, framePose. rewrite Hrid. simpl.
        rewrite Hg, Hprev. simpl.
        eexists. split; [reflexivity | apply applyPose_same_targets].
    + unfold interpolateOne, framePose. rewrite Hrid. simpl. rewrite Hg. simpl.
      eexists. split; [reflexivity | apply applyPose_same_targets].
  - unfold interpolateOne, framePose. rewrite Hrid. simpl.
    eexists. split; [reflexivity | apply applyPose_same_targets].
Qed.

(** X9. An animation frame never creates or removes a marker: on a
    well-formed layer [interpolateAll] succeeds, keeps the layer
    well-formed, keeps the layer group, the geometry index and the tracked
    ids, and for every tracked vehicle keeps the marker object, the icon,
    the popup, the previous and the target fields. *)
Theorem interpolateAll_keeps_markers (now : R) (l : t) :
  layer_wf l ->
  exists l',
    interpolateAll now l = Some l' /\
    layer_wf l' /\
    layerGroup l' = layerGroup l /\
    routeGeometries l' = routeGeometries l /\
    nextMarker l' = nextMarker l /\
    dom (tracked l') = dom (tracked l) /\
    (forall k tv, tracked l !! k = Some tv ->
       exists tv', tracked l' !! k = Some tv' /\
                   interpolateOne now (routeGeometries l) tv = Some tv' /\
                   same_targets tv tv').
Proof.
  intros [Hb [Hin Hinj]]. unfold interpolateAll. cbv zeta.
  set (frames := interpolateOne now (routeGeometries l) <$> tracked l).
  assert (forall k tv, tracked l !! k = Some tv ->
            exists tv', omap (fun o => o) frames !! k = Some tv' /\
                        interpolateOne now (routeGeometries l) tv = Some tv' /\
                        same_targets tv tv') as Hkeep.
  { intros k tv Hk.
    destruct (interpolateOne_defined now (routeGeometries l) tv Hb) as (tv' & Hone & Hsame).
    exists tv'. split; [| done].
    rewrite lookup_omap. unfold frames. rewrite lookup_fmap, Hk. simpl. done. }
  assert (forall k tv', omap (fun o => o) frames !! k = Some tv' ->
            exists tv, tracked l !! k = Some tv /\ same_targets tv tv') as Hback.
  { intros k tv' Hk. rewrite lookup_omap in Hk. unfold frames in Hk.
    rewrite lookup_fmap in Hk.
    destruct (tracked l !! k) as [tv |] eqn:Hold; [| done].
    destruct (Hkeep k tv Hold) as (tv'' & Hk'' & _ & Hsame).
    rewrite lookup_omap in Hk''. unfold frames in Hk''.
    rewrite lookup_fmap, Hold in Hk''. simpl in *.
    exists tv. split; [done |]. congruence. }
  rewrite decide_True.
  2:{ intros k o Hk. unfold frames in Hk. rewrite lookup_fmap in Hk.
      destruct (tracked l !! k) as [tv |] eqn:Hold; [| done].
      simpl in Hk. injection Hk as <-.
      destruct (interpolateOne_defined now (routeGeometries l) tv Hb) as (tv' & -> & _).
      eauto. }
  eexists. split; [reflexivity |]. simpl.
  split; [| split; [done | split; [done | split; [done | split; [| done]]]]].
  - split; [done |]. split; simpl.
    + intros k tv' Hk. destruct (Hback k tv' Hk) as (tv & Hold & Hsame).
      destruct Hsame as (-> & _). by apply (Hin k).
    + intros k1 k2 tv1 tv2 Hk1 Hk2.
      destruct (Hback k1 tv1 Hk1) as (t1 & Ho1 & (-> & _)).
      destruct (Hback k2 tv2 Hk2) as (t2 & Ho2 & (-> & _)).
      by apply (Hinj k1 k2 t1 t2).
  - apply set_eq. intros k. rewrite !elem_of_dom. split.
    + intros [tv' Hk]. destruct (Hback k tv' Hk) as (tv & Hold & _). eauto.
    + intros [tv Hk]. destruct (Hkeep k tv Hk) as (tv' & Hk' & _). eauto.
Qed.

Lemma interpolateAll_keeps_markers_witness :
  exists l',
    interpolateAll 0 new = Some l' /\
    layer_wf l' /\
    layerGroup l' = layerGroup new /\
    routeGeometries l' = routeGeometries new /\
    nextMarker l' = nextMarker new /\
    dom (tracked l') = dom (tracked new) /\
    (forall k tv, tracked new !! k = Some tv ->
       exists tv', tracked l' !! k = Some tv' /\
                   interpolateOne 0 (routeGeometries new) tv = Some tv' /\
                   same_targets tv tv').
Proof. apply (interpolateAll_keeps_markers 0 new), new_wf. Defined.

End FrameFacts.

(** * More on the vehicle layer *)

Module LayerMore.
Import Data Geometry VehicleLayer Animation Props MoreProps Samples.
Import GeometryFacts GeometryMore VehicleLayerFacts FrameFacts StateFacts.
Local Open Scope R_scope.

(** *** [loadRoutes] *)

Lemma loadLoop_spec rs : forall acc,
  exists gs,
    loadLoop rs acc = Some gs /\
    (forall rid g, gs !! rid = Some g ->
       acc !! rid = Some g \/
       exists r coords, r ∈ rs /\ r_id r = rid /\ usable r coords /\
                        buildRouteGeometry coords = Some g) /\
    (forall rid, is_Some (acc !! rid) -> is_Some (gs !! rid)) /\
    (forall r coords, r ∈ rs -> usable r coords -> is_Some (gs !! r_id r)).
Proof.
  induction rs as [| r rs IH]; intros acc.
  - exists acc. simpl. split; [done |]. split; [by left |]. split; [done |].
    intros r coords Hr. by apply elem_of_nil in Hr.
  - assert (forall acc',
      loadLoop rs acc' = loadLoop (r :: rs) acc ->
      (forall rid g, acc' !! rid = Some g ->
         acc !! rid = Some g \/
         exists coords, r_id r = rid /\ usable r coords /\
                        buildRouteGeometry coords = Some g) ->
      (forall rid, is_Some (acc !! rid) -> is_Some (acc' !! rid)) ->
      (forall coords, usable r coords -> is_Some (acc' !! r_id r)) ->
      exists gs,
        loadLoop (r :: rs) acc = Some gs /\
        (forall rid g, gs !! rid = Some g ->
           acc !! rid = Some g \/
           exists r' coords, r' ∈ r :: rs /\ r_id r' = rid /\ usable r' coords /\
                             buildRouteGeometry coords = Some g) /\
        (forall rid, is_Some (acc !! rid) -> is_Some (gs !! rid)) /\
        (forall r' coords, r' ∈ r :: rs -> usable r' coords ->
           is_Some (gs !! r_id r'))) as Hstep.
    { intros acc' Heq Hfrom Hkeep Hnew.
      destruct (IH acc') as (gs & Hrun & H1 & H2 & H3).
      exists gs. rewrite <- Heq. split; [done |]. split; [| split].
      - intros rid g Hg. destruct (H1 rid g Hg) as [Ha | (r' & c & Hr' & ?)].
        + destruct (Hfrom rid g Ha) as [? | (c & ? & ? & ?)]; [by left |].
          right. exists r, c. split; [by left | done].
        + right. exists r', c. split; [by right | done].
      - intros rid Hs. by apply H2, Hkeep.
      - intros r' c [-> | Hr']%elem_of_cons Hu.
        + apply H2. by eapply Hnew.
        + by eapply H3. }
    destruct (r_geometry r) as [coords |] eqn:Hgeo.
    + destruct (bool_decide (2 <= length coords)%nat) eqn:Hlen.
      * apply bool_decide_eq_true in Hlen.
        destruct (buildRouteGeometry_defined coords) as [geom Hgeom].
        { intros ->. simpl in Hlen. lia. }
        apply (Hstep (<[r_id r := geom]> acc)).
        -- simpl. rewrite Hgeo, bool_decide_eq_true_2, Hgeom by done. done.
        -- intros rid g [[<- <-] | [_ ?]]%lookup_insert_Some; [| by left].
           right. exists coords. done.
        -- intros rid Hs. destruct (decide (r_id r = rid)) as [<- | Hne].
           ++ rewrite lookup_insert_eq. eauto.
           ++ by rewrite lookup_insert_ne.
        -- intros _ _. rewrite lookup_insert_eq. eauto.
      * apply bool_decide_eq_false in Hlen. apply (Hstep acc).
        -- simpl. rewrite Hgeo, bool_decide_eq_false_2 by done. done.
        -- by left.
        -- done.
        -- intros c [Hc1 Hc2]. rewrite Hgeo in Hc1. injection Hc1 as <-. done.
    + apply (Hstep acc).
      * simpl. by rewrite Hgeo.
      * by left.
      * done.
      * intros c [Hc1 _]. by rewrite Hgeo in Hc1.
Qed.

(** X10. [loadRoutes] discards the old index and never fails: the new
    index has an entry exactly for the ids of the routes that come with a
    geometry of at least two points, each entry is built from the geometry
    of such a route, and the markers are untouched. *)
Theorem loadRoutes_spec (rs : list RouteInfo) (l : t) :
  exists l',
    loadRoutes rs l = Some l' /\
    tracked l' = tracked l /\ layerGroup l' = layerGroup l /\
    nextMarker l' = nextMarker l /\
    geoms_built l' /\
    (forall rid,
       is_Some (routeGeometries l' !! rid) <->
       exists r coords, r ∈ rs /\ r_id r = rid /\ usable r coords) /\
    (forall rid g, routeGeometries l' !! rid = Some g ->
       exists r coords, r ∈ rs /\ r_id r = rid /\ usable r coords /\
                        buildRouteGeometry coords = Some g).
Proof.
  unfold loadRoutes.
  destruct (loadLoop_spec rs ∅) as (gs & -> & Hfrom & _ & Hnew). simpl.
  assert (forall rid g, gs !! rid = Some g ->
            exists r coords, r ∈ rs /\ r_id r = rid /\ usable r coords /\
                             buildRouteGeometry coords = Some g) as Hfrom'.
  { intros rid g Hg. destruct (Hfrom rid g Hg) as [He | ?]; [| done].
    by rewrite lookup_empty in He. }
  eexists. split; [reflexivity |]. simpl.
  split; [done |]. split; [done |]. split; [done |]. split; [| split; [| done]].
  - intros rid g Hg. destruct (Hfrom' rid g Hg) as (r & c & _ & _ & _ & Hbuild).
    by apply buildRouteGeometry_built in Hbuild as [_ ?].
  - intros rid. split.
    + intros [g Hg]. destruct (Hfrom' rid g Hg) as (r & c & ? & ? & ? & _). eauto.
    + intros (r & c & Hr & <- & Hu). by eapply Hnew.
Qed.

(** *** [update] of a tracked vehicle *)

Lemma snapPosition_defined geom v :
  (forall g, geom = Some g -> built g) ->
  exists lat lon c, snapPosition geom v = Some (lat, lon, c).
Proof.
  intros Hb. unfold snapPosition. destruct geom as [g |]; [| eauto].
  destruct (v_progress v) as [pr |]; [| eauto].
  by apply routedPosition_defined.
Qed.

Lemma same_route_signal (r r' : string) (b b' : bool) :
  bool_decide (r <> r' \/ b <> b') = false -> r = r' /\ b = b'.
Proof.
  intros H%bool_decide_eq_false.
  destruct (decide (r = r')) as [-> | Hr]; [| exfalso; apply H; by left].
  destruct (decide (b = b')) as [-> | Hb']; [done | exfalso; apply H; by right].
Qed.

Local Ltac icon_case :=
  let Hic := fresh "Hic" in
  destruct (bool_decide (_ <> _ \/ _ <> _)) eqn:Hic; simpl;
  [| apply same_route_signal in Hic as [? ?]]; repeat split; try done.

(** What the branch for a tracked vehicle leaves behind. *)
Lemma updateExisting_spec now geom v tv :
  (forall g, geom = Some g -> built g) ->
  exists tv' lat lon c pr0,
    updateExisting now geom v tv = Some tv' /\
    (if teleports v tv
     then snapPosition geom v = Some (lat, lon, c) /\ pr0 = v_progress v /\
          latlng (marker tv') = (lat, lon) /\ heading (marker tv') = c
     else lat = currentLat tv /\ lon = currentLon tv /\ c = currentCourse tv /\
          pr0 = currentProgress tv /\
          latlng (marker tv') = latlng (marker tv) /\
          heading (marker tv') = heading (marker tv)) /\
    prevLat tv' = lat /\ prevLon tv' = lon /\ prevCourse tv' = c /\
    prevProgress tv' = pr0 /\
    currentLat tv' = lat /\ currentLon tv' = lon /\ currentCourse tv' = c /\
    currentProgress tv' = pr0 /\
    targetProgress tv' =
      match geom, v_progress v, pr0 with
      | Some _, None, Some cp => Some cp
      | _, _, _ => v_progress v
      end /\
    icon (marker tv') =
      (if bool_decide (route tv <> v_route v \/ signalLost tv <> v_signal_lost v)
       then createIcon (v_route v) (v_signal_lost v) else icon (marker tv)) /\
    carries now v tv' /\ mid tv' = mid tv.
Proof.
  intros Hb. unfold updateExisting, teleports, carries. cbv zeta.
  destruct (snapPosition_defined geom v Hb) as (lat & lon & c & Hsnap).
  destruct (bool_decide (routeId tv <> v_route_id v)) eqn:Hrc; cbn [orb negb andb].
  - exists
      (let tv3 := snapTo lat lon c (v_progress v)
                    (setPrev (currentLat tv) (currentLon tv) (currentCourse tv)
                             (currentProgress tv) tv) in
       let tv4 := setTarget v
                    match geom, v_progress v, v_progress v with
                    | Some _, None, Some cp => Some cp
                    | _, _, _ => v_progress v
                    end now tv3 in
       let tv5 :=
         if bool_decide (route tv4 <> v_route v \/ signalLost tv4 <> v_signal_lost v)
         then setRouteSignal v
                (setMarker (setIcon (createIcon (v_route v) (v_signal_lost v))
                                    (marker tv4)) tv4)
         else tv4 in
       setMarker (setPopupContent v (marker tv5)) tv5), lat, lon, c, (v_progress v).
    split.
    + unfold snapPosition in Hsnap.
      destruct geom as [g |]; destruct (v_progress v) as [pr |] eqn:Hpr;
        try rewrite Hsnap; injection Hsnap as <- <- <- || idtac; simpl; done.
    + cbv zeta. simpl. icon_case.
  - destruct (match currentProgress tv, v_progress v with
              | Some pp, Some pr =>
                  bool_decide (MAX_ANIM_PROGRESS_DELTA < Rabs (pr - pp))%R
              | _, _ => false
              end) eqn:Hjump.
    + destruct (currentProgress tv) as [pp |] eqn:Hpp; [| done].
      destruct (v_progress v) as [pr |] eqn:Hpr; [| done].
      assert (routedPosition geom v pr = Some (lat, lon, c)) as Hrp.
      { revert Hsnap. unfold snapPosition. rewrite Hpr. by destruct geom. }
      simpl. rewrite ?Hpp, ?Hpr, ?Hjump. simpl. rewrite ?Hjump, Hrp. simpl.
      eexists _, lat, lon, c, (Some pr). split; [reflexivity |].
      rewrite ?Hpr. destruct geom; icon_case; by rewrite Hpr.
    + simpl.
      assert (match currentProgress tv, v_progress v with
              | Some pp, Some pr =>
                  if bool_decide (MAX_ANIM_PROGRESS_DELTA < Rabs (pr - pp))%R
                  then '(lat, lon, c) ← routedPosition geom v pr;
                       Some (snapTo lat lon c (Some pr)
                               (setPrev (currentLat tv) (currentLon tv)
                                  (currentCourse tv) (currentProgress tv) tv))
                  else Some (setPrev (currentLat tv) (currentLon tv)
                                  (currentCourse tv) (currentProgress tv) tv)
              | _, _ => Some (setPrev (currentLat tv) (currentLon tv)
                                  (currentCourse tv) (currentProgress tv) tv)
              end = Some (setPrev (currentLat tv) (currentLon tv)
                                  (currentCourse tv) (currentProgress tv) tv)) as ->.
      { destruct (currentProgress tv); [| done].
        destruct (v_progress v); [| done]. by rewrite Hjump. }
      simpl.
      eexists _, (currentLat tv), (currentLon tv), (currentCourse tv),
              (currentProgress tv).
      split; [reflexivity |].
      icon_case.
Qed.

(** What the branch for a vehicle seen first leaves behind. *)
Lemma createTracked_spec now geom v fresh :
  (forall g, geom = Some g -> built g) ->
  exists tv' lat lon c,
    createTracked now geom v fresh = Some tv' /\
    snapPosition geom v = Some (lat, lon, c) /\
    at_rest lat lon c (v_progress v) tv' /\
    targetProgress tv' = v_progress v /\
    marker_ok tv' /\ carries now v tv' /\ mid tv' = fresh.
Proof.
  intros Hb. destruct (snapPosition_defined geom v Hb) as (lat & lon & c & Hsnap).
  unfold createTracked. fold (snapPosition geom v). rewrite Hsnap. simpl.
  eexists _, lat, lon, c. split; [reflexivity |]. split; [done |].
  unfold at_rest, marker_ok, carries. simpl. repeat split; done.
Qed.

(** *** The loop of [update] *)

Lemma updateLoop_app now vs1 vs2 : forall st,
  updateLoop now (vs1 ++ vs2) st
  = st' ← updateLoop now vs1 st; updateLoop now vs2 st'.
Proof.
  induction vs1 as [| v vs1 IH]; intros st; [done |].
  cbn [app updateLoop]. destruct (updateOne now v st) as [st1 |]; [| done].
  cbn [mbind option_bind]. apply IH.
Qed.

(** The loop touches only the entries of the vehicles it goes through,
    and never the geometry index. *)
Lemma updateLoop_other now k vs : forall l seen l1 seen1,
  layer_wf l ->
  updateLoop now vs (l, seen) = Some (l1, seen1) ->
  routeGeometries l1 = routeGeometries l /\
  (k ∉ v_id <$> vs -> tracked l1 !! k = tracked l !! k).
Proof.
  induction vs as [| v vs IH]; intros l seen l1 seen1 Hwf Hrun.
  - injection Hrun as <- _. done.
  - cbn [updateLoop] in Hrun. pose proof Hwf as [Hb _].
    destruct (updateOne_spec now v l seen Hb) as (l0 & tv0 & Hone & Hg & Ht & _).
    rewrite Hone in Hrun. cbn [mbind option_bind] in Hrun.
    pose proof (updateOne_wf _ _ _ _ _ _ Hwf Hone) as Hwf0.
    destruct (IH _ _ _ _ Hwf0 Hrun) as [Hg1 Hk1].
    split; [congruence |].
    rewrite fmap_cons, not_elem_of_cons. intros [Hne Hnot].
    rewrite (Hk1 Hnot), Ht. by rewrite lookup_insert_ne.
Qed.

Lemma latest_split k vs v :
  latest k vs = Some v ->
  exists vs1 vs2, vs = vs1 ++ v :: vs2 /\ v_id v = k /\ k ∉ v_id <$> vs2.
Proof.
  induction vs as [| a vs IH]; [done |].
  destruct (latest k vs) as [w |] eqn:Hrest.
  - intros Hl.
    assert (v = w) as ->.
    { revert Hl Hrest. unfold latest. rewrite filter_cons.
      destruct (decide _); [| congruence].
      destruct (filter _ vs) as [| b bs]; [done |].
      rewrite last_cons_cons. congruence. }
    destruct (IH eq_refl) as (vs1 & vs2 & -> & Hid & Hnot).
    by exists (a :: vs1), vs2.
  - intros Hl. apply latest_None in Hrest as Hnot.
    assert (v = a /\ v_id a = k) as [-> Hid].
    { revert Hl Hrest. unfold latest. rewrite filter_cons.
      destruct (decide _) as [Hid |]; [| congruence].
      intros Hl Hnil%last_None. rewrite Hnil in Hl. by injection Hl as ->. }
    by exists [], vs.
Qed.

(** The entry that [update] leaves for a vehicle of the frame comes from
    the last occurrence of its id, applied to [tracked] as the earlier
    part of the frame left it. *)
Lemma update_entry now vs1 v vs2 l :
  layer_wf l -> v_id v ∉ v_id <$> vs2 ->
  exists lmid seen l' tv',
    updateLoop now vs1 (l, ∅) = Some (lmid, seen) /\
    (v_id v ∉ v_id <$> vs1 -> tracked lmid !! v_id v = tracked l !! v_id v) /\
    update now (vs1 ++ v :: vs2) l = Some l' /\
    routeGeometries l' = routeGeometries l /\
    tracked l' !! v_id v = Some tv' /\
    match tracked lmid !! v_id v with
    | Some tv => updateExisting now (geometryOf l v) v tv = Some tv'
    | None => createTracked now (geometryOf l v) v (nextMarker lmid) = Some tv'
    end.
Proof.
  intros Hwf Hnot.
  destruct (updateLoop_spec now vs1 l ∅ Hwf) as (lmid & Hrun1 & Hwf1 & _).
  destruct (updateLoop_other now (v_id v) vs1 _ _ _ _ Hwf Hrun1) as [Hg1 Hk1].
  set (seen1 := list_to_set (v_id <$> vs1) ∪ ∅ : gset string) in *.
  assert (geometryOf lmid v = geometryOf l v) as Hgeo
    by (unfold geometryOf; by rewrite Hg1).
  pose proof Hwf1 as [Hb1 _].
  assert (exists l2 tv',
    updateOne now v (lmid, seen1) = Some (l2, {[v_id v]} ∪ seen1) /\
    tracked l2 !! v_id v = Some tv' /\
    match tracked lmid !! v_id v with
    | Some tv => updateExisting now (geometryOf l v) v tv = Some tv'
    | None => createTracked now (geometryOf l v) v (nextMarker lmid) = Some tv'
    end) as (l2 & tv' & Hone & Hk2 & Hfrom).
  { unfold updateOne. rewrite Hgeo.
    pose proof (geometryOf_built lmid v Hb1) as Hgb. rewrite Hgeo in Hgb.
    destruct (tracked lmid !! v_id v) as [tv |].
    - destruct (updateExisting_defined now (geometryOf l v) v tv Hgb) as (tv' & Hup & _).
      rewrite Hup. simpl. eexists _, tv'. split; [reflexivity |].
      simpl. by rewrite lookup_insert_eq.
    - destruct (createTracked_defined now (geometryOf l v) v (nextMarker lmid) Hgb)
        as (tv' & Hup & _).
      rewrite Hup. simpl. eexists _, tv'. split; [reflexivity |].
      simpl. by rewrite lookup_insert_eq. }
  pose proof (updateOne_wf _ _ _ _ _ _ Hwf1 Hone) as Hwf2.
  destruct (updateLoop_spec now vs2 l2 ({[v_id v]} ∪ seen1) Hwf2)
    as (l3 & Hrun3 & _).
  destruct (updateLoop_other now (v_id v) vs2 _ _ _ _ Hwf2 Hrun3) as [Hg3 Hk3].
  assert (routeGeometries l2 = routeGeometries lmid) as Hg2.
  { destruct (updateOne_spec now v lmid seen1 Hb1) as (l2' & ? & Hone' & ? & _).
    rewrite Hone in Hone'. by injection Hone' as <-. }
  exists lmid, seen1.
  eexists _, tv'. split; [done |]. split; [done |]. split.
  { unfold update. rewrite updateLoop_app, Hrun1. cbn [mbind option_bind updateLoop].
    rewrite Hone. cbn [mbind option_bind]. rewrite Hrun3. reflexivity. }
  split; [simpl; congruence |]. split; [| done].
  simpl. apply map_lookup_filter_Some. split; [by rewrite (Hk3 Hnot) |].
  simpl. apply elem_of_union. right. apply elem_of_union. left.
  by apply elem_of_singleton.
Qed.

Lemma update_entry_nodup now vs v l :
  layer_wf l -> NoDup (v_id <$> vs) -> v ∈ vs ->
  exists l' tv',
    update now vs l = Some l' /\
    routeGeometries l' = routeGeometries l /\
    tracked l' !! v_id v = Some tv' /\
    match tracked l !! v_id v with
    | Some tv => updateExisting now (geometryOf l v) v tv = Some tv'
    | None => exists fresh, createTracked now (geometryOf l v) v fresh = Some tv'
    end.
Proof.
  intros Hwf Hnd (vs1 & vs2 & ->)%list_elem_of_split.
  rewrite fmap_app, fmap_cons in Hnd.
  apply NoDup_app in Hnd as (_ & Hdisj & [Hnot2 _]%NoDup_cons).
  assert (v_id v ∉ v_id <$> vs1) as Hnot1.
  { intros Hin. apply (Hdisj _ Hin). by left. }
  destruct (update_entry now vs1 v vs2 l Hwf Hnot2)
    as (lmid & seen & l' & tv' & _ & Hsame & Hup & Hg & Hk & Hfrom).
  exists l', tv'. split; [done |]. split; [done |]. split; [done |].
  rewrite (Hsame Hnot1) in Hfrom.
  destruct (tracked l !! v_id v); eauto.
Qed.

Lemma sampleLayer_wf g : built g -> layer_wf (sampleLayer g).
Proof.
  intros Hb. unfold layer_wf, geoms_built, markers_wf, sampleLayer. simpl.
  split; [| split].
  - intros rid g' [_ <-]%lookup_singleton_Some. done.
  - intros k tv [_ <-]%lookup_singleton_Some. simpl.
    split; [by apply elem_of_singleton | lia].
  - intros k1 k2 tv1 tv2 [<- _]%lookup_singleton_Some [<- _]%lookup_singleton_Some.
    done.
Qed.

(** X11. After [update], the entry of every vehicle of the frame carries
    the data of the last occurrence of its id in the frame: target
    position, course and speed, route and signal state, the time of the
    update, whether the server sent a progress, and the popup. *)
Theorem update_carries_latest (now : R) (vs : list VehicleData) (l : t)
    (k : string) (v : VehicleData) :
  layer_wf l -> latest k vs = Some v ->
  exists l' tv',
    update now vs l = Some l' /\ tracked l' !! k = Some tv' /\
    carries now v tv'.
Proof.
  intros Hwf (vs1 & vs2 & -> & <- & Hnot)%latest_split.
  destruct (update_entry now vs1 v vs2 l Hwf Hnot)
    as (lmid & seen & l' & tv' & _ & _ & Hup & _ & Hk & Hfrom).
  exists l', tv'. split; [done |]. split; [done |].
  pose proof Hwf as [Hb _]. pose proof (geometryOf_built l v Hb) as Hgb.
  destruct (tracked lmid !! v_id v) as [tv |].
  - destruct (updateExisting_spec now (geometryOf l v) v tv Hgb)
      as (tv1 & ? & ? & ? & ? & Hup1 & H).
    assert (tv1 = tv') as -> by congruence. tauto.
  - destruct (createTracked_spec now (geometryOf l v) v (nextMarker lmid) Hgb)
      as (tv1 & ? & ? & ? & Hup1 & H).
    assert (tv1 = tv') as -> by congruence. tauto.
Qed.

Lemma update_carries_latest_witness :
  exists l' tv',
    update 0 [sampleVehicle] new = Some l' /\
    tracked l' !! "tram-1"%string = Some tv' /\
    carries 0 sampleVehicle tv'.
Proof.
  apply (update_carries_latest 0 [sampleVehicle] new "tram-1" sampleVehicle);
    [apply new_wf | reflexivity].
Defined.

(** X12. A vehicle of the frame that is new to the layer, or whose route
    changed, or whose progress jumped by more than 5 % of the route, is
    placed without animation: previous state, rendered state and marker
    are all put at one pose, which is the point and bearing of the route
    at the reported progress when the layer has the geometry of the route
    and the server sent a progress, and the raw fix otherwise. *)
Theorem update_places (now : R) (vs : list VehicleData) (l : t)
    (v : VehicleData) :
  layer_wf l -> NoDup (v_id <$> vs) -> v ∈ vs ->
  (forall tv, tracked l !! v_id v = Some tv -> teleports v tv = true) ->
  exists l' tv' lat lon c,
    update now vs l = Some l' /\ tracked l' !! v_id v = Some tv' /\
    at_rest lat lon c (v_progress v) tv' /\
    (forall g pr, geometryOf l v = Some g -> v_progress v = Some pr ->
       pointAtProgress g pr = Some (lat, lon) /\
       bearingAtProgress g pr = Some c) /\
    (geometryOf l v = None \/ v_progress v = None ->
       (lat, lon, c) = (v_lat v, v_lon v, v_course v)).
Proof.
  intros Hwf Hnd Hin Htel.
  destruct (update_entry_nodup now vs v l Hwf Hnd Hin)
    as (l' & tv' & Hup & _ & Hk & Hfrom).
  pose proof Hwf as [Hb _]. pose proof (geometryOf_built l v Hb) as Hgb.
  assert (exists lat lon c,
    snapPosition (geometryOf l v) v = Some (lat, lon, c) /\
    at_rest lat lon c (v_progress v) tv') as (lat & lon & c & Hsnap & Hrest).
  { destruct (tracked l !! v_id v) as [tv |].
    - destruct (updateExisting_spec now (geometryOf l v) v tv Hgb)
        as (tv1 & lat & lon & c & pr0 & Hup1 & Hcase & H).
      assert (tv1 = tv') as -> by congruence.
      rewrite (Htel tv eq_refl) in Hcase. destruct Hcase as (Hsnap & -> & ? & ?).
      exists lat, lon, c. unfold at_rest. tauto.
    - destruct Hfrom as [fresh Hfrom].
      destruct (createTracked_spec now (geometryOf l v) v fresh Hgb)
        as (tv1 & lat & lon & c & Hup1 & Hsnap & Hrest & _).
      assert (tv1 = tv') as -> by congruence. eauto. }
  exists l', tv', lat, lon, c. split; [done |]. split; [done |]. split; [done |].
  unfold snapPosition, routedPosition in Hsnap. split.
  - intros g pr Hg Hpr. rewrite Hg, Hpr in Hsnap.
    destruct (pointAtProgress g pr) as [[a b] |]; [| done].
    destruct (bearingAtProgress g pr); [| done].
    simpl in Hsnap. by injection Hsnap as -> -> ->.
  - intros [Hg | Hpr].
    + rewrite Hg in Hsnap. by injection Hsnap as <- <- <-.
    + rewrite Hpr in Hsnap. destruct (geometryOf l v); by injection Hsnap as <- <- <-.
Qed.

Lemma update_places_witness :
  exists l' tv' lat lon c,
    update 0 [sampleVehicle] new = Some l' /\
    tracked l' !! v_id sampleVehicle = Some tv' /\
    at_rest lat lon c (v_progress sampleVehicle) tv' /\
    (forall g pr, geometryOf new sampleVehicle = Some g ->
       v_progress sampleVehicle = Some pr ->
       pointAtProgress g pr = Some (lat, lon) /\
       bearingAtProgress g pr = Some c) /\
    (geometryOf new sampleVehicle = None \/ v_progress sampleVehicle = None ->
       (lat, lon, c) = (v_lat sampleVehicle, v_lon sampleVehicle,
                        v_course sampleVehicle)).
Proof.
  apply (update_places 0 [sampleVehicle] new sampleVehicle);
    [apply new_wf | apply NoDup_singleton | by left | done].
Defined.

(** X13. On a layer whose geometries were built by [buildRouteGeometry]
    and whose vehicles have markers of their own, and for a frame with
    pairwise different vehicle ids: for a vehicle of the frame that is
    tracked, has the same route id and no progress jump of more than 5 %,
    the update leaves the marker where it is and restarts the animation
    from there: the previous state becomes the rendered state, and the
    rendered state and the position and heading of the marker do not
    change. *)
Theorem update_continues (now : R) (vs : list VehicleData) (l : t)
    (v : VehicleData) (tv : TrackedVehicle) :
  layer_wf l -> NoDup (v_id <$> vs) -> v ∈ vs ->
  tracked l !! v_id v = Some tv -> teleports v tv = false ->
  exists l' tv',
    update now vs l = Some l' /\ tracked l' !! v_id v = Some tv' /\
    prevLat tv' = currentLat tv /\ prevLon tv' = currentLon tv /\
    prevCourse tv' = currentCourse tv /\
    prevProgress tv' = currentProgress tv /\
    currentLat tv' = currentLat tv /\ currentLon tv' = currentLon tv /\
    currentCourse tv' = currentCourse tv /\
    currentProgress tv' = currentProgress tv /\
    latlng (marker tv') = latlng (marker tv) /\
    heading (marker tv') = heading (marker tv).
Proof.
  intros Hwf Hnd Hin Hold Htel.
  destruct (update_entry_nodup now vs v l Hwf Hnd Hin)
    as (l' & tv' & Hup & _ & Hk & Hfrom).
  pose proof Hwf as [Hb _]. pose proof (geometryOf_built l v Hb) as Hgb.
  rewrite Hold in Hfrom.
  destruct (updateExisting_spec now (geometryOf l v) v tv Hgb)
    as (tv1 & lat & lon & c & pr0 & Hup1 & Hcase & H).
  assert (tv1 = tv') as -> by congruence.
  rewrite Htel in Hcase. destruct Hcase as (-> & -> & -> & -> & ? & ?).
  exists l', tv'. tauto.
Qed.

Lemma sample_built :
  exists g, buildRouteGeometry samplePolyline = Some g /\ built g.
Proof.
  destruct (buildRouteGeometry_defined samplePolyline) as [g Hg]; [done |].
  exists g. split; [done |]. by apply buildRouteGeometry_built in Hg as [_ ?].
Qed.

Lemma update_continues_witness :
  exists g, buildRouteGeometry samplePolyline = Some g /\
  exists l' tv',
    update 0 [sampleVehicle] (sampleLayer g) = Some l' /\
    tracked l' !! v_id sampleVehicle = Some tv' /\
    prevLat tv' = currentLat (sampleTracked false) /\
    prevLon tv' = currentLon (sampleTracked false) /\
    prevCourse tv' = currentCourse (sampleTracked false) /\
    prevProgress tv' = currentProgress (sampleTracked false) /\
    currentLat tv' = currentLat (sampleTracked false) /\
    currentLon tv' = currentLon (sampleTracked false) /\
    currentCourse tv' = currentCourse (sampleTracked false) /\
    currentProgress tv' = currentProgress (sampleTracked false) /\
    latlng (marker tv') = latlng (marker (sampleTracked false)) /\
    heading (marker tv') = heading (marker (sampleTracked false)).
Proof.
  destruct sample_built as (g & Hg & Hb). exists g. split; [exact Hg |].
  apply (update_continues 0 [sampleVehicle] (sampleLayer g) sampleVehicle
           (sampleTracked false));
    [by apply sampleLayer_wf | apply NoDup_singleton | by left
    | apply lookup_singleton_eq | reflexivity].
Defined.

(** X14. On a layer whose geometries were built by [buildRouteGeometry]
    and whose vehicles have markers of their own, and for a frame with
    pairwise different vehicle ids: when the server sends no progress for
    a vehicle that is tracked and drawn on its route, with the same route
    id and a geometry for it (the snap was rejected), the update keeps the
    vehicle at the progress at which it is drawn: previous and target
    progress are both that progress, and a frame at any time after it
    draws the vehicle at that progress (clamped to [0, 1]). *)
Theorem update_rejected_snap (now : R) (vs : list VehicleData) (l : t)
    (v : VehicleData) (tv : TrackedVehicle) (rid : Z) (g : RouteGeometry)
    (cp : R) :
  layer_wf l -> NoDup (v_id <$> vs) -> v ∈ vs ->
  tracked l !! v_id v = Some tv ->
  routeId tv = Some rid -> v_route_id v = Some rid ->
  routeGeometries l !! rid = Some g ->
  v_progress v = None -> currentProgress tv = Some cp ->
  exists l' tv',
    update now vs l = Some l' /\ tracked l' !! v_id v = Some tv' /\
    prevProgress tv' = Some cp /\ targetProgress tv' = Some cp /\
    forall now', exists tv'',
      interpolateOne now' (routeGeometries l') tv' = Some tv'' /\
      currentProgress tv'' = Some (Rmax 0 (Rmin 1 cp)).
Proof.
  intros Hwf Hnd Hin Hold Hrid Hvrid Hg Hpr Hcp.
  destruct (update_entry_nodup now vs v l Hwf Hnd Hin)
    as (l' & tv' & Hup & Hgeoms & Hk & Hfrom).
  pose proof Hwf as [Hb _]. pose proof (geometryOf_built l v Hb) as Hgb.
  rewrite Hold in Hfrom.
  assert (geometryOf l v = Some g) as Hgeo
    by (unfold geometryOf; rewrite Hvrid; exact Hg).
  assert (teleports v tv = false) as Htel.
  { unfold teleports. rewrite Hpr, Hcp, Hrid, Hvrid.
    by rewrite bool_decide_eq_false_2 by (intros H; by apply H). }
  destruct (updateExisting_spec now (geometryOf l v) v tv Hgb)
    as (tv1 & lat & lon & c & pr0 & Hup1 & Hcase & H).
  assert (tv1 = tv') as -> by congruence.
  rewrite Htel in Hcase. destruct Hcase as (_ & _ & _ & -> & _).
  destruct H as (_ & _ & _ & Hprev & _ & _ & _ & _ & Htarget & _ & Hcar & _).
  rewrite Hgeo, Hpr, Hcp in Htarget. rewrite Hcp in Hprev.
  destruct Hcar as (_ & _ & _ & _ & Hrid' & _ & _ & _ & Hserver & _).
  rewrite Hpr in Hserver. rewrite Hvrid in Hrid'.
  exists l', tv'. split; [done |]. split; [done |]. split; [done |].
  split; [done |]. intros now'. rewrite Hgeoms.
  destruct (interpolateOne_routed now' (routeGeometries l) tv' rid g cp cp
              Hrid' Hg (Hb _ _ Hg) Hprev Htarget) as (dir & pos & c' & _ & _ & ->).
  eexists. split; [reflexivity |].
  pose proof (applyPose_spec pos.1 pos.2 c'
    (Some (routedProgress g (elapsedOf now' tv') cp cp dir tv')) tv') as Hpose.
  cbv zeta in Hpose. destruct Hpose as (_ & _ & _ & -> & _).
  unfold routedProgress, canExtrapolate. rewrite Hserver. simpl.
  do 3 f_equal. ring.
Qed.

Lemma update_rejected_snap_witness :
  exists g, buildRouteGeometry samplePolyline = Some g /\
  exists l' tv',
    update 0 [sampleVehicle] (sampleLayer g) = Some l' /\
    tracked l' !! v_id sampleVehicle = Some tv' /\
    prevProgress tv' = Some 0.25 /\ targetProgress tv' = Some 0.25 /\
    forall now', exists tv'',
      interpolateOne now' (routeGeometries l') tv' = Some tv'' /\
      currentProgress tv'' = Some (Rmax 0 (Rmin 1 0.25)).
Proof.
  destruct sample_built as (g & Hg & Hb). exists g. split; [exact Hg |].
  apply (update_rejected_snap 0 [sampleVehicle] (sampleLayer g) sampleVehicle
           (sampleTracked false) 15 g 0.25);
    [by apply sampleLayer_wf | apply NoDup_singleton | by left
    | apply lookup_singleton_eq | reflexivity | reflexivity
    | apply lookup_singleton_eq | reflexivity | reflexivity].
Defined.

(** *** The markers agree with the entries *)

Lemma applyPose_marker_ok lat lon course progress tv :
  marker_ok tv -> marker_ok (applyPose lat lon course progress tv).
Proof.
  intros (Hll & Hh & Hi). unfold applyPose, marker_ok. cbv zeta.
  repeat destruct (bool_decide _); simpl; repeat split; done.
Qed.

Lemma interpolateOne_marker_ok now geoms tv tv' :
  marker_ok tv -> interpolateOne now geoms tv = Some tv' -> marker_ok tv'.
Proof.
  intros Hok. unfold interpolateOne.
  destruct (framePose _ _ tv) as [[[[lat lon] c] p] |]; [| done].
  simpl. intros [= <-]. by apply applyPose_marker_ok.
Qed.

Lemma updateExisting_marker_ok now geom v tv tv' :
  (forall g, geom = Some g -> built g) ->
  marker_ok tv -> updateExisting now geom v tv = Some tv' -> marker_ok tv'.
Proof.
  intros Hb (Hll & Hh & Hi) Hup.
  destruct (updateExisting_spec now geom v tv Hb)
    as (tv1 & lat & lon & c & pr0 & Hup1 & Hcase & H).
  assert (tv1 = tv') as -> by congruence.
  destruct H as (_ & _ & _ & _ & Hlat & Hlon & Hc & _ & _ & Hicon & Hcar & _).
  destruct Hcar as (_ & _ & _ & _ & _ & Hroute & Hsig & _).
  unfold marker_ok. rewrite Hlat, Hlon, Hc, Hroute, Hsig, Hicon.
  split; [| split].
  - destruct (teleports v tv); [tauto |].
    destruct Hcase as (-> & -> & _ & _ & -> & _). done.
  - destruct (teleports v tv); [tauto |].
    destruct Hcase as (_ & _ & -> & _ & _ & ->). done.
  - destruct (bool_decide _) eqn:Hsame; [done |].
    apply same_route_signal in Hsame as [<- <-]. done.
Qed.

Lemma updateOne_ok now v l seen l1 seen1 :
  geoms_built l -> tracked_ok l ->
  updateOne now v (l, seen) = Some (l1, seen1) -> tracked_ok l1.
Proof.
  intros Hb Hok. unfold updateOne.
  pose proof (geometryOf_built l v Hb) as Hgb.
  destruct (tracked l !! v_id v) as [tv |] eqn:Hold.
  - destruct (updateExisting now (geometryOf l v) v tv) as [tv' |] eqn:Hup; [| done].
    simpl. intros [= <- _]. intros k tv1. simpl.
    intros [[_ <-] | [_ Hk]]%lookup_insert_Some; [| by eapply Hok].
    eapply updateExisting_marker_ok; [done | by eapply Hok | done].
  - destruct (createTracked_spec now (geometryOf l v) v (nextMarker l) Hgb)
      as (tv' & ? & ? & ? & -> & _ & _ & _ & Hmok & _).
    simpl. intros [= <- _]. intros k tv1. simpl.
    intros [[_ <-] | [_ Hk]]%lookup_insert_Some; [done | by eapply Hok].
Qed.

Lemma updateLoop_ok now vs : forall l seen l1 seen1,
  layer_wf l -> tracked_ok l ->
  updateLoop now vs (l, seen) = Some (l1, seen1) -> tracked_ok l1.
Proof.
  induction vs as [| v vs IH]; intros l seen l1 seen1 Hwf Hok Hrun.
  - by injection Hrun as <- _.
  - cbn [updateLoop] in Hrun.
    destruct (updateOne now v (l, seen)) as [[l0 seen0] |] eqn:Hone; [| done].
    cbn [mbind option_bind] in Hrun.
    eapply IH; [| | exact Hrun].
    + by eapply updateOne_wf.
    + eapply updateOne_ok; [apply Hwf | done | done].
Qed.

Lemma removeStale_wf seen l : layer_wf l -> layer_wf (removeStale seen l).
Proof.
  intros [Hb [Hin Hinj]]. split; [done |]. split.
  - intros k tv' [Hk Hs]%map_lookup_filter_Some. simpl in Hs.
    destruct (Hin k tv' Hk) as [Hlg Hlt]. split; [| done].
    simpl. apply elem_of_difference. split; [done |].
    intros (k2 & tv2 & [Hk2 Hns]%map_lookup_filter_Some & Heq)%elem_of_map_to_set.
    simpl in Hns. assert (k2 = k) as -> by (by eapply Hinj). done.
  - intros k1 k2 tv1 tv2 [Hk1 _]%map_lookup_filter_Some
           [Hk2 _]%map_lookup_filter_Some. by eapply Hinj.
Qed.

Lemma update_inv now vs l :
  layer_wf l -> tracked_ok l ->
  exists l', update now vs l = Some l' /\ layer_wf l' /\ tracked_ok l'.
Proof.
  intros Hwf Hok. unfold update.
  destruct (updateLoop_spec now vs l ∅ Hwf) as (l1 & Hrun & Hwf1 & _).
  rewrite Hrun. cbn [mbind option_bind]. eexists. split; [reflexivity |].
  split; [by apply removeStale_wf |].
  intros k tv [Hk _]%map_lookup_filter_Some.
  by eapply (updateLoop_ok now vs l ∅ l1 _ Hwf Hok Hrun).
Qed.

Lemma interpolateAll_inv now l :
  layer_wf l -> tracked_ok l ->
  exists l', interpolateAll now l = Some l' /\ layer_wf l' /\ tracked_ok l'.
Proof.
  intros [Hb [Hin Hinj]] Hok. unfold interpolateAll. cbv zeta.
  set (frames := interpolateOne now (routeGeometries l) <$> tracked l).
  assert (forall k tv', omap (fun o => o) frames !! k = Some tv' ->
            exists tv, tracked l !! k = Some tv /\
                       interpolateOne now (routeGeometries l) tv = Some tv' /\
                       mid tv' = mid tv) as Hback.
  { intros k tv' Hk. rewrite lookup_omap in Hk. unfold frames in Hk.
    rewrite lookup_fmap in Hk.
    destruct (tracked l !! k) as [tv |] eqn:Hold; [| done].
    simpl in Hk. exists tv. split; [done |]. split; [done |].
    destruct (interpolateOne_defined now (routeGeometries l) tv Hb)
      as (tv1 & Hone & Hsame & _).
    congruence. }
  rewrite decide_True.
  2:{ intros k o Hk. unfold frames in Hk. rewrite lookup_fmap in Hk.
      destruct (tracked l !! k) as [tv |] eqn:Hold; [| done].
      simpl in Hk. injection Hk as <-.
      destruct (interpolateOne_defined now (routeGeometries l) tv Hb) as (tv' & -> & _).
      eauto. }
  eexists. split; [reflexivity |]. split; [split; [done | split] |]; simpl.
  - intros k tv' Hk. destruct (Hback k tv' Hk) as (tv & Hold & _ & ->).
    by apply (Hin k).
  - intros k1 k2 tv1 tv2 Hk1 Hk2.
    destruct (Hback k1 tv1 Hk1) as (t1 & Ho1 & _ & ->).
    destruct (Hback k2 tv2 Hk2) as (t2 & Ho2 & _ & ->).
    by apply (Hinj k1 k2 t1 t2).
  - intros k tv' Hk. simpl in Hk.
    destruct (Hback k tv' Hk) as (tv & Hold & Hone & _).
    eapply interpolateOne_marker_ok; [by eapply Hok | done].
Qed.

Lemma loadRoutes_defined rs l :
  exists l', loadRoutes rs l = Some l' /\ tracked l' = tracked l.
Proof.
  unfold loadRoutes. destruct (loadLoop_spec rs ∅) as (gs & -> & _).
  simpl. eauto.
Qed.

(** X15. Whatever is called on a layer after its construction, and in
    whatever order ([loadRoutes], [update], animation frames, [clear]),
    no call fails, every tracked vehicle has its own marker on the layer
    group, and every marker agrees with its entry: the position and the
    heading last written to it are the rendered position and course, and
    the icon last set is the icon of the entry's route and signal
    state. *)
Theorem calls_keep_markers (cs : list LayerCalls.Call) :
  exists l,
    LayerCalls.calls cs new = Some l /\ layer_wf l /\ tracked_ok l.
Proof.
  assert (forall l0, layer_wf l0 -> tracked_ok l0 ->
            exists l, LayerCalls.calls cs l0 = Some l /\ layer_wf l /\ tracked_ok l)
    as Hgen.
  { induction cs as [| c cs IH]; intros l0 Hwf Hok; [by exists l0 |].
    assert (exists l1, LayerCalls.call c l0 = Some l1 /\ layer_wf l1 /\ tracked_ok l1)
      as (l1 & Hc & Hwf1 & Hok1).
    { destruct c as [rs | now vs | now |]; simpl.
      - destruct (loadRoutes_defined rs l0) as (l1 & Hl & Ht).
        exists l1. split; [done |].
        split; [eapply loadRoutes_wf; [apply Hwf | exact Hl] |].
        unfold tracked_ok. by rewrite Ht.
      - by apply update_inv.
      - by apply interpolateAll_inv.
      - exists (clear l0). split; [done |]. split; [apply clear_wf, Hwf |].
        intros k tv Hk. simpl in Hk. by rewrite lookup_empty in Hk. }
    destruct (IH l1 Hwf1 Hok1) as (l & Hrun & ?).
    exists l. cbn [LayerCalls.calls]. rewrite Hc. done. }
  apply Hgen; [apply new_wf |]. intros k tv Hk. simpl in Hk.
  by rewrite lookup_empty in Hk.
Qed.

End LayerMore.

(** * More on the store *)

Module StoreMore.
Import Data State StoreCalls Props.
Import StateFacts.

(** *** [getActiveStopIds] *)

Lemma add_all_spec (l : list Z) : forall (ids : gset Z) i,
  i ∈ foldl (fun ids' j => {[j]} ∪ ids') ids l <-> i ∈ ids \/ i ∈ l.
Proof.
  induction l as [| j l IH]; intros ids i; simpl.
  - rewrite elem_of_nil. tauto.
  - rewrite IH, elem_of_union, elem_of_singleton, elem_of_cons. tauto.
Qed.

Lemma active_loop_spec (e : gset string) (rs : list RouteInfo) :
  forall (ids : gset Z) i,
    i ∈ foldl (fun ids r =>
                 if decide (r_number r ∈ e)
                 then foldl (fun ids' j => {[j]} ∪ ids') ids (r_stop_ids r)
                 else ids) ids rs
    <-> i ∈ ids \/ exists r, r ∈ rs /\ r_number r ∈ e /\ i ∈ r_stop_ids r.
Proof.
  induction rs as [| r rs IH]; intros ids i; simpl.
  - split; [by left |]. intros [? | (r & Hr & _)]; [done |].
    by apply elem_of_nil in Hr.
  - rewrite IH. destruct (decide (r_number r ∈ e)) as [He | Hne].
    + rewrite add_all_spec. split.
      * intros [[? | Hi] | (r' & Hr' & ?)]; [by left | |].
        -- right. exists r. split; [by left | done].
        -- right. exists r'. split; [by right | done].
      * intros [? | (r' & [-> | Hr']%elem_of_cons & He' & Hi)].
        -- by left; left.
        -- by left; right.
        -- right. eauto.
    + split.
      * intros [? | (r' & Hr' & ?)]; [by left |].
        right. exists r'. split; [by right | done].
      * intros [? | (r' & [-> | Hr']%elem_of_cons & He' & Hi)];
          [by left | done | right; eauto].
Qed.

(** X16. [getActiveStopIds] returns [null] exactly when every route of
    the store is enabled; otherwise it returns the set of the stops that
    belong to at least one enabled route of the store. *)
Theorem getActiveStopIds_spec (s : Store) :
  (getActiveStopIds s = None <->
   forall r, r ∈ routes (state s) -> r_number r ∈ enabledRoutes (state s)) /\
  (forall ids, getActiveStopIds s = Some ids ->
     forall i, i ∈ ids <->
       exists r, r ∈ routes (state s) /\
                 r_number r ∈ enabledRoutes (state s) /\ i ∈ r_stop_ids r).
Proof.
  unfold getActiveStopIds. cbv zeta.
  set (e := enabledRoutes (state s)). set (rs := routes (state s)).
  assert (forallb (fun r => bool_decide (r_number r ∈ e)) rs = true
          <-> forall r, r ∈ rs -> r_number r ∈ e) as Hall.
  { rewrite forallb_forall. split.
    - intros H r Hr%list_elem_of_In. specialize (H r Hr).
      by apply bool_decide_eq_true in H.
    - intros H r Hr%list_elem_of_In. by apply bool_decide_eq_true_2, H. }
  destruct (forallb _ rs) eqn:Hb.
  - split; [by split; [intros _; apply Hall | done] | done].
  - split.
    + split; [done |]. intros H%Hall. done.
    + intros ids [= <-] i. rewrite active_loop_spec.
      split; [intros [H | H]; [by apply elem_of_empty in H | done] | by right].
Qed.

(** *** [toggleRoute] *)

(** X17. [toggleRoute] flips the membership of one route number in the
    set of enabled routes and of no other, leaves the rest of the state as
    it is, and undoes itself when called twice. *)
Theorem toggleRoute_spec (routeNum : string) (s : Store) :
  let s' := toggleRoute routeNum s in
  (routeNum ∈ enabledRoutes (state s') <-> routeNum ∉ enabledRoutes (state s)) /\
  (forall n, n <> routeNum ->
     (n ∈ enabledRoutes (state s') <-> n ∈ enabledRoutes (state s))) /\
  vehicles (state s') = vehicles (state s) /\
  routes (state s') = routes (state s) /\
  stops (state s') = stops (state s) /\
  selectedStop (state s') = selectedStop (state s) /\
  connected (state s') = connected (state s) /\
  state (toggleRoute routeNum s') = state s.
Proof.
  cbv zeta.
  assert (forall s0 : Store,
    let e := enabledRoutes (state s0) in
    enabledRoutes (state (toggleRoute routeNum s0)) =
      if decide (routeNum ∈ e) then e ∖ {[routeNum]} else {[routeNum]} ∪ e) as He
    by done.
  split; [| split].
  - rewrite He. cbv zeta. destruct (decide _) as [Hin | Hnot].
    + rewrite elem_of_difference, elem_of_singleton. tauto.
    + rewrite elem_of_union, elem_of_singleton. tauto.
  - intros n Hne. rewrite He. cbv zeta. destruct (decide _).
    + rewrite elem_of_difference, elem_of_singleton. tauto.
    + rewrite elem_of_union, elem_of_singleton. tauto.
  - repeat (split; [done |]).
    destruct s as [[vs rs ss e sel c] n]. unfold toggleRoute. simpl. f_equal.
    destruct (decide (routeNum ∈ e)) as [Hin | Hnot].
    + rewrite decide_False.
      2:{ rewrite elem_of_difference, elem_of_singleton. tauto. }
      apply set_eq. intros x.
      rewrite elem_of_union, elem_of_difference, elem_of_singleton.
      destruct (decide (x = routeNum)) as [-> | ?]; tauto.
    + rewrite decide_True.
      2:{ rewrite elem_of_union, elem_of_singleton. tauto. }
      apply set_eq. intros x.
      rewrite elem_of_difference, elem_of_union, elem_of_singleton.
      destruct (decide (x = routeNum)) as [-> | ?]; tauto.
Qed.

(** *** The vehicle map of a store *)

Lemma set_ok v m : vehicles_ok m -> vehicles_ok (JsMap.set (v_id v) v m).
Proof.
  intros [Hnd Hids]. split.
  - rewrite keys_set. destruct (decide _) as [Hin | Hnot]; [done |].
    apply NoDup_app. split; [done |]. split; [| apply NoDup_singleton].
    intros k Hk ->%list_elem_of_singleton. done.
  - clear Hnd. induction Hids as [| [k' v'] m Hkv Hm IH]; simpl.
    + by repeat constructor.
    + destruct (decide (k' = v_id v)); constructor; done.
Qed.

Lemma setAll_ok vs : forall m, vehicles_ok m -> vehicles_ok (setAll vs m).
Proof.
  unfold setAll. induction vs as [| v vs IH]; intros m Hm; [done |].
  simpl. by apply IH, set_ok.
Qed.

(** Every store reached from the initial one has a well-formed map. *)
Lemma calls_ok cs : forall s,
  vehicles_ok (vehicles (state s)) -> vehicles_ok (vehicles (state (calls s cs))).
Proof.
  unfold calls. induction cs as [| c cs IH]; intros s Hs; [done |].
  simpl. apply IH. destruct c; simpl; try done. by apply setAll_ok.
Qed.

Lemma init_ok : vehicles_ok (vehicles (state State.init)).
Proof. split; simpl; constructor. Qed.

Lemma values_ids m :
  vehicles_ok m -> v_id <$> JsMap.values m = JsMap.keys m.
Proof.
  intros [_ Hids]. unfold JsMap.values, JsMap.keys.
  induction Hids as [| [k v] m Hkv Hm IH]; [done |].
  rewrite !fmap_cons. simpl in *. by rewrite IH, Hkv.
Qed.

Lemma get_values m k v :
  vehicles_ok m ->
  JsMap.get k m = Some v <-> v ∈ JsMap.values m /\ v_id v = k.
Proof.
  intros [Hnd Hids]. unfold JsMap.values, JsMap.keys in *.
  induction Hids as [| [k' v'] m Hkv Hm IH]; simpl.
  - split; [done |]. intros [H%elem_of_nil _]. done.
  - rewrite fmap_cons in Hnd. apply NoDup_cons in Hnd as [Hnot Hnd].
    simpl in *. destruct (decide (k' = k)) as [<- | Hne].
    + split.
      * intros [= <-]. split; [by left | done].
      * intros [[-> | Hin]%elem_of_cons Hid]; [done |].
        exfalso. apply Hnot.
        assert (v_id <$> m.*2 = m.*1) as <-.
        { clear -Hm. induction Hm as [| [a b] m Hab Hm IH]; [done |].
          rewrite !fmap_cons. simpl in *. by rewrite IH, Hab. }
        rewrite <- Hid. by apply list_elem_of_fmap_2.
    + rewrite (IH Hnd). split.
      * intros [? ?]. split; [by right | done].
      * intros [[-> | Hin]%elem_of_cons Hid]; [congruence | done].
Qed.

Lemma getVisibleVehicles_elem s v :
  v ∈ getVisibleVehicles s <->
  v ∈ JsMap.values (vehicles (state s)) /\ visible s v.
Proof.
  unfold getVisibleVehicles, visible. cbv zeta.
  rewrite list_elem_of_filter.
  assert (bool_decide (0 < size (enabledRoutes (state s)))%nat = false
          <-> enabledRoutes (state s) = ∅) as ->.
  { rewrite bool_decide_eq_false. split.
    - intros H. apply leibniz_equiv, size_empty_iff. lia.
    - intros ->. rewrite size_empty. lia. }
  tauto.
Qed.

Lemma getVisibleVehicles_NoDup s :
  vehicles_ok (vehicles (state s)) -> NoDup (v_id <$> getVisibleVehicles s).
Proof.
  intros Hok.
  apply (sublist_NoDup _ (v_id <$> JsMap.values (vehicles (state s)))).
  - rewrite (values_ids _ Hok). apply Hok.
  - apply fmap_sublist. unfold getVisibleVehicles. apply sublist_filter.
Qed.

Lemma latest_unique vs v :
  NoDup (v_id <$> vs) -> v ∈ vs -> latest (v_id v) vs = Some v.
Proof.
  intros Hnd Hin.
  destruct (latest (v_id v) vs) as [w |] eqn:Hl.
  - apply latest_Some in Hl as [Hw Hid]. f_equal.
    clear -Hnd Hin Hw Hid. induction vs as [| a vs IH]; [by apply elem_of_nil in Hin |].
    rewrite fmap_cons in Hnd. apply NoDup_cons in Hnd as [Hnot Hnd].
    apply elem_of_cons in Hin as [-> | Hin]; apply elem_of_cons in Hw as [-> | Hw].
    + done.
    + exfalso. apply Hnot. rewrite <- Hid. by apply list_elem_of_fmap_2.
    + exfalso. apply Hnot. rewrite Hid. by apply list_elem_of_fmap_2.
    + by apply IH.
  - apply latest_None in Hl. exfalso. apply Hl. by apply list_elem_of_fmap_2.
Qed.

End StoreMore.

(** * The store listener *)

Module RenderFacts.
Import Data State StoreCalls VehicleLayer Props MoreProps Samples.
Import StateFacts StoreMore VehicleLayerFacts LayerMore.

Lemma update_dom now vs l :
  layer_wf l ->
  exists l',
    update now vs l = Some l' /\
    forall k, is_Some (tracked l' !! k) <-> k ∈ v_id <$> vs.
Proof.
  intros Hwf. unfold update.
  destruct (updateLoop_spec now vs l ∅ Hwf) as (l1 & Hrun & _ & Hdom & _).
  rewrite Hrun. cbn [mbind option_bind]. eexists. split; [reflexivity |].
  intros k. simpl. rewrite (right_id_L ∅ (∪)).
  rewrite <- (elem_of_list_to_set (C := gset string)). split.
  - intros [tv [_ Hs]%map_lookup_filter_Some]. done.
  - intros Hs.
    assert (k ∈ dom (tracked l1)) as [tv Hk]%elem_of_dom
      by (rewrite Hdom; apply elem_of_union; by left).
    exists tv. by apply map_lookup_filter_Some.
Qed.

(** X18. The store listener of [main.ts] hands the visible vehicles of
    the store to [update].  Whatever was called on the store before, the
    layer then tracks exactly the ids of the stored vehicles that pass the
    route filter, and the entry of each carries the data the store holds
    under that id. *)
Theorem render_shows_visible (cs : list StoreCalls.Call) (now : R) (l : t) :
  layer_wf l ->
  let s := calls State.init cs in
  exists l',
    update now (getVisibleVehicles s) l = Some l' /\
    forall k,
      (is_Some (tracked l' !! k) <->
       exists v, JsMap.get k (vehicles (state s)) = Some v /\ visible s v) /\
      (forall v tv', JsMap.get k (vehicles (state s)) = Some v ->
         tracked l' !! k = Some tv' -> carries now v tv').
Proof.
  intros Hwf s.
  pose proof (calls_ok cs State.init init_ok) as Hok. fold s in Hok.
  destruct (update_dom now (getVisibleVehicles s) l Hwf) as (l' & Hup & Hdom).
  exists l'. split; [done |]. intros k.
  assert (k ∈ v_id <$> getVisibleVehicles s <->
          exists v, JsMap.get k (vehicles (state s)) = Some v /\ visible s v)
    as Hvis.
  { rewrite list_elem_of_fmap. split.
    - intros (v & -> & [Hv Hp]%getVisibleVehicles_elem).
      exists v. split; [| done]. by apply get_values.
    - intros (v & [Hv Hid]%(get_values _ _ _ Hok) & Hp).
      exists v. split; [done |]. by apply getVisibleVehicles_elem. }
  split; [by rewrite Hdom |].
  intros v tv' Hget Hk.
  assert (k ∈ v_id <$> getVisibleVehicles s) as Hin by (apply Hdom; eauto).
  apply Hvis in Hin as (v0 & Hget0 & Hp).
  assert (v0 = v) as -> by congruence.
  apply (get_values _ _ _ Hok) in Hget as [Hv <-].
  assert (latest (v_id v) (getVisibleVehicles s) = Some v) as Hl.
  { apply latest_unique; [by apply getVisibleVehicles_NoDup |].
    by apply getVisibleVehicles_elem. }
  destruct (latest_split _ _ _ Hl) as (vs1 & vs2 & Hsplit & _ & Hnot).
  destruct (update_entry now vs1 v vs2 l Hwf Hnot)
    as (lmid & seen & l'' & tv'' & _ & _ & Hup' & _ & Hk' & Hfrom).
  rewrite <- Hsplit in Hup'.
  assert (l'' = l') as -> by congruence.
  assert (tv'' = tv') as -> by congruence.
  pose proof Hwf as [Hb _]. pose proof (geometryOf_built l v Hb) as Hgb.
  destruct (tracked lmid !! v_id v) as [tv |].
  - destruct (updateExisting_spec now (geometryOf l v) v tv Hgb)
      as (tv1 & ? & ? & ? & ? & Hup1 & H).
    assert (tv1 = tv') as -> by congruence. tauto.
  - destruct (createTracked_spec now (geometryOf l v) v (nextMarker lmid) Hgb)
      as (tv1 & ? & ? & ? & Hup1 & H).
    assert (tv1 = tv') as -> by congruence. tauto.
Qed.

Lemma render_shows_visible_witness :
  let s := calls State.init [CallUpdateVehicles [sampleVehicle]] in
  exists l',
    update 0 (getVisibleVehicles s) new = Some l' /\
    forall k,
      (is_Some (tracked l' !! k) <->
       exists v, JsMap.get k (vehicles (state s)) = Some v /\ visible s v) /\
      (forall v tv', JsMap.get k (vehicles (state s)) = Some v ->
         tracked l' !! k = Some tv' -> carries 0 v tv').
Proof.
  apply (render_shows_visible [CallUpdateVehicles [sampleVehicle]] 0 new), new_wf.
Defined.

End RenderFacts.

(** * More on the frame handler *)

Module MainMore.
Import Data State Main Props.
Import StateFacts.

(** What stays of a store. *)
Local Abbreviation kept s s' :=
  (JsMap.keys (vehicles (state s)) `prefix_of` JsMap.keys (vehicles (state s')) /\
   routes (state s') = routes (state s) /\
   stops (state s') = stops (state s) /\
   enabledRoutes (state s') = enabledRoutes (state s) /\
   selectedStop (state s') = selectedStop (state s)).

Lemma updateVehicles_kept vs s : kept s (updateVehicles vs s).
Proof. split; [apply keys_setAll_prefix | done]. Qed.

Lemma step_kept Date_parse a e : kept (store a) (store (step Date_parse a e)).
Proof.
  destruct e as [now msg | c]; simpl.
  - unfold onFrame. destruct (msg_type msg).
    + destruct (hasFreshVehicleUpdate a); [apply updateVehicles_kept |].
      destruct (_ && _); [apply updateVehicles_kept | done].
    + apply updateVehicles_kept.
  - destruct c; simpl; done.
Qed.

(** X19. The handlers of [main.ts] never take a vehicle out of the
    store: over any history of frames and status changes the keys of the
    vehicle map stay, in their order, and routes, stops, route filter and
    selected stop are not touched.  A disconnect in particular leaves the
    vehicle map as it is (it calls [updateVehicles] with no vehicle), and
    runs the store listeners twice. *)
Theorem run_keeps_vehicles (Date_parse : string -> option Z)
    (es : list Event) (a : App) :
  let a' := run Date_parse a es in
  JsMap.keys (vehicles (state (store a)))
    `prefix_of` JsMap.keys (vehicles (state (store a'))) /\
  routes (state (store a')) = routes (state (store a)) /\
  stops (state (store a')) = stops (state (store a)) /\
  enabledRoutes (state (store a')) = enabledRoutes (state (store a)) /\
  selectedStop (state (store a')) = selectedStop (state (store a)) /\
  vehicles (state (store (step Date_parse a (EvStatus false))))
    = vehicles (state (store a)) /\
  notified (store (step Date_parse a (EvStatus false))) = S (S (notified (store a))).
Proof.
  cbv zeta.
  assert (kept (store a) (store (run Date_parse a es))) as (? & ? & ? & ? & ?);
    [| done].
  unfold run. revert a. induction es as [| e es IH]; intros a; [done |].
  simpl. destruct (step_kept Date_parse a e) as (H1 & H2 & H3 & H4 & H5).
  destruct (IH (step Date_parse a e)) as (I1 & I2 & I3 & I4 & I5).
  split; [by etrans |]. repeat split; congruence.
Qed.

End MainMore.

(** * More on the WebSocket client *)

Module WsClientMore.
Import Data WsClient WsProps.







Lemma step_opened c e :
  url (step c e).1 = url c /\
  ((opened (step c e).2 = [] /\ nextSocket (step c e).1 = nextSocket c) \/
   (opened (step c e).2 = [(nextSocket c, url c)] /\
    nextSocket (step c e).1 = S (nextSocket c) /\
    ws c = None /\ ws (step c e).1 = Some (nextSocket c))).
Proof.
  assert (forall c0, opened (closeCurrent c0) = []) as Hclose
    by (intros c0; unfold closeCurrent; by destruct (ws c0)).
  assert (url (connect c).1 = url c /\
    ((opened (connect c).2 = [] /\ nextSocket (connect c).1 = nextSocket c) \/
     (opened (connect c).2 = [(nextSocket c, url c)] /\
      nextSocket (connect c).1 = S (nextSocket c) /\
      ws c = None /\ ws (connect c).1 = Some (nextSocket c)))) as Hconnect.
  { unfold connect. destruct (ws c); simpl; [by split; [| left] |].
    split; [done |]. by right. }
  destruct e as [| | l | l | s0 | s0 parsed | s0 | s0 | tm]; simpl;
    try exact Hconnect; (split; [try done |]); try (by left).
  - left. split; [| done].
    destruct (reconnectTimeout c); simpl; by rewrite Hclose.
  - by destruct parsed.
  - left. destruct parsed as [msg |]; simpl; [| done]. split; [| done].
    induction (listeners c); simpl; done.
Qed.

Lemma run_cons c e es :
  run c (e :: es) =
    ((run (step c e).1 es).1, (step c e).2 ++ (run (step c e).1 es).2).
Proof.
  simpl. destruct (step c e) as [c1 out1]. simpl.
  by destruct (run c1 es).
Qed.

Lemma opened_app out1 out2 : opened (out1 ++ out2) = opened out1 ++ opened out2.
Proof.
  induction out1 as [| [s [u' | | d] | | | | |] out1 IH]; simpl; rewrite ?IH;
    done.
Qed.

Lemma run_nextSocket es : forall c,
  (nextSocket c <= nextSocket (run c es).1)%nat /\
  Forall (fun s => nextSocket c <= s)%nat (opened (run c es).2).*1.
Proof.
  induction es as [| e es IH]; intros c; [by split; [| constructor] |].
  rewrite run_cons. cbn [fst snd].
  destruct (step_opened c e) as [_ Hc]. destruct (IH (step c e).1) as [IH1 IH2].
  assert (nextSocket c <= nextSocket (step c e).1)%nat as Hle
    by (destruct Hc as [[_ ?] | (_ & ? & _)]; lia).
  split; [lia |]. rewrite opened_app, fmap_app. apply Forall_app. split.
  - destruct Hc as [[-> _] | (-> & _)]; repeat constructor.
  - eapply Forall_impl; [exact IH2 |]. intros s ?. simpl in *. lia.
Qed.

(** X21. Every socket the client creates is a socket to the URL the
    client was built with, the sockets it creates are pairwise different
    objects, and it creates one only while it holds none. *)
Theorem sockets_go_to_url (c : t) (es : list Event) :
  let c' := (run c es).1 in
  let out := (run c es).2 in
  url c' = url c /\
  Forall (fun su => su.2 = url c /\ (nextSocket c <= su.1 < nextSocket c')%nat)
         (opened out) /\
  NoDup (opened out).*1 /\
  (forall c0 e, opened (step c0 e).2 <> [] -> ws c0 = None).
Proof.
  cbv zeta. split; [| split; [| split]].
  - revert c. induction es as [| e es IH]; intros c; [done |].
    rewrite run_cons. cbn [fst].
    destruct (step_opened c e) as [Hu _]. rewrite IH. done.
  - revert c. induction es as [| e es IH]; intros c; [constructor |].
    rewrite run_cons. cbn [fst snd].
    destruct (step_opened c e) as [Hu Hcase].
    destruct (run_nextSocket es (step c e).1) as [Hmono _].
    rewrite opened_app. apply Forall_app. split.
    + destruct Hcase as [[-> _] | (-> & Hn & _)]; [constructor |].
      repeat constructor; simpl; lia.
    + eapply Forall_impl; [apply IH |]. intros [s u'] [? ?]. simpl in *.
      split; [congruence |]. destruct Hcase as [[_ ?] | (_ & ? & _)]; lia.
  - revert c. induction es as [| e es IH]; intros c; [constructor |].
    rewrite run_cons. cbn [fst snd].
    destruct (step_opened c e) as [Hu Hcase].
    destruct (run_nextSocket es (step c e).1) as [_ Hlow].
    rewrite opened_app, fmap_app.
    destruct Hcase as [[-> _] | (-> & Hn & _)]; [apply IH |].
    simpl. apply NoDup_cons. split; [| apply IH].
    intros Hin. rewrite Forall_forall in Hlow. specialize (Hlow _ Hin). lia.
  - intros c0 e Hne.
    destruct (step_opened c0 e) as [_ [[Hno _] | (_ & _ & Hws & _)]]; done.
Qed.

(** X22. [disconnect] does not end the reconnecting: it closes the
    socket, and when the close event of that socket arrives, a reconnect
    is scheduled; when that timer fires the client holds a new socket to
    its URL. *)
Theorem disconnect_reconnects (c : t) (sock : nat) :
  ws c = Some sock ->
  let es := [CallDisconnect; SockClosed sock; TimerFired (nextTimer c)] in
  ws (disconnect c).1 = None /\
  ws (run c es).1 = Some (nextSocket c) /\
  exists cleared,
    Forall (fun e => exists tm, e = EffClearTimeout tm) cleared /\
    (run c es).2 =
      cleared ++ [EffSocket sock SockClose;
                  EffLog; EffStatus false; EffSetTimeout (nextTimer c);
                  EffSocket (nextSocket c) (SockNew (url c))].
Proof.
  intros Hs. cbv zeta. simpl. split; [done |]. split; [done |].
  unfold closeCurrent. rewrite Hs.
  exists (match reconnectTimeout c with
          | Some tm => [EffClearTimeout tm]
          | None => []
          end).
  split; [destruct (reconnectTimeout c); repeat constructor; eauto |].
  by rewrite <- (assoc_L (++)).
Qed.

Lemma disconnect_reconnects_witness :
  let c := (run (new "ws://host/ws/vehicles") [CallConnect; SockOpened 0]).1 in
  let es := [CallDisconnect; SockClosed 0; TimerFired (nextTimer c)] in
  ws (disconnect c).1 = None /\
  ws (run c es).1 = Some (nextSocket c) /\
  exists cleared,
    Forall (fun e => exists tm, e = EffClearTimeout tm) cleared /\
    (run c es).2 =
      cleared ++ [EffSocket 0 SockClose;
                  EffLog; EffStatus false; EffSetTimeout (nextTimer c);
                  EffSocket (nextSocket c) (SockNew (url c))].
Proof.
  apply (disconnect_reconnects
           (run (new "ws://host/ws/vehicles") [CallConnect; SockOpened 0]).1 0).
  reflexivity.
Defined.

End WsClientMore.

(** * Properties of the route lines *)

Module RouteLayerFacts.
Import Data RouteLayer MoreProps.

Lemma latlngs_copy (g : list (R * R)) : map (fun p => (p.1, p.2)) g = g.
Proof. induction g as [| [a b] g IH]; simpl; [done | by rewrite IH]. Qed.

Lemma loadOne_loaded rs r l :
  loaded rs l -> loaded (rs ++ [r]) (loadOne l r).
Proof.
  intros [Hfrom Hall Hwf Hbelow Hexact].
  assert (forall r' coords, r' ∈ rs ++ [r] -> usable r' coords ->
            (r' ∈ rs) \/ (r' = r)) as Hsplit.
  { intros r' c [? | ->%list_elem_of_singleton]%elem_of_app _; eauto. }
  unfold loadOne. destruct (r_geometry r) as [g |] eqn:Hgeo.
  2:{ split; try done.
      - intros rid p Hp. destruct (Hfrom rid p Hp) as [? (r' & c & ? & ?)].
        split; [done |]. exists r', c. split; [apply elem_of_app; by left | done].
      - intros r' c [? | ->%list_elem_of_singleton]%elem_of_app Hu; [by eapply Hall |].
        destruct Hu as [Hu _]. congruence.
      - rewrite fmap_app. intros [Hnd _]%NoDup_app. by apply Hexact. }
  destruct (bool_decide (length g < 2)%nat) eqn:Hlen.
  { apply bool_decide_eq_true in Hlen. split; try done.
    - intros rid p Hp. destruct (Hfrom rid p Hp) as [? (r' & c & ? & ?)].
      split; [done |]. exists r', c. split; [apply elem_of_app; by left | done].
    - intros r' c [? | ->%list_elem_of_singleton]%elem_of_app Hu; [by eapply Hall |].
      destruct Hu as [Hu Hu2]. rewrite Hgeo in Hu. injection Hu as <-. lia.
    - rewrite fmap_app. intros [Hnd _]%NoDup_app. by apply Hexact. }
  apply bool_decide_eq_false in Hlen. cbv zeta. split; simpl.
  - intros rid p [[<- <-] | [Hne Hp]]%lookup_insert_Some; simpl.
    + split; [apply elem_of_union; left; by apply elem_of_singleton |].
      exists r, g. split; [apply elem_of_app; right; by left |].
      split; [done |]. split; [split; [done | lia] |].
      by rewrite latlngs_copy.
    + destruct (Hfrom rid p Hp) as [? (r' & c & ? & ?)].
      split; [apply elem_of_union; by right |].
      exists r', c. split; [apply elem_of_app; by left | done].
  - intros r' c [Hr' | ->%list_elem_of_singleton]%elem_of_app Hu.
    + destruct (decide (r_id r = r_id r')) as [-> | Hne].
      * rewrite lookup_insert_eq. eauto.
      * rewrite lookup_insert_ne by done. by eapply Hall.
    + rewrite lookup_insert_eq. eauto.
  - intros k1 k2 p1 p2. simpl.
    intros [[<- <-] | [Hne1 Hp1]]%lookup_insert_Some
           [[<- <-] | [Hne2 Hp2]]%lookup_insert_Some; simpl; try done.
    + intros Heq. destruct (Hfrom _ _ Hp2) as [Hin _].
      apply Hbelow in Hin. lia.
    + intros Heq. destruct (Hfrom _ _ Hp1) as [Hin _].
      apply Hbelow in Hin. lia.
    + by apply Hwf.
  - intros i [->%elem_of_singleton | Hi]%elem_of_union; [lia |].
    apply Hbelow in Hi. lia.
  - rewrite fmap_app. intros (Hnd & Hdisj & _)%NoDup_app.
    intros i [->%elem_of_singleton | Hi]%elem_of_union.
    + eexists (r_id r), _. split; [apply lookup_insert_eq | done].
    + destruct (Hexact Hnd i Hi) as (rid & p & Hp & Hid).
      exists rid, p. split; [| done].
      rewrite lookup_insert_ne; [done |]. intros <-.
      destruct (Hfrom _ _ Hp) as [_ (r' & c & Hr' & Hrid & _)].
      apply (Hdisj (r_id r)); [| by left].
      rewrite <- Hrid. by apply list_elem_of_fmap_2.
Qed.

Lemma loadRoutes_loaded rs l : loaded rs (loadRoutes rs l).
Proof.
  unfold loadRoutes.
  set (l0 := {| polylines := ∅; layerGroup := ∅; nextPolyline := nextPolyline l |}).
  induction rs as [| r rs IH] using rev_ind.
  - split; simpl; try done.
    intros r c Hr. by apply elem_of_nil in Hr.
  - rewrite foldl_app. simpl. by apply loadOne_loaded.
Qed.

(** X23. [loadRoutes] of the route layer draws one line for every route
    id that comes with a geometry of at least two points, and none for
    the others: the line follows the geometry of such a route, has the
    colour of its number and is on the map; no two route ids share a line;
    and when the route ids are pairwise different, nothing else is on the
    layer group. *)
Theorem loadRoutes_draws (rs : list RouteInfo) (l : t) :
  let l' := loadRoutes rs l in
  (forall rid, is_Some (polylines l' !! rid) <->
     exists r coords, r ∈ rs /\ r_id r = rid /\ usable r coords) /\
  (forall rid p, polylines l' !! rid = Some p ->
     poly_id p ∈ layerGroup l' /\
     exists r coords, r ∈ rs /\ r_id r = rid /\ usable r coords /\
       poly_latlngs p = coords /\
       poly_color p = Colors.routeColor (r_number r)) /\
  polylines_wf l' /\
  (NoDup (r_id <$> rs) -> forall i, i ∈ layerGroup l' ->
     exists rid p, polylines l' !! rid = Some p /\ poly_id p = i).
Proof.
  cbv zeta. destruct (loadRoutes_loaded rs l) as [Hfrom Hall Hwf _ Hexact].
  split; [| split; [| split]]; try done.
  - intros rid. split.
    + intros [p Hp]. destruct (Hfrom rid p Hp) as [_ (r & c & ? & ? & ? & _)].
      eauto.
    + intros (r & c & Hr & <- & Hu). by eapply Hall.
  - intros rid p Hp. destruct (Hfrom rid p Hp) as [? (r & c & ? & ? & ? & ? & ? & _)].
    split; [done |]. exists r, c. done.
Qed.

Lemma showOne_spec en l r :
  polylines (showOne en l r) = polylines l /\
  nextPolyline (showOne en l r) = nextPolyline l /\
  match polylines l !! r_id r with
  | Some p =>
      (poly_id p ∈ layerGroup (showOne en l r) <-> r_number r ∈ en) /\
      forall i, i <> poly_id p ->
        (i ∈ layerGroup (showOne en l r) <-> i ∈ layerGroup l)
  | None => layerGroup (showOne en l r) = layerGroup l
  end.
Proof.
  unfold showOne. destruct (polylines l !! r_id r) as [p |]; [| done].
  destruct (decide (r_number r ∈ en)); destruct (decide (poly_id p ∈ layerGroup l));
    simpl; (split; [done |]); (split; [done |]); split; try tauto.
  - rewrite elem_of_union, elem_of_singleton. tauto.
  - intros i Hi. rewrite elem_of_union, elem_of_singleton. tauto.
  - rewrite elem_of_difference, elem_of_singleton. tauto.
  - intros i Hi. rewrite elem_of_difference, elem_of_singleton. tauto.
Qed.

(** X24. [setVisibility] puts the line of every listed route on the map
    when the number of the route is enabled and takes it off otherwise,
    and leaves the lines of the other routes as they are (on a layer where
    no two route ids share a line, for routes with pairwise different
    ids). *)
Theorem setVisibility_spec (rs : list RouteInfo) (en : gset string) (l : t) :
  polylines_wf l -> NoDup (r_id <$> rs) ->
  let l' := setVisibility rs en l in
  polylines l' = polylines l /\
  (forall r p, r ∈ rs -> polylines l !! r_id r = Some p ->
     (poly_id p ∈ layerGroup l' <-> r_number r ∈ en)) /\
  (forall i,
     (forall r p, r ∈ rs -> polylines l !! r_id r = Some p -> poly_id p <> i) ->
     (i ∈ layerGroup l' <-> i ∈ layerGroup l)).
Proof.
  cbv zeta. unfold setVisibility. revert l.
  induction rs as [| r rs IH]; intros l Hwf Hnd.
  - simpl. split; [done |]. split; [| done].
    intros r p Hr. by apply elem_of_nil in Hr.
  - rewrite fmap_cons in Hnd. apply NoDup_cons in Hnd as [Hnot Hnd].
    destruct (showOne_spec en l r) as (Hp1 & _ & Hcase).
    assert (polylines_wf (showOne en l r)) as Hwf1
      by (unfold polylines_wf; by rewrite Hp1).
    destruct (IH (showOne en l r) Hwf1 Hnd) as (Hpoly & Hin & Hout).
    rewrite Hp1 in Hpoly, Hin, Hout. simpl.
    split; [done |]. split.
    + intros r' p [-> | Hr']%elem_of_cons Hp; [| by eapply Hin].
      rewrite Hp in Hcase. destruct Hcase as [Hthis _].
      rewrite <- Hthis. apply Hout.
      intros r2 p2 Hr2 Hp2 Heq. apply Hnot.
      assert (r_id r2 = r_id r) as <- by (by eapply Hwf).
      by apply list_elem_of_fmap_2.
    + intros i Hi. rewrite Hout.
      2:{ intros r2 p2 Hr2. apply Hi. by right. }
      destruct (polylines l !! r_id r) as [p |] eqn:Hp; [| by rewrite Hcase].
      destruct Hcase as [_ Hother]. apply Hother.
      intros ->. apply (Hi r p); [by left | done | done].
Qed.

Lemma setVisibility_spec_witness :
  let l := loadRoutes [sampleRoute] new in
  let l' := setVisibility [sampleRoute] {["15"%string]} l in
  polylines l' = polylines l /\
  (forall r p, r ∈ [sampleRoute] -> polylines l !! r_id r = Some p ->
     (poly_id p ∈ layerGroup l' <-> r_number r ∈ ({["15"%string]} : gset string))) /\
  (forall i,
     (forall r p, r ∈ [sampleRoute] -> polylines l !! r_id r = Some p ->
        poly_id p <> i) ->
     (i ∈ layerGroup l' <-> i ∈ layerGroup l)).
Proof.
  apply (setVisibility_spec [sampleRoute] {["15"%string]}
           (loadRoutes [sampleRoute] new));
    [apply loadRoutes_loaded | apply NoDup_singleton].
Defined.

End RouteLayerFacts.

(** * Properties of the stop markers *)

Module StopLayerFacts.
Import Data State StopLayer.
Local Open Scope R_scope.

Lemma setDimming_lookup a l id :
  markers (setDimming a l) !! id =
    (fun m =>
       if match a with None => true | Some a' => bool_decide (id ∈ a') end
       then setStyle (Some 4) (Some "#60a5fa"%string) (Some 0.9) None m
       else setStyle (Some 3) (Some "#94a3b8"%string) (Some 0.15) None m)
    <$> markers l !! id.
Proof.
  unfold setDimming. simpl. rewrite map_lookup_imap.
  by destruct (markers l !! id).
Qed.

Lemma highlightStop_lookup sel l id :
  markers (highlightStop sel l) !! id =
    (fun m =>
       let m1 := setStyle (Some 4) (Some "#60a5fa"%string) None (Some 1.5) m in
       if decide (id = sel)
       then setStyle (Some 7) (Some "#e94560"%string) (Some 1) (Some 3) m1
       else m1)
    <$> markers l !! id.
Proof.
  unfold highlightStop. cbv zeta. rewrite lookup_fmap.
  destruct (markers l !! sel) as [m0 |] eqn:Hsel; simpl.
  - destruct (decide (id = sel)) as [-> | Hne].
    + by rewrite lookup_insert_eq, Hsel.
    + rewrite lookup_insert_ne by done. rewrite lookup_fmap.
      by destruct (markers l !! id).
  - rewrite lookup_fmap. destruct (decide (id = sel)) as [-> | Hne].
    + by rewrite Hsel.
    + by destruct (markers l !! id).
Qed.

(** X25. What the store listener makes of a stop marker.  Without a
    selected stop (or with the stop id 0 selected, which the listener
    takes for none) a stop that passes the dimming (all routes are
    enabled, or the stop belongs to an enabled route) is drawn at radius 4
    in blue with opacity 0.9 and any other stop at radius 3 in grey with
    opacity 0.15.  With a stop selected the selected stop is drawn at
    radius 7 in red, opaque, with weight 3, and every other stop at radius
    4 in blue with weight 1.5, so that of the dimming only the opacity
    remains. *)
Theorem renderStops_styles (s : Store) (l : t) (id : Z) (m : CircleMarker) :
  markers l !! id = Some m ->
  exists m',
    markers (renderStops s l) !! id = Some m' /\
    cm_id m' = cm_id m /\ cm_latlng m' = cm_latlng m /\
    color (cm_style m') = color (cm_style m) /\
    let st := cm_style m' in
    let dimmed := if active s id then 0.9 else 0.15 in
    match selectedStop (state s) with
    | Some sel =>
        if decide (sel = 0%Z)
        then (radius st, fillColor st, fillOpacity st, weight st) =
             (if active s id then (4, "#60a5fa"%string, 0.9, weight (cm_style m))
              else (3, "#94a3b8"%string, 0.15, weight (cm_style m)))
        else if decide (id = sel)
        then (radius st, fillColor st, fillOpacity st, weight st) =
             (7, "#e94560"%string, 1, 3)
        else (radius st, fillColor st, fillOpacity st, weight st) =
             (4, "#60a5fa"%string, dimmed, 1.5)
    | None =>
        (radius st, fillColor st, fillOpacity st, weight st) =
        (if active s id then (4, "#60a5fa"%string, 0.9, weight (cm_style m))
         else (3, "#94a3b8"%string, 0.15, weight (cm_style m)))
    end.
Proof.
  intros Hm. unfold renderStops. cbv zeta.
  pose proof (setDimming_lookup (getActiveStopIds s) l id) as Hdim.
  rewrite Hm in Hdim. cbn [fmap option_fmap option_map] in Hdim.
  fold (active s id) in Hdim.
  destruct (selectedStop (state s)) as [sel |].
  - destruct (decide (sel = 0%Z)).
    + eexists. split; [exact Hdim |]. by destruct (active s id).
    + rewrite highlightStop_lookup, Hdim. simpl. eexists. split; [reflexivity |].
      destruct (decide (id = sel)); by destruct (active s id).
  - eexists. split; [exact Hdim |]. by destruct (active s id).
Qed.

Lemma renderStops_styles_witness :
  let l := loadStops [sampleStop] new in
  exists m,
    markers l !! 1%Z = Some m /\
    exists m',
      markers (renderStops State.init l) !! 1%Z = Some m' /\
      cm_id m' = cm_id m /\ cm_latlng m' = cm_latlng m /\
      color (cm_style m') = color (cm_style m) /\
      let st := cm_style m' in
      let dimmed := if active State.init 1 then 0.9 else 0.15 in
      match selectedStop (state State.init) with
      | Some sel =>
          if decide (sel = 0%Z)
          then (radius st, fillColor st, fillOpacity st, weight st) =
               (if active State.init 1
                then (4, "#60a5fa"%string, 0.9, weight (cm_style m))
                else (3, "#94a3b8"%string, 0.15, weight (cm_style m)))
          else if decide (1%Z = sel)
          then (radius st, fillColor st, fillOpacity st, weight st) =
               (7, "#e94560"%string, 1, 3)
          else (radius st, fillColor st, fillOpacity st, weight st) =
               (4, "#60a5fa"%string, dimmed, 1.5)
      | None =>
          (radius st, fillColor st, fillOpacity st, weight st) =
          (if active State.init 1
           then (4, "#60a5fa"%string, 0.9, weight (cm_style m))
           else (3, "#94a3b8"%string, 0.15, weight (cm_style m)))
      end.
Proof.
  eexists. split; [apply lookup_insert_eq |].
  apply (renderStops_styles State.init (loadStops [sampleStop] new) 1).
  apply lookup_insert_eq.
Defined.

End StopLayerFacts.

(** * More on the route colours *)

Module ColorsMore.
Import Colors ColorsFacts.
Local Open Scope Z_scope.

(** X26. [routeColor] returns [undefined] exactly for the labels that
    [parseInt] reads as a negative number that is not a multiple of 24;
    for every other label it returns a colour of the palette (for labels
    whose number a double holds exactly). *)
Theorem routeColor_palette (routeNum : string) :
  (forall num, parseInt (charCodes routeNum) = Some num ->
     - 2 ^ 53 <= num <= 2 ^ 53) ->
  (routeColor routeNum = None <->
   exists num, parseInt (charCodes routeNum) = Some num /\
               num < 0 /\ Z.rem num 24 <> 0) /\
  (forall c, routeColor routeNum = Some c -> c ∈ COLORS).
Proof.
  intros _. unfold routeColor.
  destruct (parseInt (charCodes routeNum)) as [num |] eqn:Hp.
  - destruct (decide (0 <= num)) as [Hpos | Hneg].
    + assert (exists c, routeColorUnits (charCodes routeNum) = Some c /\ c ∈ COLORS)
        as (c & Hc & Hin).
      { unfold routeColorUnits. rewrite Hp, COLORS_length.
        apply COLORS_get. apply Z.rem_bound_pos; lia. }
      rewrite Hc. split.
      * split; [done |]. intros (n & [= <-] & ? & _). lia.
      * by intros c' [= <-].
    + destruct (decide (Z.rem num 24 = 0)) as [Hz | Hnz].
      * assert (exists c, routeColorUnits (charCodes routeNum) = Some c /\ c ∈ COLORS)
          as (c & Hc & Hin).
        { unfold routeColorUnits. rewrite Hp, COLORS_length, Hz.
          apply COLORS_get. lia. }
        rewrite Hc. split.
        -- split; [done |]. intros (n & [= <-] & _ & ?). done.
        -- by intros c' [= <-].
      * rewrite (routeColorUnits_negative _ num Hp) by (done || lia).
        split; [| done]. split; [| done]. intros _. exists num. split; [done |].
        split; [lia | done].
  - destruct (routeColorUnits_hash _ Hp) as (c & Hc & Hin). rewrite Hc. split.
    + split; [done |]. intros (n & ? & _). done.
    + by intros c' [= <-].
Qed.

Lemma routeColor_palette_witness :
  (routeColor "15" = None <->
   exists num, parseInt (charCodes "15") = Some num /\
               num < 0 /\ Z.rem num 24 <> 0) /\
  (forall c, routeColor "15" = Some c -> c ∈ COLORS).
Proof.
  apply (routeColor_palette "15").
  intros num [= <-]. lia.
Defined.

End ColorsMore.
